(** * eslite: path-encoded storage over an ordered key/value table

    A shallow embedding of the TypeScript sources of eslite and the
    properties of its path codec, value codec, range utilities and
    navigator.

    The repository holds two revisions of its modules:
    - [encoding.ts] with [encodeValue]/[decodeValue], used by [table.ts];
    - [encoding.ts] with [encodeScalar]/[decodeScalar]/[datatype]/
      [encodeComplex], used by [proxy.ts] and [index.ts].
    [encodePath], [decodePath], [encodeString] and [decodeString] have the
    same text in both; [increment] and the composite markers differ. *)

From Stdlib Require Import ZArith List Lia Bool String Ascii.
From Stdlib Require Import SpecFloat DecimalString Decimal DecimalZ DecimalPos.
From stdpp Require Import base option list gmap.

Local Open Scope Z_scope.
Local Open Scope list_scope.

(** ** Byte buffers

    An [ArrayBuffer]/[Uint8Array] is a list of bytes, each a [Z] in
    [0, 256).  SQLite compares BLOBs with [memcmp] and then by length. *)

Definition bytes := list Z.

Definition is_byte (b : Z) : Prop := 0 <= b < 256.
Definition is_bytes (bs : bytes) : Prop := Forall is_byte bs.

Fixpoint blob_ltb (a b : bytes) : bool :=
  match a, b with
  | _, [] => false
  | [], _ :: _ => true
  | x :: a', y :: b' => (x <? y) || ((x =? y) && blob_ltb a' b')
  end.

Definition blob_eqb (a b : bytes) : bool := bool_decide (a = b).

Definition blob_leb (a b : bytes) : bool := negb (blob_ltb b a).

(** [path >= :lower AND path < :upper] *)
Definition in_range (lower upper key : bytes) : bool :=
  blob_leb lower key && blob_ltb key upper.

(** ** JavaScript errors and results *)

Inductive exn :=
| RangeError (msg : string)
| TypeError (msg : string)
| ReferenceError (msg : string)
| SyntaxError (msg : string)
| SqliteError (msg : string).

Inductive result (A : Type) :=
| Ok (a : A)
| Throw (e : exn).
Arguments Ok {A} a.
Arguments Throw {A} e.

#[global] Instance result_ret : MRet result := fun A a => Ok a.
#[global] Instance result_bind : MBind result := fun A B k r =>
  match r with
  | Ok a => k a
  | Throw e => Throw e
  end.

(** ** DataView accessors (big-endian, as called without the
    [littleEndian] argument) *)

Definition setUint8 (v : Z) : bytes := [v mod 256].

Definition setUint16 (v : Z) : bytes :=
  [(v / 256) mod 256; v mod 256].

Definition setUint32 (v : Z) : bytes :=
  [(v / 16777216) mod 256; (v / 65536) mod 256; (v / 256) mod 256; v mod 256].

Definition getUint16 (hi lo : Z) : Z := hi * 256 + lo.

Definition getUint32 (b3 b2 b1 b0 : Z) : Z :=
  b3 * 16777216 + b2 * 65536 + b1 * 256 + b0.

(** ** Paths

    [type Path = (number | string)[]].  A string is its sequence of UTF-16
    code units; number segments are the integers the navigator produces. *)

Definition jsstring := list Z.

Definition is_jsstring (s : jsstring) : Prop := Forall (fun c => 0 <= c < 65536) s.

Inductive segment :=
| SNum (n : Z)
| SStr (s : jsstring).

Definition Path := list segment.

#[global] Instance segment_eq_dec : EqDecision segment.
Proof. solve_decision. Defined.

Module PATH_TAGS.
Definition NUMBER : Z := 0.
Definition STRING : Z := 1.
End PATH_TAGS.

(** [new ArrayBuffer(0, { maxByteLength: 65535 })] *)
Definition maxByteLength : Z := 65535.

(** [encodeString(s, into, offset)]: the bytes written at [offset]. *)
Fixpoint encodeString (s : jsstring) : result bytes :=
  match s with
  | [] => Ok []
  | code :: s' =>
      if 65534 <=? code then Throw (RangeError "Invalid UTF-16 code unit")
      else bs ← encodeString s'; Ok (setUint16 code ++ bs)
  end.

(** [view.buffer.resize(n)] on a buffer with [maxByteLength] 65535. *)
Definition resize (view : bytes) (n : Z) : result unit :=
  if maxByteLength <? n then Throw (RangeError "Invalid array buffer length")
  else Ok tt.

(** One iteration of the loop of [encodePath]: [view] is the buffer so
    far, the result the buffer after the segment is appended. *)
Definition encodeSegment (view : bytes) (seg : segment) : result bytes :=
  let offset := Z.of_nat (length view) in
  match seg with
  | SNum n =>
      _ ← resize view (offset + 1 + 4);
      Ok (view ++ setUint8 PATH_TAGS.NUMBER ++ setUint32 n)
  | SStr s =>
      _ ← resize view (offset + 1 + Z.of_nat (length s) * 2 + 2);
      bs ← encodeString s;
      Ok (view ++ setUint8 PATH_TAGS.STRING ++ bs ++ setUint16 65534)
  end.

Fixpoint encodePath_loop (view : bytes) (path : Path) : result bytes :=
  match path with
  | [] => Ok view
  | seg :: path' =>
      view' ← encodeSegment view seg; encodePath_loop view' path'
  end.

Definition encodePath (path : Path) : result bytes := encodePath_loop [] path.

(** [copy[copy.length - 1] += 1] on a [Uint8Array]: the sum is stored
    modulo 256. *)
Fixpoint increment_last (prefix : bytes) : bytes :=
  match prefix with
  | [] => []
  | [b] => [(b + 1) mod 256]
  | b :: rest => b :: increment_last rest
  end.

(** Code units of an ASCII literal. *)
Definition js (s : string) : jsstring :=
  map (fun a => Z.of_N (N_of_ascii a)) (list_ascii_of_string s).


(** ** Decoding paths *)

(** [function* decodeString(from, offset)]: the code units yielded from
    [offset] on; [rest] is the buffer from [offset].  [getUint16] on a
    single trailing byte is out of bounds. *)
Fixpoint decodeString (rest : bytes) : result jsstring :=
  match rest with
  | [] => Ok []
  | [_] => Throw (RangeError "Offset is outside the bounds of the DataView")
  | hi :: lo :: rest' =>
      let code := getUint16 hi lo in
      if 65534 <=? code then Ok []
      else s ← decodeString rest'; Ok (code :: s)
  end.

(** The loop of [decodePath]; [rest] is the buffer from index [i] on.
    Every iteration moves [i] forward, so [length from] iterations are
    enough ([decodePath_loop_fuel]). *)
Fixpoint decodePath_loop (fuel : nat) (rest : bytes) : result Path :=
  match rest with
  | [] => Ok []
  | tag :: body =>
      match fuel with
      | O => Throw (RangeError "decodePath: iteration bound")
      | S fuel' =>
          if tag =? PATH_TAGS.NUMBER then
            match body with
            | b3 :: b2 :: b1 :: b0 :: rest' =>
                path ← decodePath_loop fuel' rest';
                Ok (SNum (getUint32 b3 b2 b1 b0) :: path)
            | _ => Throw (RangeError "Offset is outside the bounds of the DataView")
            end
          else if tag =? PATH_TAGS.STRING then
            seg ← decodeString body;
            path ← decodePath_loop fuel' (drop (length seg * 2 + 2) body);
            Ok (SStr seg :: path)
          else Throw (TypeError "Unknown data type")
      end
  end.

Definition decodePath (from : bytes) : result Path :=
  decodePath_loop (length from) from.

(** ** Numbers

    A JavaScript number is a binary64 value: Stdlib's [spec_float] at
    precision 53 and [emax] 1024 (one NaN, as in JavaScript). *)

Definition prec : Z := 53.
Definition emax : Z := 1024.

Definition is_float64 (x : spec_float) : Prop := valid_binary prec emax x = true.

(** The IEEE 754 binary64 interchange format. *)
Definition float64_bits (x : spec_float) : Z :=
  match x with
  | S754_zero s => if s then 2 ^ 63 else 0
  | S754_infinity s => (if s then 2 ^ 63 else 0) + 2047 * 2 ^ 52
  | S754_nan => 2047 * 2 ^ 52 + 2 ^ 51
  | S754_finite s m e =>
      (if s then 2 ^ 63 else 0) +
      (if Z.pos m <? 2 ^ 52 then Z.pos m
       else (e + 1075) * 2 ^ 52 + (Z.pos m - 2 ^ 52))
  end.

Definition bits_float64 (b : Z) : spec_float :=
  let s := 2 ^ 63 <=? b in
  let ex := (b / 2 ^ 52) mod 2048 in
  let mant := b mod 2 ^ 52 in
  if ex =? 0 then
    match mant with
    | Z.pos m => S754_finite s m (-1074)
    | _ => S754_zero s
    end
  else if ex =? 2047 then
    if mant =? 0 then S754_infinity s else S754_nan
  else
    match mant + 2 ^ 52 with
    | Z.pos m => S754_finite s m (ex - 1075)
    | _ => S754_nan
    end.

Definition setUint64 (v : Z) : bytes :=
  setUint32 (v / 4294967296) ++ setUint32 v.

Definition setFloat64 (x : spec_float) : bytes := setUint64 (float64_bits x).

(** [from.getFloat64(1)]: [body] is the buffer from offset 1. *)
Definition getFloat64 (body : bytes) : result spec_float :=
  match body with
  | b7 :: b6 :: b5 :: b4 :: b3 :: b2 :: b1 :: b0 :: _ =>
      Ok (bits_float64 (getUint32 b7 b6 b5 b4 * 4294967296 + getUint32 b3 b2 b1 b0))
  | _ => Throw (RangeError "Offset is outside the bounds of the DataView")
  end.

(** The integer a finite float denotes, when it denotes one. *)
Definition float_to_Z (x : spec_float) : option Z :=
  match x with
  | S754_zero _ => Some 0
  | S754_finite s m e =>
      if 0 <=? e then Some (cond_Zopp s (Z.pos m * 2 ^ e))
      else if (Z.pos m) mod 2 ^ (- e) =? 0
           then Some (cond_Zopp s (Z.pos m / 2 ^ (- e)))
           else None
  | _ => None
  end.

Definition float_of_Z (z : Z) : spec_float := binary_normalize prec emax z 0 false.

(** [Number.isSafeInteger(x)] *)
Definition isSafeInteger (x : spec_float) : bool :=
  match float_to_Z x with
  | Some z => Z.abs z <=? 9007199254740991
  | None => false
  end.

(** ** Strings and numeric literals (ECMA-262, StringToNumber and
    StringToBigInt) *)

(** StrWhiteSpaceChar: WhiteSpace and LineTerminator code points. *)
Definition isStrWhiteSpaceChar (c : Z) : bool :=
  (c =? 9) || (c =? 10) || (c =? 11) || (c =? 12) || (c =? 13) || (c =? 32)
  || (c =? 160) || (c =? 5760) || ((8192 <=? c) && (c <=? 8202))
  || (c =? 8232) || (c =? 8233) || (c =? 8239) || (c =? 8287)
  || (c =? 12288) || (c =? 65279).

Fixpoint trim_start (s : jsstring) : jsstring :=
  match s with
  | c :: s' => if isStrWhiteSpaceChar c then trim_start s' else s
  | [] => []
  end.

Definition trim (s : jsstring) : jsstring :=
  rev (trim_start (rev (trim_start s))).

Definition isDecimalDigit (c : Z) : bool := (48 <=? c) && (c <=? 57).

Definition digitValue (c : Z) : option Z :=
  if (48 <=? c) && (c <=? 57) then Some (c - 48)
  else if (97 <=? c) && (c <=? 102) then Some (c - 87)
  else if (65 <=? c) && (c <=? 70) then Some (c - 55)
  else None.

Fixpoint digits_value (radix acc : Z) (ds : jsstring) : option Z :=
  match ds with
  | [] => Some acc
  | c :: ds' =>
      match digitValue c with
      | Some d => if d <? radix then digits_value radix (acc * radix + d) ds' else None
      | None => None
      end
  end.

(** A non-empty run of digits of the radix. *)
Definition parse_digits (radix : Z) (ds : jsstring) : option Z :=
  match ds with
  | [] => None
  | _ => digits_value radix 0 ds
  end.

Fixpoint span_digits (s : jsstring) : jsstring * jsstring :=
  match s with
  | c :: s' =>
      if isDecimalDigit c then let '(ds, r) := span_digits s' in (c :: ds, r)
      else ([], s)
  | [] => ([], [])
  end.

(** NonDecimalIntegerLiteral: [0x], [0o], [0b] and their digits. *)
Definition parse_nondecimal (text : jsstring) : option Z :=
  match text with
  | 48 :: p :: ds =>
      if (p =? 120) || (p =? 88) then parse_digits 16 ds
      else if (p =? 111) || (p =? 79) then parse_digits 8 ds
      else if (p =? 98) || (p =? 66) then parse_digits 2 ds
      else None
  | _ => None
  end.

(** ExponentPart (optional), up to the end of the literal. *)
Definition parse_exponent (s : jsstring) : option Z :=
  match s with
  | [] => Some 0
  | c :: s' =>
      if (c =? 101) || (c =? 69) then
        match s' with
        | 43 :: ds => parse_digits 10 ds
        | 45 :: ds => z ← parse_digits 10 ds; Some (- z)
        | ds => parse_digits 10 ds
        end
      else None
  end.

(** StrUnsignedDecimalLiteral other than [Infinity]: the literal denotes
    [m * 10 ^ e]. *)
Definition parse_unsigned_decimal (s : jsstring) : option (Z * Z) :=
  let '(int, r) := span_digits s in
  match r with
  | 46 :: r' =>
      let '(frac, r'') := span_digits r' in
      match int ++ frac with
      | [] => None
      | ds =>
          e ← parse_exponent r'';
          m ← digits_value 10 0 ds;
          Some (m, e - Z.of_nat (length frac))
      end
  | _ =>
      e ← parse_exponent r;
      m ← parse_digits 10 int;
      Some (m, e)
  end.

(** The binary64 value nearest to [m * 10 ^ e] (ties to even). *)
Definition round_decimal (neg : bool) (m e : Z) : spec_float :=
  if m =? 0 then S754_zero neg
  else if 0 <=? e then binary_normalize prec emax (cond_Zopp neg (m * 10 ^ e)) 0 neg
  else
    match m, 10 ^ (- e) with
    | Z.pos pm, Z.pos pd =>
        SFdiv prec emax (S754_finite neg pm 0) (S754_finite false pd 0)
    | _, _ => S754_nan
    end.

(** [Number(str)] for a string argument. *)
Definition StringToNumber (str : jsstring) : spec_float :=
  let text := trim str in
  match text with
  | [] => S754_zero false
  | _ =>
      match parse_nondecimal text with
      | Some v => float_of_Z v
      | None =>
          let '(neg, body) :=
            match text with
            | 43 :: b => (false, b)
            | 45 :: b => (true, b)
            | _ => (false, text)
            end in
          if bool_decide (body = js "Infinity") then S754_infinity neg
          else
            match parse_unsigned_decimal body with
            | Some (m, e) => round_decimal neg m e
            | None => S754_nan
            end
      end
  end.

(** [BigInt(str)] for a string argument; a malformed literal is a
    [SyntaxError]. *)
Definition StringToBigInt (str : jsstring) : result Z :=
  let text := trim str in
  let parsed :=
    match text with
    | [] => Some 0
    | _ =>
        match parse_nondecimal text with
        | Some v => Some v
        | None =>
            match text with
            | 43 :: ds => parse_digits 10 ds
            | 45 :: ds => z ← parse_digits 10 ds; Some (- z)
            | _ => parse_digits 10 text
            end
        end
    end in
  match parsed with
  | Some z => Ok z
  | None => Throw (SyntaxError "Cannot convert string to a BigInt")
  end.

Fixpoint uint_units (d : Decimal.uint) : jsstring :=
  match d with
  | Nil => []
  | D0 d => 48 :: uint_units d
  | D1 d => 49 :: uint_units d
  | D2 d => 50 :: uint_units d
  | D3 d => 51 :: uint_units d
  | D4 d => 52 :: uint_units d
  | D5 d => 53 :: uint_units d
  | D6 d => 54 :: uint_units d
  | D7 d => 55 :: uint_units d
  | D8 d => 56 :: uint_units d
  | D9 d => 57 :: uint_units d
  end.

(** [value.toString()] of a bigint, and [String(n)] of an integral number
    below [1e21]. *)
Definition integer_toString (z : Z) : jsstring :=
  match z with
  | Z0 => [48]
  | Z.pos p => uint_units (Pos.to_uint p)
  | Z.neg p => 45 :: uint_units (Pos.to_uint p)
  end.

(** ** Scalars

    [type Scalar = null | boolean | number | string | bigint | Date | RegExp] *)

(** A [Date] is its time value ([Number(date)]). *)
Record Date := { DateValue : spec_float }.

(** A [RegExp] is its pattern text and its flags (the [source] and
    [flags] of a regular expression literal). *)
Record RegExp := { OriginalSource : jsstring; OriginalFlags : jsstring }.

Inductive Scalar :=
| VNull
| VBoolean (b : bool)
| VNumber (x : spec_float)
| VString (s : jsstring)
| VBigInt (z : Z)
| VDate (d : Date)
| VRegExp (r : RegExp).

(** TimeClip of [new Date(n)]. *)
Definition TimeClip (t : spec_float) : spec_float :=
  match t with
  | S754_zero _ => S754_zero false
  | S754_finite s m e =>
      let z := if 0 <=? e then Z.pos m * 2 ^ e else Z.pos m / 2 ^ (- e) in
      if 8640000000000000 <? z then S754_nan
      else binary_normalize prec emax (cond_Zopp s z) 0 false
  | _ => S754_nan
  end.

Definition is_Date (d : Date) : Prop :=
  is_float64 (DateValue d) /\ TimeClip (DateValue d) = DateValue d.

(** ** Source values *)

(** [type ComplexType = "record" | "array"] *)
Variant ComplexType := record | array.

#[global] Instance ComplexType_eq_dec : EqDecision ComplexType.
Proof. solve_decision. Defined.

(** The identity of an object of the source graph. *)
Abbreviation loc := positive.

(** A value assigned through a handle: [undefined], a supported scalar,
    an array or plain record of the heap, or anything else (a function,
    a symbol, an object with another prototype). *)
Inductive Value :=
| Undefined
| Prim (s : Scalar)
| Ref (l : loc)
| Other.

(** An array or plain record with its [Object.entries]. *)
Record object := {
  type : ComplexType;
  entries : list (jsstring * Value);
}.

Abbreviation heap := (gmap positive object).

(** What the JavaScript engine decides and the sources leave to it. *)
Record host := {
  (** whether [new RegExp(pattern)] parses the pattern *)
  RegExpSyntax : jsstring -> bool;
  (** [EscapeRegExpPattern], the [source] text printed by [toString] *)
  EscapeRegExpPattern : jsstring -> jsstring;
  (** [Reflect.has(Array.prototype, prop)] *)
  ArrayPrototypeHas : jsstring -> bool;
  (** [Number(value)] of a value that is not a supported scalar *)
  ObjectToNumber : Value -> result spec_float;
}.

(** [value.toString()] of a [RegExp]: [/source/flags]. *)
Definition RegExp_toString (H : host) (r : RegExp) : jsstring :=
  [47] ++ EscapeRegExpPattern H (OriginalSource r) ++ [47] ++ OriginalFlags r.

(** [new RegExp(s)]: the pattern is [s], the flags are empty. *)
Definition RegExp_new (H : host) (s : jsstring) : result RegExp :=
  if RegExpSyntax H s then Ok {| OriginalSource := s; OriginalFlags := [] |}
  else Throw (SyntaxError "Invalid regular expression").

Module VALUE_TAGS.
Definition NULL : Z := 0.
Definition TRUE : Z := 1.
Definition FALSE : Z := 2.
Definition NUMBER : Z := 3.
Definition STRING : Z := 4.
Definition BIGINT : Z := 5.
Definition DATE : Z := 6.
Definition REGEXP : Z := 7.
End VALUE_TAGS.

(** [encodeValue] of [src/encoding.ts]; [encodeScalar] of the other
    revision has the same text. *)
Definition encodeValue (H : host) (value : Scalar) : result bytes :=
  match value with
  | VBoolean b =>
      Ok (setUint8 (if b then VALUE_TAGS.TRUE else VALUE_TAGS.FALSE))
  | VNumber x =>
      Ok (setUint8 VALUE_TAGS.NUMBER ++ setFloat64 x)
  | VString s =>
      bs ← encodeString s; Ok (setUint8 VALUE_TAGS.STRING ++ bs)
  | VBigInt z =>
      let s := integer_toString z in
      bs ← encodeString s; Ok (setUint8 VALUE_TAGS.BIGINT ++ bs)
  | VNull => Ok [0]
  | VDate d =>
      let n := DateValue d in
      Ok (setUint8 VALUE_TAGS.DATE ++ setFloat64 n)
  | VRegExp r =>
      let s := RegExp_toString H r in
      bs ← encodeString s; Ok (setUint8 VALUE_TAGS.REGEXP ++ bs)
  end.

(** [decodeValue] of [src/encoding.ts]; [decodeScalar] of the other
    revision has the same text. *)
Definition decodeValue (H : host) (from : bytes) : result Scalar :=
  match from with
  | [] => Throw (RangeError "Offset is outside the bounds of the DataView")
  | tag :: body =>
      if tag =? VALUE_TAGS.NULL then Ok VNull
      else if tag =? VALUE_TAGS.TRUE then Ok (VBoolean true)
      else if tag =? VALUE_TAGS.FALSE then Ok (VBoolean false)
      else if tag =? VALUE_TAGS.NUMBER then
        x ← getFloat64 body; Ok (VNumber x)
      else if tag =? VALUE_TAGS.STRING then
        s ← decodeString body; Ok (VString s)
      else if tag =? VALUE_TAGS.BIGINT then
        s ← decodeString body; z ← StringToBigInt s; Ok (VBigInt z)
      else if tag =? VALUE_TAGS.DATE then
        n ← getFloat64 body; Ok (VDate {| DateValue := TimeClip n |})
      else if tag =? VALUE_TAGS.REGEXP then
        s ← decodeString body; r ← RegExp_new H s; Ok (VRegExp r)
      else Throw (RangeError "Unknown data type")
  end.

(** [src/encoding.ts], as imported by [table.ts]. *)
Module EncodingTs.
Definition increment (prefix : bytes) : bytes :=
  match prefix with
  | [] => [1]
  | _ => increment_last prefix
  end.

Definition encodeValue := encodeValue.
Definition decodeValue := decodeValue.
End EncodingTs.

(** The composite markers of [table.ts]. *)
Module OBJECT_TAGS.
Definition RECORD : Z := 255 - 0.
Definition ARRAY : Z := 255 - 1.
End OBJECT_TAGS.

(** [encoding.ts] as imported by [proxy.ts] and [index.ts]. *)
Module EncodingRev.
Module COMPLEX_TAGS.
Definition RECORD : Z := 255 - 1.
Definition ARRAY : Z := 255 - 2.
End COMPLEX_TAGS.

Variant Datatype := DRecord | DArray | DScalar.

(** [of.getUint8(0)] of an empty buffer is out of bounds. *)
Definition datatype (of_ : bytes) : result Datatype :=
  match of_ with
  | [] => Throw (RangeError "Offset is outside the bounds of the DataView")
  | tag :: _ =>
      if tag =? COMPLEX_TAGS.RECORD then Ok DRecord
      else if tag =? COMPLEX_TAGS.ARRAY then Ok DArray
      else Ok DScalar
  end.

Definition ZERO_INCREMENT : bytes := [255].

Definition increment (prefix : bytes) : bytes :=
  match prefix with
  | [] => ZERO_INCREMENT
  | _ => increment_last prefix
  end.

Definition encodeScalar := encodeValue.
Definition decodeScalar := decodeValue.

Definition encodeComplex (type : ComplexType) : bytes :=
  [match type with array => COMPLEX_TAGS.ARRAY | record => COMPLEX_TAGS.RECORD end].
End EncodingRev.

(** ** Key normalization

    [key(prop)] of [table.ts] and [proxy.ts] (same text).  When
    [Number.isSafeInteger(index)] holds, [index] is an integer [i] and the
    comparisons [index >= 0] and [index < 0xffff_ffff] are those of [i]. *)
Definition key (prop : jsstring) : segment :=
  let index := StringToNumber prop in
  match float_to_Z index with
  | Some i =>
      if isSafeInteger index && (0 <=? i) && (i <? 4294967295) then SNum i
      else SStr prop
  | None => SStr prop
  end.

(** [String(segment)] *)
Definition String_ (seg : segment) : jsstring :=
  match seg with
  | SNum n => integer_toString n
  | SStr s => s
  end.

(** ** The backing table

    [CREATE TABLE t (path BLOB PRIMARY KEY NOT NULL, value BLOB NOT NULL)
    WITHOUT ROWID]: rows in primary-key order, one row per path, and the
    snapshot of an open transaction. *)

Definition row : Type := bytes * bytes.

Record database := {
  rows : list row;
  transaction : option (list row);
}.

Fixpoint rows_insert (path value : bytes) (rs : list row) : list row :=
  match rs with
  | [] => [(path, value)]
  | r :: rs' =>
      if blob_ltb path r.1 then (path, value) :: rs
      else r :: rows_insert path value rs'
  end.

Definition has_path (rs : list row) (path : bytes) : bool :=
  existsb (fun r : row => bool_decide (r.1 = path)) rs.

(** [SELECT value FROM t WHERE path == :path], [.get()] *)
Definition selectOne (rs : list row) (path : bytes) : option bytes :=
  snd <$> List.find (fun r : row => bool_decide (r.1 = path)) rs.

(** [SELECT path, value FROM t WHERE path >= :lower AND path < :upper] *)
Definition selectMany (rs : list row) (lower upper : bytes) : list row :=
  List.filter (fun r : row => in_range lower upper r.1) rs.

(** [DELETE FROM t WHERE path >= :lower AND path < :upper] *)
Definition deleteRange (rs : list row) (lower upper : bytes) : list row :=
  List.filter (fun r : row => negb (in_range lower upper r.1)) rs.

Definition blob_max (a b : bytes) : bytes := if blob_ltb a b then b else a.

(** [LENGTH(path) == LENGTH(:lower) AND path >= :lower AND path < :upper] *)
Definition length_match (lower upper key : bytes) : bool :=
  bool_decide (length key = length lower) && in_range lower upper key.

(** [SELECT path FROM t WHERE LENGTH(path) == LENGTH(:lower)
    AND path >= :lower AND path < :upper ORDER BY path DESC LIMIT 1] *)
Definition selectLength (rs : list row) (lower upper : bytes) : option bytes :=
  let matching := List.filter (fun r : row => length_match lower upper r.1) rs in
  match matching with
  | [] => None
  | r :: rest => Some (fold_left blob_max (map fst rest) r.1)
  end.

(** ** Handles *)

(** The [Inner] target of a proxy: [PROTOTYPE] is [null] ([record]) or
    [Array.prototype] ([array]); [CYCLES] refers to a [WeakSet]. *)
Record Inner := {
  PROTOTYPE : ComplexType;
  PREFIX : Path;
  CYCLES : option nat;
}.

(** The table and the [WeakSet]s allocated so far. *)
Record state := {
  DATABASE : database;
  weaksets : list (gset loc);
}.

Inductive outcome (A : Type) :=
| Return (a : A) (st : state)
| Raise (e : exn) (st : state)
| OutOfFuel.
Arguments Return {A} a st.
Arguments Raise {A} e st.
Arguments OutOfFuel {A}.

Definition M (A : Type) : Type := state -> outcome A.

#[global] Instance M_ret : MRet M := fun A a st => Return a st.
#[global] Instance M_bind : MBind M := fun A B k m st =>
  match m st with
  | Return a st' => k a st'
  | Raise e st' => Raise e st'
  | OutOfFuel => OutOfFuel
  end.

Definition throw {A} (e : exn) : M A := fun st => Raise e st.

Definition lift {A} (r : result A) : M A :=
  match r with
  | Ok a => mret a
  | Throw e => throw e
  end.

(** [try { body } catch (err) { handler; throw err }] *)
Definition try_catch_rethrow {A} (body : M A) (handler : M unit) : M A :=
  fun st =>
    match body st with
    | Raise e st' =>
        match handler st' with
        | Return _ st'' => Raise e st''
        | Raise e' st'' => Raise e' st''
        | OutOfFuel => OutOfFuel
        end
    | other => other
    end.

Definition get_rows : M (list row) := fun st => Return (rows (DATABASE st)) st.

Definition set_database (d : database) : M unit := fun st =>
  Return tt {| DATABASE := d; weaksets := weaksets st |}.

Definition set_rows (rs : list row) : M unit := fun st =>
  Return tt {| DATABASE := {| rows := rs; transaction := transaction (DATABASE st) |};
               weaksets := weaksets st |}.

(** [database.exec("BEGIN")] *)
Definition BEGIN : M unit := fun st =>
  match transaction (DATABASE st) with
  | Some _ => Raise (SqliteError "cannot start a transaction within a transaction") st
  | None =>
      set_database {| rows := rows (DATABASE st);
                      transaction := Some (rows (DATABASE st)) |} st
  end.

(** [database.exec("ROLLBACK")] *)
Definition ROLLBACK : M unit := fun st =>
  match transaction (DATABASE st) with
  | Some snapshot => set_database {| rows := snapshot; transaction := None |} st
  | None => Raise (SqliteError "cannot rollback - no transaction is active") st
  end.

(** [database.exec("COMMIT")] *)
Definition COMMIT : M unit := fun st =>
  match transaction (DATABASE st) with
  | Some _ => set_database {| rows := rows (DATABASE st); transaction := None |} st
  | None => Raise (SqliteError "cannot commit - no transaction is active") st
  end.

(** [PREPARED].insert.run *)
Definition insert_run (path value : bytes) : M unit :=
  rs ← get_rows;
  if has_path rs path then throw (SqliteError "UNIQUE constraint failed: path")
  else set_rows (rows_insert path value rs).

(** [PREPARED].delete.run: the number of rows removed ([changes]). *)
Definition delete_run (lower upper : bytes) : M nat :=
  rs ← get_rows;
  let rs' := deleteRange rs lower upper in
  _ ← set_rows rs';
  mret (length rs - length rs')%nat.

(** [new WeakSet([value])] *)
Definition new_WeakSet (l : loc) : M nat := fun st =>
  Return (length (weaksets st))
    {| DATABASE := DATABASE st; weaksets := weaksets st ++ [{[ l ]}] |}.

(** [cycles.has(value)] *)
Definition WeakSet_has (cycles : nat) (l : loc) : M bool := fun st =>
  Return (bool_decide (l ∈ default ∅ (weaksets st !! cycles))) st.

(** [cycles.add(value)] *)
Definition WeakSet_add (cycles : nat) (l : loc) : M unit := fun st =>
  Return tt
    {| DATABASE := DATABASE st;
       weaksets := alter (fun s => {[ l ]} ∪ s) cycles (weaksets st) |}.

(** ** The navigator: the proxy handlers of [table.ts] and [proxy.ts] *)

Variant revision := table_ts | proxy_ts.

Definition increment (rev : revision) : bytes -> bytes :=
  match rev with
  | table_ts => EncodingTs.increment
  | proxy_ts => EncodingRev.increment
  end.

(** The marker row of a composite: [view.setUint8(0, array ?
    OBJECT_TAGS.ARRAY : OBJECT_TAGS.RECORD)] in [table.ts],
    [encodeComplex(array ? "array" : "record")] in [proxy.ts]. *)
Definition marker (rev : revision) (t : ComplexType) : bytes :=
  match rev with
  | table_ts =>
      setUint8 (match t with array => OBJECT_TAGS.ARRAY | record => OBJECT_TAGS.RECORD end)
  | proxy_ts => EncodingRev.encodeComplex t
  end.

Inductive PropertyKey :=
| PString (s : jsstring)
| PSymbol (description : jsstring).

Record PropertyDescriptor := {
  value : Value;
  enumerable : option bool;
  configurable : option bool;
  writable : option bool;
}.

(** [Number(value)] *)
Definition Number_ (H : host) (v : Value) : result spec_float :=
  match v with
  | Undefined => Ok S754_nan
  | Prim VNull => Ok (S754_zero false)
  | Prim (VBoolean b) => Ok (float_of_Z (if b then 1 else 0))
  | Prim (VNumber x) => Ok x
  | Prim (VString s) => Ok (StringToNumber s)
  | Prim (VBigInt z) => Ok (float_of_Z z)
  | Prim (VDate d) => Ok (DateValue d)
  | Prim (VRegExp r) => Ok (StringToNumber (RegExp_toString H r))
  | Ref _ | Other => ObjectToNumber H v
  end.

(** [encodeValue(value)] in the branch [!array && !record]. *)
Definition encodeValue_any (H : host) (v : Value) : result bytes :=
  match v with
  | Prim s => encodeValue H s
  | _ => Throw (TypeError "Unsupported data type")
  end.

(** [Array.isArray(value)] or the plain-record test: the object written
    as a composite. *)
Definition composite (hp : heap) (v : Value) : option (loc * object) :=
  match v with
  | Ref l => (fun o => (l, o)) <$> hp !! l
  | _ => None
  end.

Definition is_length (target : Inner) (prop : jsstring) : bool :=
  bool_decide (PROTOTYPE target = array) && bool_decide (prop = js "length").

Fixpoint for_of {A} (xs : list A) (body : A -> M unit) : M unit :=
  match xs with
  | [] => mret tt
  | x :: xs' => _ ← body x; for_of xs' body
  end.

(** The descriptor the [set] trap passes to [defineProperty]. *)
Definition set_descriptor (target : Inner) (prop : jsstring) (v : Value)
  : PropertyDescriptor :=
  if is_length target prop then
    {| enumerable := Some false; configurable := Some false;
       writable := Some true; value := v |}
  else
    {| enumerable := Some true; configurable := Some true;
       writable := Some true; value := v |}.

Definition deleteProperty (rev : revision) (target : Inner) (prop : PropertyKey)
  : M bool :=
  match prop with
  | PSymbol _ => mret false
  | PString p =>
      if is_length target p then mret false
      else
        let prefix := PREFIX target ++ [key p] in
        encoded ← lift (encodePath prefix);
        changes ← delete_run encoded (increment rev encoded);
        mret (bool_decide (0 < changes)%nat)
  end.

Definition invalid_descriptor (desc : PropertyDescriptor) : bool :=
  bool_decide (enumerable desc = Some false)
  || bool_decide (configurable desc = Some false)
  || bool_decide (writable desc = Some false).

Definition when (b : bool) (m : M unit) : M unit := if b then m else mret tt.

(** The body of [defineProperty(target, prop, desc)]; [set_] is the
    re-entry [this.set!(t, k, v, t)]. *)
Section Handler.
Variable rev : revision.
Variable H : host.
Variable hp : heap.
Variable set_ : Inner -> jsstring -> Value -> M bool.

(** The branch [target[PROTOTYPE] === Array.prototype && prop === "length"]. *)
Definition define_length (target : Inner) (desc : PropertyDescriptor) : M unit :=
  length ← lift (Number_ H (value desc));
  match float_to_Z length with
  | Some n =>
      if isSafeInteger length && (0 <=? n) && (n <? 4294967295) then
        if bool_decide (enumerable desc = Some true)
           || bool_decide (configurable desc = Some true)
           || bool_decide (writable desc = Some false)
        then throw (TypeError "Invalid array length property descriptor")
        else
          lower ← lift (encodePath (PREFIX target ++ [SNum n]));
          upper ← lift (encodePath (PREFIX target ++ [SNum 4294967295]));
          _ ← delete_run lower upper;
          mret tt
      else throw (RangeError "Invalid array length")
  | None => throw (RangeError "Invalid array length")
  end.

(** The branch [!array && !record]. *)
Definition define_scalar (desc : PropertyDescriptor) (encoded : bytes) : M unit :=
  if invalid_descriptor desc
  then throw (TypeError "Invalid property descriptor")
  else
    encoded_value ← lift (encodeValue_any H (value desc));
    insert_run encoded encoded_value.

(** The cycle guard: [target[CYCLES] = new WeakSet([value])] for the
    outermost write, [cycles.has(value)] and [cycles.add(value)] for a
    nested one.  The result is the [WeakSet] the child target refers to. *)
Definition guard_cycles (cycles : option nat) (l : loc) : M nat :=
  match cycles with
  | None => new_WeakSet l
  | Some c =>
      seen ← WeakSet_has c l;
      if (seen : bool) then throw (ReferenceError "Cyclic object")
      else _ ← WeakSet_add c l; mret c
  end.

(** The branch of an array or a plain record. *)
Definition define_composite (target : Inner) (desc : PropertyDescriptor)
    (prefix : Path) (encoded : bytes) (l : loc) (o : object) : M unit :=
  shared ← guard_cycles (CYCLES target) l;
  if invalid_descriptor desc
  then throw (TypeError "Invalid property descriptor")
  else
    _ ← insert_run encoded (marker rev (type o));
    let t := {| PROTOTYPE := type o; PREFIX := prefix; CYCLES := Some shared |} in
    for_of (entries o) (fun '(k, v) => _ ← set_ t k v; mret tt).

(** The [try] block. *)
Definition define_try (target : Inner) (p : jsstring) (desc : PropertyDescriptor)
    (prefix : Path) (encoded : bytes) : M unit :=
  _ ← when (bool_decide (CYCLES target = None))
         (_ ← BEGIN;
          _ ← delete_run encoded (increment rev encoded);
          mret tt);
  if is_length target p then define_length target desc
  else
    match composite hp (value desc) with
    | None => define_scalar desc encoded
    | Some (l, o) => define_composite target desc prefix encoded l o
    end.

(** [finally { if (!cycles) target[CYCLES] = undefined }] resets a field
    of the outermost target that nothing reads afterwards; it leaves the
    table and the [WeakSet] as they are. *)
Definition defineProperty_body (target : Inner) (prop : PropertyKey)
    (desc : PropertyDescriptor) : M bool :=
  match prop with
  | PSymbol _ => mret false
  | PString p =>
      match value desc with
      | Undefined => _ ← deleteProperty rev target prop; mret true
      | _ =>
          let prefix := PREFIX target ++ [key p] in
          encoded ← lift (encodePath prefix);
          let outermost := bool_decide (CYCLES target = None) in
          _ ← try_catch_rethrow
                (define_try target p desc prefix encoded)
                (when outermost ROLLBACK);
          _ ← when outermost COMMIT;
          mret true
      end
  end.
End Handler.

(** [defineProperty(target, prop, desc)].  [fuel] bounds the depth of the
    re-entry through [this.set]; a nested call has [CYCLES] set. *)
Fixpoint defineProperty (rev : revision) (H : host) (hp : heap) (fuel : nat)
    (target : Inner) (prop : PropertyKey) (desc : PropertyDescriptor) : M bool :=
  match fuel with
  | O => fun _ => OutOfFuel
  | S fuel' =>
      defineProperty_body rev H hp
        (fun t k v =>
           defineProperty rev H hp fuel' t (PString k) (set_descriptor t k v))
        target prop desc
  end.

(** The [set] trap. *)
Definition set (rev : revision) (H : host) (hp : heap) (fuel : nat)
    (target : Inner) (prop : jsstring) (v : Value) : M bool :=
  defineProperty rev H hp fuel target (PString prop) (set_descriptor target prop v).

(** ** The navigator: reads *)

(** What a read returns: a scalar or a proxy over a child [Inner]. *)
Inductive Stored :=
| StoredScalar (s : Scalar)
| StoredComplex (inner : Inner).

Record OwnPropertyDescriptor := {
  own_value : Stored;
  own_enumerable : bool;
  own_configurable : bool;
  own_writable : bool;
}.

(** [instanciate(from, inner, prefix)] of [proxy.ts]; in [table.ts] the
    [switch (value[0])] of [getOwnPropertyDescriptor], whose child targets
    are spread copies of [target]. *)
Definition instanciate (rev : revision) (H : host) (from : bytes) (inner : Inner)
    (prefix : Path) : result Stored :=
  match rev with
  | proxy_ts =>
      d ← EncodingRev.datatype from;
      match d with
      | EncodingRev.DRecord =>
          Ok (StoredComplex {| PROTOTYPE := record; PREFIX := prefix; CYCLES := None |})
      | EncodingRev.DArray =>
          Ok (StoredComplex {| PROTOTYPE := array; PREFIX := prefix; CYCLES := None |})
      | EncodingRev.DScalar =>
          s ← EncodingRev.decodeScalar H from; Ok (StoredScalar s)
      end
  | table_ts =>
      match from with
      | tag :: _ =>
          if tag =? OBJECT_TAGS.RECORD then
            Ok (StoredComplex {| PROTOTYPE := record; PREFIX := prefix;
                                 CYCLES := CYCLES inner |})
          else if tag =? OBJECT_TAGS.ARRAY then
            Ok (StoredComplex {| PROTOTYPE := array; PREFIX := prefix;
                                 CYCLES := CYCLES inner |})
          else s ← EncodingTs.decodeValue H from; Ok (StoredScalar s)
      | [] => s ← EncodingTs.decodeValue H from; Ok (StoredScalar s)
      end
  end.

(** [(decoded.at(-1) as number) + 1] *)
Definition at_last_plus_1 (decoded : Path) : Scalar :=
  match last decoded with
  | Some (SNum n) => VNumber (float_of_Z (n + 1))
  | Some (SStr s) => VString (s ++ js "1")
  | None => VNumber S754_nan
  end.

(** [getOwnPropertyDescriptor(target, prop)] for a string [prop], over
    the rows of the table. *)
Definition getOwnPropertyDescriptor (rev : revision) (H : host) (rs : list row)
    (target : Inner) (prop : jsstring) : result (option OwnPropertyDescriptor) :=
  if is_length target prop then
    lower ← encodePath (PREFIX target ++ [SNum 0]);
    upper ← encodePath (PREFIX target ++ [SNum 4294967295]);
    match selectLength rs lower upper with
    | None =>
        Ok (Some {| own_enumerable := false; own_configurable := true;
                    own_writable := true;
                    own_value := StoredScalar (VNumber (float_of_Z 0)) |})
    | Some path =>
        decoded ← decodePath path;
        Ok (Some {| own_enumerable := false; own_configurable := false;
                    own_writable := true;
                    own_value := StoredScalar (at_last_plus_1 decoded) |})
    end
  else
    let prefix := PREFIX target ++ [key prop] in
    encoded ← encodePath prefix;
    match selectOne rs encoded with
    | None => Ok None
    | Some v =>
        s ← instanciate rev H v target prefix;
        Ok (Some {| own_enumerable := true; own_configurable := true;
                    own_writable := true; own_value := s |})
    end.

(** The [has] trap. *)
Definition has (rev : revision) (H : host) (rs : list row) (target : Inner)
    (prop : jsstring) : result bool :=
  descriptor ← getOwnPropertyDescriptor rev H rs target prop;
  match descriptor with
  | Some _ => Ok true
  | None =>
      match PROTOTYPE target with
      | record => Ok false
      | array => Ok (ArrayPrototypeHas H prop)
      end
  end.

(** What the [get] trap returns: the stored value, [undefined], or the
    property of [Array.prototype]. *)
Inductive Got :=
| GotValue (s : Stored)
| GotUndefined
| GotFromArrayPrototype.

Definition get (rev : revision) (H : host) (rs : list row) (target : Inner)
    (prop : jsstring) : result Got :=
  descriptor ← getOwnPropertyDescriptor rev H rs target prop;
  match descriptor with
  | Some d => Ok (GotValue (own_value d))
  | None =>
      match PROTOTYPE target with
      | record => Ok GotUndefined
      | array => Ok GotFromArrayPrototype
      end
  end.

(** The length an array handle reports: [target.length] through [get]. *)
Definition array_length (rev : revision) (H : host) (rs : list row)
    (target : Inner) : result Got :=
  get rev H rs target (js "length").

(** [Database.entries(object)] of [index.ts] on a proxied object, read to
    the end. *)
Fixpoint entries_rows (rev : revision) (H : host) (inner : Inner)
    (selected : list row) : result (list (segment * Stored)) :=
  match selected with
  | [] => Ok []
  | (path, v) :: selected' =>
      decoded ← decodePath path;
      if bool_decide (length decoded = length (PREFIX inner) + 1)%nat then
        match last decoded with
        | Some k =>
            s ← instanciate rev H v inner decoded;
            rest ← entries_rows rev H inner selected';
            Ok ((k, s) :: rest)
        | None => Throw (TypeError "unreachable")
        end
      else entries_rows rev H inner selected'
  end.

Definition Database_entries (rev : revision) (H : host) (rs : list row)
    (inner : Inner) : result (list (segment * Stored)) :=
  encoded ← encodePath (PREFIX inner);
  entries_rows rev H inner (selectMany rs encoded (increment rev encoded)).

(** The paths of the direct children, as [ownKeys] of [table.ts] reads
    them. *)
Fixpoint keys_rows (prefix : Path) (selected : list row) : result (list jsstring) :=
  match selected with
  | [] => Ok []
  | (path, _) :: selected' =>
      decoded ← decodePath path;
      rest ← keys_rows prefix selected';
      if bool_decide (length decoded = length prefix + 1)%nat then
        match last decoded with
        | Some k => Ok (String_ k :: rest)
        | None => Ok rest
        end
      else Ok rest
  end.

(** The [ownKeys] trap. *)
Definition ownKeys (rev : revision) (H : host) (rs : list row) (target : Inner)
    : result (list jsstring) :=
  match rev with
  | table_ts =>
      let prefix := PREFIX target in
      encoded ← encodePath prefix;
      keys_rows prefix (selectMany rs encoded (increment rev encoded))
  | proxy_ts =>
      es ← Database_entries rev H rs target;
      Ok ((match PROTOTYPE target with array => [js "length"] | record => [] end)
          ++ map (fun e => String_ e.1) es)
  end.

(** An outermost write through a handle: [handle[prop] = v],
    [Object.defineProperty(handle, prop, desc)] or [delete handle[prop]]. *)
Inductive write :=
| WSet (prop : jsstring) (v : Value)
| WDefineProperty (prop : PropertyKey) (desc : PropertyDescriptor)
| WDelete (prop : PropertyKey).

Definition run_write (rev : revision) (H : host) (hp : heap) (fuel : nat)
    (target : Inner) (w : write) : M bool :=
  match w with
  | WSet prop v => set rev H hp fuel target prop v
  | WDefineProperty prop desc => defineProperty rev H hp fuel target prop desc
  | WDelete prop => deleteProperty rev target prop
  end.

(** [database.table(name)]: the root handle. *)
Definition table : Inner := {| PROTOTYPE := record; PREFIX := []; CYCLES := None |}.

Definition empty_state : state :=
  {| DATABASE := {| rows := []; transaction := None |}; weaksets := [] |}.

(** ** Specification-level definitions *)

(** The bytes [encodePath] appends for one segment. *)
Definition segment_bytes (seg : segment) : bytes :=
  match seg with
  | SNum n => 0 :: setUint32 n
  | SStr s => 1 :: flat_map setUint16 s ++ [255; 254]
  end.

Definition path_bytes (p : Path) : bytes := flat_map segment_bytes p.

(** Segments the codec represents: a 32-bit unsigned number, or a string
    of code units below the terminator [0xFFFE]. *)
Definition wf_segment (seg : segment) : Prop :=
  match seg with
  | SNum n => 0 <= n < 4294967296
  | SStr s => Forall (fun c => 0 <= c < 65534) s
  end.

Definition wf_path (p : Path) : Prop := Forall wf_segment p.

(** Code-unit order in which a string sorts before its extensions. *)
Fixpoint lex_ltb (s t : jsstring) : bool :=
  match s, t with
  | _, [] => false
  | [], _ :: _ => true
  | c :: s', d :: t' => (c <? d) || ((c =? d) && lex_ltb s' t')
  end.

(** Code-unit order in which the end of a string is above every code
    unit: a string sorts after its extensions. *)
Fixpoint terminated_ltb (s t : jsstring) : bool :=
  match s, t with
  | [], _ => false
  | _ :: _, [] => true
  | c :: s', d :: t' => (c <? d) || ((c =? d) && terminated_ltb s' t')
  end.

Definition segment_ltb (string_ltb : jsstring -> jsstring -> bool) (a b : segment)
  : bool :=
  match a, b with
  | SNum m, SNum n => m <? n
  | SNum _, SStr _ => true
  | SStr _, SNum _ => false
  | SStr s, SStr t => string_ltb s t
  end.

(** Paths compared segment by segment; a path precedes its extensions. *)
Fixpoint path_ltb (string_ltb : jsstring -> jsstring -> bool) (p q : Path) : bool :=
  match p, q with
  | _, [] => false
  | [], _ :: _ => true
  | a :: p', b :: q' =>
      segment_ltb string_ltb a b || (bool_decide (a = b) && path_ltb string_ltb p' q')
  end.

(** The tag byte each revision writes for a composite. *)
Definition marker_tag (rev : revision) (t : ComplexType) : Z :=
  match rev, t with
  | table_ts, array => 254
  | table_ts, record => 255
  | proxy_ts, array => 253
  | proxy_ts, record => 254
  end.

(** The last byte of a buffer. *)
Definition last_byte (b : bytes) : Z := default 0 (last b).

(** The rows of the table at a path. *)
Definition row_at (rs : list row) (p : Path) : Prop :=
  exists v, In (path_bytes p, v) rs.

(** The keys of the table are byte strings. *)
Definition wf_rows (rs : list row) : Prop :=
  Forall (fun r : row => is_bytes r.1) rs.

(** The direct numeric children of [P] in the table are the indices
    below [n]: array density. *)
Definition dense_array (rs : list row) (P : Path) (n : Z) : Prop :=
  forall i, 0 <= i < 4294967295 -> (row_at rs (P ++ [SNum i]) <-> i < n).

(** ** An engine for the examples

    [EscapeRegExpPattern] as V8 prints the source of a regular
    expression; the property names of [Array.prototype] and of
    [Object.prototype] in Node.js 24.  The examples use patterns of
    literal characters only, and every pattern is taken to parse. *)

Fixpoint escape_source (in_class : bool) (s : jsstring) : jsstring :=
  match s with
  | [] => []
  | 92 :: c :: s' => 92 :: c :: escape_source in_class s'
  | c :: s' =>
      if (c =? 47) && negb in_class then 92 :: 47 :: escape_source in_class s'
      else if c =? 91 then c :: escape_source true s'
      else if c =? 93 then c :: escape_source false s'
      else if c =? 10 then 92 :: 110 :: escape_source in_class s'
      else if c =? 13 then 92 :: 114 :: escape_source in_class s'
      else if c =? 8232 then [92; 117; 50; 48; 50; 56] ++ escape_source in_class s'
      else if c =? 8233 then [92; 117; 50; 48; 50; 57] ++ escape_source in_class s'
      else c :: escape_source in_class s'
  end.

Definition array_prototype_names : list string :=
  ["length"; "constructor"; "at"; "concat"; "copyWithin"; "fill"; "find";
   "findIndex"; "findLast"; "findLastIndex"; "lastIndexOf"; "pop"; "push";
   "reverse"; "shift"; "unshift"; "slice"; "sort"; "splice"; "includes";
   "indexOf"; "join"; "keys"; "entries"; "values"; "forEach"; "filter";
   "flat"; "flatMap"; "map"; "every"; "some"; "reduce"; "reduceRight";
   "toReversed"; "toSorted"; "toSpliced"; "with"; "toLocaleString";
   "toString"; "__defineGetter__"; "__defineSetter__"; "hasOwnProperty";
   "__lookupGetter__"; "__lookupSetter__"; "isPrototypeOf";
   "propertyIsEnumerable"; "valueOf"; "__proto__"]%string.

Definition node : host := {|
  RegExpSyntax := fun _ => true;
  EscapeRegExpPattern := fun s =>
    match s with
    | [] => js "(?:)"
    | _ => escape_source false s
    end;
  ArrayPrototypeHas := fun prop =>
    bool_decide (prop ∈ map js array_prototype_names);
  ObjectToNumber := fun _ => Ok S754_nan;
|}.

(** The rows of the array [[1, 2]] stored at the key ["a"] of a table
    ([proxy.ts]). *)
Definition example_rows : list row :=
  [([1; 0; 97; 255; 254], [253]);
   ([1; 0; 97; 255; 254; 0; 0; 0; 0; 0], [3; 63; 240; 0; 0; 0; 0; 0; 0]);
   ([1; 0; 97; 255; 254; 0; 0; 0; 0; 1], [3; 64; 0; 0; 0; 0; 0; 0; 0])].

Definition example_array : Inner :=
  {| PROTOTYPE := array; PREFIX := [SStr (js "a")]; CYCLES := None |}.

(** ** Specification of the write path *)

(** The content of the [WeakSet] at [c]. *)
Definition W (st : state) (c : nat) : gset loc := default ∅ (weaksets st !! c).

(** What a write nested in a transaction may do to the state: it keeps
    the transaction open, allocates no [WeakSet] and only adds to the
    shared one. *)
Record step (c : nat) (st st' : state) : Prop := {
  step_transaction : transaction (DATABASE st') = transaction (DATABASE st);
  step_length : length (weaksets st') = length (weaksets st);
  step_W : W st c ⊆ W st' c;
}.

(** [m] relates the state it starts from to the state it ends in,
    whether it returns or throws. *)
Definition post {A} (m : M A) (Q : state -> state -> Prop) : Prop :=
  forall st,
    match m st with
    | Return _ st' => Q st st'
    | Raise _ st' => Q st st'
    | OutOfFuel => True
    end.

(** [v'] is the value at the position [ks] (entry indices) under [v]. *)
Inductive reach (hp : heap) : Value -> list nat -> Value -> Prop :=
| reach_here v : reach hp v [] v
| reach_entry l o i k v ks w :
    hp !! l = Some o -> entries o !! i = Some (k, v) ->
    reach hp v ks w -> reach hp (Ref l) (i :: ks) w.

(** An array has no enumerable ["length"]: [Object.entries] never
    yields that key for an array. *)
Definition wf_heap (hp : heap) : Prop :=
  forall l o, hp !! l = Some o -> type o = array ->
    Forall (fun e : jsstring * Value => e.1 <> js "length") (entries o).

(** A record with a number and a string that [encodeString] rejects. *)
Definition example_heap_bad_string : heap :=
  {[ 1%positive := {| type := record;
                      entries := [(js "a", Prim (VNumber (float_of_Z 1)));
                                  (js "b", Prim (VString [65535]))] |} ]}.

(** [m], started with the shared [WeakSet] at [c] allocated and at most
    [n] heap objects outside it, does not run out of fuel, and does what
    a nested write may do. *)
Definition safe {A} (hp : heap) (c n : nat) (m : M A) : Prop :=
  forall st,
    (c < length (weaksets st))%nat ->
    (size (dom hp ∖ W st c) <= n)%nat ->
    match m st with
    | Return _ st' | Raise _ st' => step c st st'
    | OutOfFuel => False
    end.

(** The composites at and below a value. *)
Definition under (hp : heap) (v : Value) (l : loc) : Prop :=
  exists ks, reach hp v ks (Ref l) /\ is_Some (hp !! l).

(** No composite is at two positions at or below [v]. *)
Definition unshared (hp : heap) (v : Value) : Prop :=
  forall ks1 ks2 l,
    reach hp v ks1 (Ref l) -> reach hp v ks2 (Ref l) -> is_Some (hp !! l) ->
    ks1 = ks2.

(** What a nested write that returns has done for the value it wrote:
    every composite at or below the value was outside the [WeakSet]
    before and is in it after, and none of them is shared. *)
Definition visited (hp : heap) (c : nat) (v : Value) (st st' : state) : Prop :=
  (forall l, under hp v l -> (l ∉ W st c) /\ (l ∈ W st' c)) /\ unshared hp v.

(** The target of the children of a composite, and the body of the loop
    over its entries. *)
Definition child (o : object) (prefix : Path) (c : nat) : Inner :=
  {| PROTOTYPE := type o; PREFIX := prefix; CYCLES := Some c |}.

Definition loop_body (set_ : Inner -> jsstring -> Value -> M bool) (t : Inner)
  : jsstring * Value -> M unit :=
  fun '(k, v) => _ ← set_ t k v; mret tt.

(** Two heaps hold the same objects outside [X], and composites at the
    same locations. *)
Definition agree (hp hp' : heap) (X : gset loc) : Prop :=
  (forall l, l ∉ X -> hp !! l = hp' !! l) /\
  (forall l, is_Some (hp !! l) <-> is_Some (hp' !! l)).

(** The error an outcome throws, and the rows it leaves. *)
Definition thrown {A} (r : outcome A) : option exn :=
  match r with
  | Raise e _ => Some e
  | _ => None
  end.

Definition final_rows {A} (r : outcome A) : option (list row) :=
  match r with
  | Return _ st | Raise _ st => Some (rows (DATABASE st))
  | OutOfFuel => None
  end.

(** [{x: a, y: a}] with the empty record [a]. *)
Definition example_heap_shared : heap :=
  {[ 1%positive := {| type := record;
                      entries := [(js "x", Ref 2%positive); (js "y", Ref 2%positive)] |};
     2%positive := {| type := record; entries := [] |} ]}.

(** [{x: a, y: a}] with [a = {"0": 2, "": 1}], whose keys normalize to
    the same segment. *)
Definition example_heap_shared_colliding : heap :=
  {[ 1%positive := {| type := record;
                      entries := [(js "x", Ref 2%positive); (js "y", Ref 2%positive)] |};
     2%positive := {| type := record;
                      entries := [(js "0", Prim (VNumber (float_of_Z 2)));
                                  (js "", Prim (VNumber (float_of_Z 1)))] |} ]}.

(** The segments [encodePath] accepts: [encodeString] rejects the code
    units from [0xFFFE]. *)
Definition encodable_segment (seg : segment) : Prop :=
  match seg with
  | SNum _ => True
  | SStr s => Forall (fun c => c < 65534) s
  end.

(** A computation that returns or raises on every state. *)
Definition total {A} (m : M A) : Prop := forall st, m st <> OutOfFuel.


(** The scalars of the source language: a number is a binary64 value, a
    string a sequence of UTF-16 code units, a date a time value that
    [TimeClip] leaves as it is. *)
Definition wf_scalar (v : Scalar) : Prop :=
  match v with
  | VNumber x => is_float64 x
  | VString s => is_jsstring s
  | VDate d => is_Date d
  | VRegExp r => is_jsstring (OriginalSource r) /\ is_jsstring (OriginalFlags r)
  | _ => True
  end.

Definition is_RegExp (v : Scalar) : bool :=
  match v with VRegExp _ => true | _ => false end.

(** [/a/i] *)
Definition example_regexp : RegExp :=
  {| OriginalSource := js "a"; OriginalFlags := js "i" |}.

(** The text [encodeValue] passes to [encodeString]: the string itself,
    the decimal digits of a bigint, the printed form of a regular
    expression. *)
Definition encoded_text (H : host) (v : Scalar) : jsstring :=
  match v with
  | VString s => s
  | VBigInt z => integer_toString z
  | VRegExp r => RegExp_toString H r
  | _ => []
  end.

(** [a = {}; a.self = a]: a record that holds itself. *)
Definition example_heap_cyclic : heap :=
  {[ 1%positive := {| type := record; entries := [(js "self", Ref 1%positive)] |} ]}.

(** ** Reading back what was written *)

(** No entry of an object of the source graph is [undefined]. *)
Definition defined_heap (hp : heap) : Prop :=
  forall l o, hp !! l = Some o ->
    Forall (fun e : jsstring * Value => e.2 <> Undefined) (entries o).

(** The rows of [st] are rows of [st'], with their values. *)
Definition grows (st st' : state) : Prop :=
  forall q v,
    selectOne (rows (DATABASE st)) q = Some v ->
    selectOne (rows (DATABASE st')) q = Some v.

(** The table holds the value [v] at the path [Q]: the encoded scalar,
    or the marker of the composite and, at the paths of its entries, the
    values of the entries. *)
Inductive stored (rev : revision) (H : host) (hp : heap) (rs : list row)
  : Path -> Value -> Prop :=
| stored_scalar Q s ev enc :
    encodePath Q = Ok enc -> encodeValue H s = Ok ev ->
    selectOne rs enc = Some ev ->
    stored rev H hp rs Q (Prim s)
| stored_composite Q l o enc :
    hp !! l = Some o ->
    encodePath Q = Ok enc ->
    selectOne rs enc = Some (marker rev (type o)) ->
    (forall k v, In (k, v) (entries o) -> stored rev H hp rs (Q ++ [key k]) v) ->
    stored rev H hp rs Q (Ref l).

(** Reading the key [k] through the handle [t] gives the value [v] back:
    the decoded scalar, or a handle of the type of the composite through
    which every entry of the composite reads back. *)
Inductive reads_back (rev : revision) (H : host) (hp : heap) (rs : list row)
  : Inner -> jsstring -> Value -> Prop :=
| reads_scalar t k s ev :
    encodeValue H s = Ok ev ->
    get rev H rs t k = (v ← decodeValue H ev; Ok (GotValue (StoredScalar v))) ->
    reads_back rev H hp rs t k (Prim s)
| reads_composite t k l o t' :
    hp !! l = Some o ->
    get rev H rs t k = Ok (GotValue (StoredComplex t')) ->
    PROTOTYPE t' = type o ->
    PREFIX t' = PREFIX t ++ [key k] ->
    (forall k' v', In (k', v') (entries o) -> reads_back rev H hp rs t' k' v') ->
    reads_back rev H hp rs t k (Ref l).

(** [{a: [true], b: null}] *)
Definition example_heap_nested : heap :=
  {[ 1%positive := {| type := record;
                      entries := [(js "a", Ref 2%positive); (js "b", Prim VNull)] |};
     2%positive := {| type := array; entries := [(js "0", Prim (VBoolean true))] |} ]}.

(** The rows of [{a: [true], b: null}] stored at the key ["k"] of a table
    ([proxy.ts]). *)
Definition example_rows_nested : list row :=
  [([1; 0; 107; 255; 254], [254]);
   ([1; 0; 107; 255; 254; 1; 0; 97; 255; 254], [253]);
   ([1; 0; 107; 255; 254; 1; 0; 97; 255; 254; 0; 0; 0; 0; 0], [1]);
   ([1; 0; 107; 255; 254; 1; 0; 98; 255; 254], [0])].

(** ** The shape of the rows *)

(** Every row is at the encoding of a path in [Q]; so are the rows of the
    snapshot of an open transaction. *)
Definition rows_at_paths (Q : Path -> Prop) (rs : list row) : Prop :=
  Forall (fun r : row => exists p, Q p /\ r.1 = path_bytes p) rs.

Definition state_at_paths (Q : Path -> Prop) (st : state) : Prop :=
  rows_at_paths Q (rows (DATABASE st)) /\
  forall snapshot, transaction (DATABASE st) = Some snapshot -> rows_at_paths Q snapshot.

Definition keeps_paths (Q : Path -> Prop) (st st' : state) : Prop :=
  state_at_paths Q st -> state_at_paths Q st'.

(** Every row is at the encoding of a path of unsigned 32-bit numbers and
    strings of code units below [0xFFFE]. *)
Definition canonical_rows : list row -> Prop := rows_at_paths wf_path.

(** A segment that is the key of its own name: a number, or a string
    that is not the numeral of an index. *)
Definition normal_segment (k : segment) : Prop :=
  wf_segment k /\ key (String_ k) = k.

Definition normal_path (p : Path) : Prop := Forall normal_segment p.

(** Every row is at the encoding of a path of keys. *)
Definition normal_rows : list row -> Prop := rows_at_paths normal_path.

(** The keys of the objects of the source graph are strings of UTF-16
    code units. *)
Definition wf_keys (hp : heap) : Prop :=
  forall l o, hp !! l = Some o ->
    Forall (fun e : jsstring * Value => is_jsstring e.1) (entries o).

Definition is_jsstring_key (prop : PropertyKey) : Prop :=
  match prop with
  | PString p => is_jsstring p
  | PSymbol _ => True
  end.

Definition write_key (w : write) : PropertyKey :=
  match w with
  | WSet prop _ => PString prop
  | WDefineProperty prop _ => prop
  | WDelete prop => prop
  end.

(** * Properties *)

(** ** The byte order *)

Section BlobOrder.
Implicit Types a b c : bytes.

Lemma blob_ltb_irrefl a : blob_ltb a a = false.
Proof.
  induction a as [|x a IH]; simpl; [done|].
  rewrite IH, Z.ltb_irrefl. by rewrite andb_false_r.
Qed.

Lemma blob_ltb_nil_r a : blob_ltb a [] = false.
Proof. by destruct a. Qed.

Lemma blob_ltb_cons x y a b :
  blob_ltb (x :: a) (y :: b) = true <-> x < y \/ (x = y /\ blob_ltb a b = true).
Proof.
  simpl. rewrite orb_true_iff, andb_true_iff, Z.ltb_lt, Z.eqb_eq. tauto.
Qed.

Lemma blob_ltb_trans a b c :
  blob_ltb a b = true -> blob_ltb b c = true -> blob_ltb a c = true.
Proof.
  revert b c. induction a as [|x a IH]; intros [|y b] [|z c]; try done.
  rewrite !blob_ltb_cons. intros [?|[-> ?]] [?|[-> ?]]; eauto; left; lia.
Qed.

Lemma blob_ltb_asym a b : blob_ltb a b = true -> blob_ltb b a = false.
Proof.
  intros H. destruct (blob_ltb b a) eqn:E; [|done].
  pose proof (blob_ltb_trans _ _ _ H E) as F.
  by rewrite blob_ltb_irrefl in F.
Qed.

Lemma blob_trichotomy a b :
  a = b \/ blob_ltb a b = true \/ blob_ltb b a = true.
Proof.
  revert b. induction a as [|x a IH]; intros [|y b]; auto.
  rewrite !blob_ltb_cons.
  destruct (Z.lt_trichotomy x y) as [?|[->|?]]; auto.
  destruct (IH b) as [->|[?|?]]; auto.
Qed.

Lemma blob_ltb_app_l c a b : blob_ltb (c ++ a) (c ++ b) = blob_ltb a b.
Proof.
  induction c as [|x c IH]; simpl; [done|].
  by rewrite IH, Z.ltb_irrefl, Z.eqb_refl.
Qed.

Lemma blob_leb_refl a : blob_leb a a = true.
Proof. unfold blob_leb. by rewrite blob_ltb_irrefl. Qed.

Lemma blob_leb_app a c : blob_leb a (a ++ c) = true.
Proof.
  unfold blob_leb. rewrite <- (app_nil_r a) at 2.
  rewrite blob_ltb_app_l. by destruct c.
Qed.

Lemma blob_ltb_app a c : c <> [] -> blob_ltb a (a ++ c) = true.
Proof.
  intros Hc. rewrite <- (app_nil_r a) at 1.
  rewrite blob_ltb_app_l. by destruct c.
Qed.

Lemma blob_leb_iff a b : blob_leb a b = true <-> a = b \/ blob_ltb a b = true.
Proof.
  unfold blob_leb. rewrite negb_true_iff. split.
  - intros H. destruct (blob_trichotomy a b) as [?|[?|?]]; auto. congruence.
  - intros [->|H]; [apply blob_ltb_irrefl|by apply blob_ltb_asym].
Qed.

(** A key between two bounds that share a prefix has that prefix. *)
Lemma in_range_common_prefix c lo hi key :
  blob_leb (c ++ lo) key = true -> blob_ltb key (c ++ hi) = true ->
  exists rest, key = c ++ rest /\
    blob_leb lo rest = true /\ blob_ltb rest hi = true.
Proof.
  revert key. induction c as [|x c IH]; intros key Hlo Hhi.
  { exists key. auto. }
  destruct key as [|k key].
  { unfold blob_leb in Hlo. simpl in Hlo. done. }
  simpl in Hhi. unfold blob_leb in Hlo. simpl in Hlo.
  rewrite negb_true_iff, orb_false_iff, andb_false_iff in Hlo.
  rewrite orb_true_iff, andb_true_iff in Hhi.
  destruct Hlo as [Hlt Hlo].
  apply Z.ltb_ge in Hlt.
  destruct Hhi as [Hhi|[Hhi1 Hhi2]]; [apply Z.ltb_lt in Hhi; lia|].
  apply Z.eqb_eq in Hhi1. subst k.
  rewrite Z.eqb_refl in Hlo. destruct Hlo as [?|Hlo]; [done|].
  destruct (IH key) as (rest & -> & ? & ?); auto.
  { unfold blob_leb. by rewrite Hlo. }
  exists rest. auto.
Qed.
End BlobOrder.

(** ** DataView accessors *)

Lemma setUint16_spec c :
  0 <= c < 65536 ->
  exists hi lo, setUint16 c = [hi; lo] /\ is_byte hi /\ is_byte lo /\ c = getUint16 hi lo.
Proof.
  intros Hc. exists (c / 256), (c mod 256). unfold setUint16, getUint16, is_byte.
  rewrite (Z.mod_small (c / 256)) by (split; [apply Z.div_pos|apply Z.div_lt_upper_bound]; lia).
  pose proof (Z.mod_pos_bound c 256 ltac:(lia)).
  pose proof (Z.div_mod c 256 ltac:(lia)).
  assert (0 <= c / 256 < 256)
    by (split; [apply Z.div_pos|apply Z.div_lt_upper_bound]; lia).
  repeat split; try lia.
Qed.

Lemma setUint32_spec n :
  0 <= n < 4294967296 ->
  exists b3 b2 b1 b0, setUint32 n = [b3; b2; b1; b0] /\
    is_byte b3 /\ is_byte b2 /\ is_byte b1 /\ is_byte b0 /\
    n = getUint32 b3 b2 b1 b0.
Proof.
  intros Hn. unfold setUint32, getUint32, is_byte.
  exists ((n / 16777216) mod 256), ((n / 65536) mod 256), ((n / 256) mod 256), (n mod 256).
  split; [done|].
  pose proof (Z.mod_pos_bound (n / 16777216) 256 ltac:(lia)).
  pose proof (Z.mod_pos_bound (n / 65536) 256 ltac:(lia)).
  pose proof (Z.mod_pos_bound (n / 256) 256 ltac:(lia)).
  pose proof (Z.mod_pos_bound n 256 ltac:(lia)).
  repeat split; try lia.
  assert (n / 16777216 < 256) by (apply Z.div_lt_upper_bound; lia).
  assert (0 <= n / 16777216) by (apply Z.div_pos; lia).
  rewrite (Z.mod_small (n / 16777216)) by lia.
  replace 16777216 with (65536 * 256) by lia.
  replace 65536 with (256 * 256) at 2 by lia.
  rewrite <- !Z.div_div by lia.
  pose proof (Z.div_mod n 256 ltac:(lia)).
  pose proof (Z.div_mod (n / 256) 256 ltac:(lia)).
  pose proof (Z.div_mod (n / 256 / 256) 256 ltac:(lia)).
  replace (n / 65536) with (n / 256 / 256) by (rewrite Z.div_div by lia; done).
  lia.
Qed.

Lemma getUint32_setUint32 b3 b2 b1 b0 :
  is_byte b3 -> is_byte b2 -> is_byte b1 -> is_byte b0 ->
  setUint32 (getUint32 b3 b2 b1 b0) = [b3; b2; b1; b0].
Proof.
  unfold is_byte, setUint32, getUint32. intros.
  f_equal; [|f_equal; [|f_equal; [|f_equal]]].
  - rewrite Z.mod_small; [|split; [apply Z.div_pos|apply Z.div_lt_upper_bound]; lia].
    symmetry. apply Z.div_unique with (b2 * 65536 + b1 * 256 + b0); lia.
  - symmetry. apply Z.mod_unique with (b3); [lia|].
    symmetry. apply Z.div_unique with (b1 * 256 + b0); lia.
  - symmetry. apply Z.mod_unique with (b3 * 256 + b2); [lia|].
    symmetry. apply Z.div_unique with b0; lia.
  - symmetry. apply Z.mod_unique with (b3 * 65536 + b2 * 256 + b1); lia.
Qed.

(** ** The path codec *)

Lemma bind_Ok {A B} (r : result A) (k : A -> result B) b :
  (r ≫= k) = Ok b <-> exists a, r = Ok a /\ k a = Ok b.
Proof.
  destruct r as [a|e]; simpl; split.
  - eauto.
  - by intros (a' & [= ->] & ?).
  - done.
  - by intros (a' & ? & ?).
Qed.

Lemma encodeString_Ok s bs :
  encodeString s = Ok bs <->
  Forall (fun c => c < 65534) s /\ bs = flat_map setUint16 s.
Proof.
  revert bs. induction s as [|c s IH]; intros bs; simpl.
  - split; [intros [= <-]; auto|intros [_ ->]; done].
  - destruct (Z.leb_spec 65534 c) as [Hc|Hc].
    + split; [done|]. intros [Hall _]. inversion Hall; subst. lia.
    + change (encodeString s ≫= (fun bs0 => Ok (setUint16 c ++ bs0)) = Ok bs <->
              Forall (fun c => c < 65534) (c :: s) /\ bs = setUint16 c ++ flat_map setUint16 s).
      rewrite bind_Ok. split.
      * intros (bs' & Hbs' & [= <-]). apply IH in Hbs' as [? ->]. auto.
      * intros [Hall ->]. inversion Hall; subst.
        exists (flat_map setUint16 s). split; [|done]. apply IH. auto.
Qed.

Lemma length_flat_map_setUint16 s :
  length (flat_map setUint16 s) = (length s * 2)%nat.
Proof. induction s; simpl; lia. Qed.

Lemma length_segment_bytes seg :
  length (segment_bytes seg) =
  match seg with SNum _ => 5%nat | SStr s => (1 + length s * 2 + 2)%nat end.
Proof.
  destruct seg; simpl; [done|].
  rewrite length_app, length_flat_map_setUint16. simpl. lia.
Qed.

(** The units of a string segment are below the terminator. *)
Lemma wf_segment_encodable seg : wf_segment seg -> encodable_segment seg.
Proof.
  destruct seg; simpl; [done|]. intros Hs.
  eapply Forall_impl; [exact Hs|]. simpl. lia.
Qed.

Lemma encodeSegment_Ok view seg b :
  encodeSegment view seg = Ok b <->
  encodable_segment seg /\ b = view ++ segment_bytes seg /\
  Z.of_nat (length b) <= maxByteLength.
Proof.
  unfold encodeSegment, resize, maxByteLength. destruct seg as [n|s]; simpl.
  - destruct (Z.ltb_spec 65535 (Z.of_nat (length view) + 1 + 4)) as [Hl|Hl]; simpl.
    + split; [done|]. intros (_ & -> & Hlen).
      rewrite length_app in Hlen. simpl in Hlen. lia.
    + split.
      * intros [= <-]. rewrite length_app. simpl. split_and!; auto; lia.
      * by intros (_ & -> & _).
  - destruct (Z.ltb_spec 65535 (Z.of_nat (length view) + 1 + Z.of_nat (length s) * 2 + 2))
      as [Hl|Hl]; simpl.
    + split; [done|]. intros (_ & -> & Hlen).
      rewrite !length_app in Hlen. simpl in Hlen.
      rewrite length_app, length_flat_map_setUint16 in Hlen. simpl in Hlen. lia.
    + change (encodeString s ≫= (fun bs => Ok (view ++ 1 :: bs ++ [255; 254])) = Ok b <->
        Forall (fun c => c < 65534) s /\
        b = view ++ 1 :: flat_map setUint16 s ++ [255; 254] /\
        Z.of_nat (length b) <= 65535).
      rewrite bind_Ok. split.
      * intros (bs & Hbs & [= <-]). apply encodeString_Ok in Hbs as [? ->].
        split_and!; auto.
        rewrite !length_app. simpl.
        rewrite length_app, length_flat_map_setUint16. simpl. lia.
      * intros (Hall & -> & _). exists (flat_map setUint16 s).
        split; [|done]. by apply encodeString_Ok.
Qed.

Lemma encodePath_loop_Ok view p b :
  Z.of_nat (length view) <= maxByteLength ->
  encodePath_loop view p = Ok b <->
  Forall encodable_segment p /\ b = view ++ path_bytes p /\
  Z.of_nat (length b) <= maxByteLength.
Proof.
  revert view b. induction p as [|seg p IH]; intros view b Hview; simpl.
  - unfold path_bytes. simpl. rewrite app_nil_r. split.
    + intros [= <-]. auto.
    + by intros (_ & -> & _).
  - change (encodeSegment view seg ≫= (fun view' => encodePath_loop view' p) = Ok b <->
      Forall encodable_segment (seg :: p) /\
      b = view ++ segment_bytes seg ++ path_bytes p /\
      Z.of_nat (length b) <= maxByteLength).
    rewrite bind_Ok. split.
    + intros (view' & Hseg & Hloop).
      apply encodeSegment_Ok in Hseg as (Hs & -> & Hlen).
      apply IH in Hloop as (Hp & -> & Hb); [|done].
      rewrite <- app_assoc in *. auto.
    + intros (Hall & -> & Hlen). inversion Hall; subst.
      assert (Z.of_nat (length (view ++ segment_bytes seg)) <= maxByteLength).
      { rewrite !length_app in Hlen. rewrite length_app. lia. }
      exists (view ++ segment_bytes seg). split.
      * apply encodeSegment_Ok. auto.
      * apply IH; [done|]. rewrite <- app_assoc. auto.
Qed.

(** [encodePath] concatenates the segment encodings, and fails exactly
    when a code unit is not below [0xFFFE] or the buffer would outgrow
    its [maxByteLength]. *)
Lemma encodePath_Ok p b :
  encodePath p = Ok b <->
  Forall encodable_segment p /\ b = path_bytes p /\
  Z.of_nat (length b) <= maxByteLength.
Proof.
  unfold encodePath. rewrite encodePath_loop_Ok by (simpl; unfold maxByteLength; lia).
  done.
Qed.

Lemma path_bytes_app p q : path_bytes (p ++ q) = path_bytes p ++ path_bytes q.
Proof. unfold path_bytes. apply flat_map_app. Qed.

Lemma path_bytes_cons seg p : path_bytes (seg :: p) = segment_bytes seg ++ path_bytes p.
Proof. done. Qed.

Ltac solve_is_bytes :=
  unfold is_bytes;
  repeat first [apply Forall_nil_2 | apply Forall_cons_2];
  try done; unfold is_byte in *; try lia.

Lemma is_bytes_setUint16 s :
  Forall (fun c => 0 <= c < 65534) s -> is_bytes (flat_map setUint16 s).
Proof.
  induction 1 as [|c s Hc _ IH]; simpl; [constructor|].
  destruct (setUint16_spec c) as (hi & lo & [= <- <-] & ? & ? & _); [lia|].
  solve_is_bytes.
Qed.

Lemma is_bytes_segment seg : wf_segment seg -> is_bytes (segment_bytes seg).
Proof.
  destruct seg as [n|s]; simpl; intros Hwf.
  - destruct (setUint32_spec n Hwf) as (b3 & b2 & b1 & b0 & -> & ? & ? & ? & ? & _).
    solve_is_bytes.
  - apply Forall_cons_2; [unfold is_byte; lia|].
    apply Forall_app. split; [by apply is_bytes_setUint16|].
    solve_is_bytes.
Qed.

Lemma is_bytes_path p : wf_path p -> is_bytes (path_bytes p).
Proof.
  induction 1 as [|seg p Hs _ IH]; [constructor|].
  rewrite path_bytes_cons. apply Forall_app. split; [by apply is_bytes_segment|done].
Qed.

Ltac case_compare :=
  repeat match goal with
  | |- context [?a <? ?b] => destruct (Z.ltb_spec a b)
  | |- context [?a =? ?b] => destruct (Z.eqb_spec a b)
  | |- context [?a <=? ?b] => destruct (Z.leb_spec a b)
  end; simpl; try done; try lia.

Lemma setUint16_ltb c d x y :
  0 <= c < 65536 -> 0 <= d < 65536 ->
  blob_ltb (setUint16 c ++ x) (setUint16 d ++ y) =
  (c <? d) || ((c =? d) && blob_ltb x y).
Proof.
  intros Hc Hd.
  destruct (setUint16_spec c Hc) as (h1 & l1 & -> & ? & ? & ->).
  destruct (setUint16_spec d Hd) as (h2 & l2 & -> & ? & ? & ->).
  unfold getUint16, is_byte in *. simpl. case_compare.
Qed.

Lemma setUint32_ltb m n x y :
  0 <= m < 4294967296 -> 0 <= n < 4294967296 ->
  blob_ltb (setUint32 m ++ x) (setUint32 n ++ y) =
  (m <? n) || ((m =? n) && blob_ltb x y).
Proof.
  intros Hm Hn.
  destruct (setUint32_spec m Hm) as (a3 & a2 & a1 & a0 & -> & ? & ? & ? & ? & ->).
  destruct (setUint32_spec n Hn) as (b3 & b2 & b1 & b0 & -> & ? & ? & ? & ? & ->).
  unfold getUint32, is_byte in *. simpl. case_compare.
Qed.

(** The terminator is the code unit [0xFFFE]. *)
Lemma terminator_setUint16 : [255; 254] = setUint16 65534.
Proof. reflexivity. Qed.

Lemma terminated_ltb_bytes s t x y :
  Forall (fun c => 0 <= c < 65534) s -> Forall (fun c => 0 <= c < 65534) t ->
  blob_ltb (flat_map setUint16 s ++ [255; 254] ++ x)
           (flat_map setUint16 t ++ [255; 254] ++ y) =
  terminated_ltb s t || (bool_decide (s = t) && blob_ltb x y).
Proof.
  intros Hs. revert t. induction Hs as [|c s Hc Hs IH]; intros t Ht.
  - destruct Ht as [|d t Hd Ht].
    + done.
    + cbn [flat_map terminated_ltb]. rewrite terminator_setUint16 at 1.
      rewrite app_nil_l, <- !app_assoc, setUint16_ltb by lia.
      rewrite bool_decide_eq_false_2 by done. case_compare.
  - destruct Ht as [|d t Hd Ht].
    + cbn [flat_map terminated_ltb]. rewrite terminator_setUint16 at 2.
      rewrite app_nil_l, <- !app_assoc, setUint16_ltb by lia.
      rewrite bool_decide_eq_false_2 by done. case_compare.
    + cbn [flat_map terminated_ltb].
      rewrite <- !app_assoc, setUint16_ltb by lia.
      rewrite IH by done.
      destruct (Z.ltb_spec c d); [done|].
      destruct (Z.eqb_spec c d) as [->|Hne]; simpl.
      * f_equal. f_equal. apply bool_decide_ext. split; [by intros ->|by intros [= ->]].
      * by rewrite (bool_decide_eq_false_2 (c :: s = d :: t)) by congruence.
Qed.

Lemma terminated_ltb_irrefl s : terminated_ltb s s = false.
Proof.
  induction s as [|c s IH]; simpl; [done|].
  by rewrite IH, Z.ltb_irrefl, andb_false_r.
Qed.

Lemma terminated_ltb_total s t :
  s <> t -> terminated_ltb s t = true \/ terminated_ltb t s = true.
Proof.
  revert t. induction s as [|c s IH]; intros [|d t] Hne; simpl; auto; try done.
  destruct (Z.lt_trichotomy c d) as [?|[->|?]].
  - left. case_compare.
  - rewrite Z.ltb_irrefl, Z.eqb_refl. simpl. apply IH. congruence.
  - right. case_compare.
Qed.

Lemma segment_ltb_irrefl a : segment_ltb terminated_ltb a a = false.
Proof. destruct a; simpl; [apply Z.ltb_irrefl|apply terminated_ltb_irrefl]. Qed.

(** Two encoded segments, followed by anything, compare as the
    segments. *)
Lemma segment_bytes_ltb a b x y :
  wf_segment a -> wf_segment b ->
  blob_ltb (segment_bytes a ++ x) (segment_bytes b ++ y) =
  segment_ltb terminated_ltb a b || (bool_decide (a = b) && blob_ltb x y).
Proof.
  destruct a as [m|s], b as [n|t]; simpl; intros Ha Hb.
  - change (blob_ltb (setUint32 m ++ x) (setUint32 n ++ y) =
            (m <? n) || (bool_decide (SNum m = SNum n) && blob_ltb x y)).
    rewrite setUint32_ltb by done.
    destruct (Z.ltb_spec m n); [done|]. simpl.
    destruct (Z.eqb_spec m n) as [->|Hne].
    + by rewrite bool_decide_eq_true_2.
    + by rewrite bool_decide_eq_false_2 by congruence.
  - done.
  - done.
  - rewrite <- !app_assoc.
    change (blob_ltb (flat_map setUint16 s ++ [255; 254] ++ x)
                     (flat_map setUint16 t ++ [255; 254] ++ y) =
            terminated_ltb s t || (bool_decide (SStr s = SStr t) && blob_ltb x y)).
    rewrite terminated_ltb_bytes by done.
    f_equal. f_equal. apply bool_decide_ext. split; [by intros ->|by intros [= ->]].
Qed.

(** The encoding of paths preserves the order of paths in which number
    segments precede string segments, numbers compare by value and a
    string follows its extensions. *)
Lemma path_bytes_ltb p q :
  wf_path p -> wf_path q ->
  blob_ltb (path_bytes p) (path_bytes q) = path_ltb terminated_ltb p q.
Proof.
  intros Hp. revert q. induction Hp as [|a p Ha Hp IH]; intros q Hq.
  - destruct Hq as [|b q Hb Hq]; [done|].
    rewrite path_bytes_cons. destruct b; done.
  - destruct Hq as [|b q Hb Hq].
    + rewrite path_bytes_cons. by destruct a.
    + rewrite !path_bytes_cons, segment_bytes_ltb by done.
      simpl. by rewrite IH.
Qed.

(** The segment code is prefix-free. *)
Lemma segment_bytes_inj a b x y :
  wf_segment a -> wf_segment b ->
  segment_bytes a ++ x = segment_bytes b ++ y -> a = b /\ x = y.
Proof.
  intros Ha Hb Heq.
  destruct (decide (a = b)) as [->|Hne].
  { split; [done|]. by apply app_inv_head in Heq. }
  exfalso.
  pose proof (segment_bytes_ltb a b x y Ha Hb) as H1.
  pose proof (segment_bytes_ltb b a y x Hb Ha) as H2.
  rewrite Heq, blob_ltb_irrefl in H1. rewrite Heq, blob_ltb_irrefl in H2.
  rewrite !bool_decide_eq_false_2 in * by congruence.
  rewrite orb_false_r in *.
  destruct a as [m|s], b as [n|t]; simpl in *; try done.
  - apply Hne. f_equal. symmetry in H1, H2.
    apply Z.ltb_ge in H1, H2. lia.
  - destruct (terminated_ltb_total s t) as [E|E]; congruence.
Qed.

(** ** Decoding paths *)

Lemma decodeString_units s rest :
  Forall (fun c => 0 <= c < 65534) s ->
  decodeString (flat_map setUint16 s ++ [255; 254] ++ rest) = Ok s.
Proof.
  change ([255; 254] ++ rest) with (255 :: 254 :: rest).
  induction 1 as [|c s Hc Hs IH]; [done|].
  destruct (setUint16_spec c ltac:(lia)) as (hi & lo & Hcs & ? & ? & Hget).
  cbn [flat_map]. rewrite Hcs. cbn [app decodeString].
  rewrite <- Hget. destruct (Z.leb_spec 65534 c); [lia|].
  rewrite IH. done.
Qed.

Lemma drop_units s rest :
  drop (length s * 2 + 2) (flat_map setUint16 s ++ [255; 254] ++ rest) = rest.
Proof.
  rewrite app_assoc.
  apply drop_app_length'. rewrite length_app, length_flat_map_setUint16. simpl. lia.
Qed.

Lemma decodePath_loop_path_bytes fuel p :
  wf_path p -> (length p <= fuel)%nat ->
  decodePath_loop fuel (path_bytes p) = Ok p.
Proof.
  intros Hp. revert fuel. induction Hp as [|seg p Hseg Hp IH]; intros fuel Hfuel.
  { by destruct fuel. }
  destruct fuel as [|fuel]; [simpl in Hfuel; lia|].
  simpl in Hfuel. rewrite path_bytes_cons.
  destruct seg as [n|s]; simpl in Hseg.
  - destruct (setUint32_spec n Hseg) as (b3 & b2 & b1 & b0 & Hn & ? & ? & ? & ? & Hget).
    cbn [segment_bytes]. rewrite Hn. cbn [app decodePath_loop].
    change (0 =? PATH_TAGS.NUMBER) with true. cbn match.
    rewrite IH by lia. rewrite <- Hget. done.
  - cbn [segment_bytes]. rewrite <- app_comm_cons, <- app_assoc.
    cbn [decodePath_loop].
    change (1 =? PATH_TAGS.NUMBER) with false.
    change (1 =? PATH_TAGS.STRING) with true. cbn match.
    rewrite decodeString_units by done.
    change (Ok s ≫= ?k) with (k s). cbn beta.
    rewrite drop_units, IH by lia. done.
Qed.

Lemma length_path_bytes_ge p : (length p <= length (path_bytes p))%nat.
Proof.
  induction p as [|seg p IH]; [done|].
  rewrite path_bytes_cons, length_app, length_segment_bytes.
  destruct seg; simpl; lia.
Qed.

(** [decodePath] inverts [encodePath]. *)
Lemma decodePath_encodePath p b :
  wf_path p -> encodePath p = Ok b -> decodePath b = Ok p.
Proof.
  intros Hp Henc. apply encodePath_Ok in Henc as (_ & -> & _).
  unfold decodePath. apply decodePath_loop_path_bytes; [done|].
  apply length_path_bytes_ge.
Qed.

(** The iteration bound of [decodePath_loop] is never reached: any bound
    from the length of the buffer on gives the same result. *)
Lemma decodePath_loop_fuel n rest f1 f2 :
  (length rest <= n)%nat -> (n <= f1)%nat -> (n <= f2)%nat ->
  decodePath_loop f1 rest = decodePath_loop f2 rest.
Proof.
  revert rest f1 f2. induction n as [|n IH]; intros rest f1 f2 Hlen H1 H2.
  { destruct rest; [by destruct f1, f2|simpl in Hlen; lia]. }
  destruct rest as [|tag body]; [by destruct f1, f2|].
  destruct f1 as [|f1]; [lia|]. destruct f2 as [|f2]; [lia|].
  simpl in Hlen. cbn [decodePath_loop].
  destruct (tag =? PATH_TAGS.NUMBER).
  - destruct body as [|b3 [|b2 [|b1 [|b0 rest']]]]; try done.
    rewrite (IH rest' f1 f2); [done|simpl in Hlen; lia|lia|lia].
  - destruct (tag =? PATH_TAGS.STRING); [|done].
    destruct (decodeString body) as [seg|e]; [|done].
    change (Ok seg ≫= ?k) with (k seg). cbn beta.
    rewrite (IH _ f1 f2); [done| |lia|lia].
    rewrite length_drop. lia.
Qed.

Lemma decodePath_never_out_of_fuel from fuel :
  (length from <= fuel)%nat -> decodePath_loop fuel from = decodePath from.
Proof.
  intros. unfold decodePath. by apply (decodePath_loop_fuel (length from)).
Qed.

(** An encoded path that begins with an encoded path extends it. *)
Lemma path_bytes_prefix p q ext :
  wf_path p -> wf_path q ->
  path_bytes q = path_bytes p ++ ext ->
  exists r, q = p ++ r /\ ext = path_bytes r.
Proof.
  intros Hp. revert q. induction Hp as [|a p Ha Hp IH]; intros q Hq Heq.
  { exists q. done. }
  destruct Hq as [|b q Hb Hq].
  { rewrite path_bytes_cons in Heq. destruct a; done. }
  rewrite !path_bytes_cons, <- app_assoc in Heq.
  apply segment_bytes_inj in Heq as [-> Heq]; [|done..].
  destruct (IH q Hq Heq) as (r & -> & ->). by exists r.
Qed.

(** ** Range utilities *)

Lemma increment_nonempty rev b :
  b <> [] -> increment rev b = increment_last b.
Proof. by destruct rev, b. Qed.

Lemma increment_last_snoc pre x :
  increment_last (pre ++ [x]) = pre ++ [(x + 1) mod 256].
Proof.
  induction pre as [|y pre IH]; [done|].
  simpl. rewrite IH. by destruct pre.
Qed.

(** When the last byte of a prefix is below [0xFF], the prefix is below
    its increment and everything that extends the prefix is in the
    range between them. *)
Lemma increment_range rev pre x ext :
  0 <= x < 255 ->
  blob_ltb (pre ++ [x]) (increment rev (pre ++ [x])) = true /\
  in_range (pre ++ [x]) (increment rev (pre ++ [x])) ((pre ++ [x]) ++ ext) = true.
Proof.
  intros Hx. rewrite increment_nonempty by (by destruct pre).
  rewrite increment_last_snoc, Z.mod_small by lia.
  unfold in_range. rewrite blob_leb_app, <- !app_assoc, !blob_ltb_app_l.
  simpl. split; case_compare.
Qed.

(** And only what extends the prefix is in that range. *)
Lemma increment_range_only rev pre x key :
  0 <= x < 255 ->
  in_range (pre ++ [x]) (increment rev (pre ++ [x])) key = true ->
  exists ext, key = (pre ++ [x]) ++ ext.
Proof.
  intros Hx. rewrite increment_nonempty by (by destruct pre).
  rewrite increment_last_snoc, Z.mod_small by lia.
  unfold in_range. rewrite andb_true_iff. intros [Hlo Hhi].
  destruct (in_range_common_prefix _ _ _ _ Hlo Hhi) as (rest & -> & Hlo' & Hhi').
  destruct rest as [|r rest]; [done|].
  unfold blob_leb in Hlo'. simpl in Hlo', Hhi'.
  exists rest. rewrite <- app_assoc. simpl.
  rewrite blob_ltb_nil_r, !andb_false_r, !orb_false_r in *.
  f_equal. f_equal. apply negb_true_iff, Z.ltb_ge in Hlo'. apply Z.ltb_lt in Hhi'. lia.
Qed.

(** A path that ends in a string segment ends in the byte [0xFE]. *)
Lemma path_bytes_snoc_string p s :
  path_bytes (p ++ [SStr s]) = (path_bytes p ++ 1 :: flat_map setUint16 s ++ [255]) ++ [254].
Proof.
  rewrite path_bytes_app. unfold path_bytes at 2. simpl.
  rewrite app_nil_r, <- !app_assoc. simpl. by rewrite <- app_assoc.
Qed.

(** The prefix range of a path that ends in a string segment: the
    increment does not wrap and the range holds the extensions of the
    path. *)
Lemma increment_range_string rev p s q :
  blob_ltb (path_bytes (p ++ [SStr s])) (increment rev (path_bytes (p ++ [SStr s]))) = true /\
  in_range (path_bytes (p ++ [SStr s])) (increment rev (path_bytes (p ++ [SStr s])))
    (path_bytes ((p ++ [SStr s]) ++ q)) = true.
Proof.
  rewrite (path_bytes_app (p ++ [SStr s]) q), path_bytes_snoc_string.
  apply increment_range. lia.
Qed.

(** C1 (the code at the failing input): the path [[255]] encodes to
    [00 00 00 00 FF]; adding one to the last byte wraps to [00], so
    [increment] returns a buffer below its argument, and the encoding of
    the extension [[255, "a"]] is outside the range between them. *)
Theorem C1_increment_wraps_after_byte_255 (rev : revision) :
  encodePath [SNum 255] = Ok [0; 0; 0; 0; 255] /\
  increment rev [0; 0; 0; 0; 255] = [0; 0; 0; 0; 0] /\
  blob_ltb [0; 0; 0; 0; 255] (increment rev [0; 0; 0; 0; 255]) = false /\
  encodePath [SNum 255; SStr (js "a")] = Ok [0; 0; 0; 0; 255; 1; 0; 97; 255; 254] /\
  in_range [0; 0; 0; 0; 255] (increment rev [0; 0; 0; 0; 255])
    [0; 0; 0; 0; 255; 1; 0; 97; 255; 254] = false.
Proof. by destruct rev. Qed.

(** C6 (amended): [increment] of the empty buffer is the single byte
    [0x01] in [src/encoding.ts] and the single byte [0xFF] in the revised
    [encoding.ts]; the root range [[empty, 0x01)] holds the encoded paths
    that start with a number segment and no path that starts with a
    string segment, the root range [[empty, 0xFF)] holds every encoded
    path. *)
Theorem C6_increment_of_empty_buffer :
  EncodingTs.increment [] = [1] /\
  EncodingRev.increment [] = [255] /\
  (forall n p, in_range [] (increment table_ts []) (path_bytes (SNum n :: p)) = true) /\
  (forall s p, in_range [] (increment table_ts []) (path_bytes (SStr s :: p)) = false) /\
  (forall p, in_range [] (increment proxy_ts []) (path_bytes p) = true).
Proof.
  split_and!; try reflexivity.
  - intros s p. unfold in_range. simpl. by rewrite blob_ltb_nil_r.
  - intros p. destruct p as [|[n|s] p]; reflexivity.
Qed.

(** C6 (as stated, refuted): in the revised [encoding.ts] the increment
    of the empty buffer is not [0x01]. *)
Lemma C6_counterexample : EncodingRev.increment [] <> [1].
Proof. discriminate. Qed.

(** ** Composite markers *)

Lemma instanciate_table_ts H tag body inner prefix :
  instanciate table_ts H (tag :: body) inner prefix =
  if tag =? 255 then
    Ok (StoredComplex {| PROTOTYPE := record; PREFIX := prefix; CYCLES := CYCLES inner |})
  else if tag =? 254 then
    Ok (StoredComplex {| PROTOTYPE := array; PREFIX := prefix; CYCLES := CYCLES inner |})
  else s ← decodeValue H (tag :: body); Ok (StoredScalar s).
Proof. reflexivity. Qed.

Lemma instanciate_proxy_ts H tag body inner prefix :
  instanciate proxy_ts H (tag :: body) inner prefix =
  if tag =? 254 then
    Ok (StoredComplex {| PROTOTYPE := record; PREFIX := prefix; CYCLES := None |})
  else if tag =? 253 then
    Ok (StoredComplex {| PROTOTYPE := array; PREFIX := prefix; CYCLES := None |})
  else s ← decodeValue H (tag :: body); Ok (StoredScalar s).
Proof.
  unfold instanciate, EncodingRev.datatype.
  change EncodingRev.COMPLEX_TAGS.RECORD with 254.
  change EncodingRev.COMPLEX_TAGS.ARRAY with 253.
  by destruct (tag =? 254), (tag =? 253).
Qed.

(** C7 (amended): a composite write stores the marker [0xFE] for an
    array and [0xFF] for a record in [table.ts], and [0xFD] for an array
    and [0xFE] for a record in [proxy.ts]; in each revision a stored
    value is read as a composite of a type exactly when its first byte is
    the marker that revision writes for that type. *)
Theorem C7_composite_markers (rev : revision) (t : ComplexType) :
  marker rev t = [marker_tag rev t] /\
  forall H tag body inner prefix,
    (exists i, instanciate rev H (tag :: body) inner prefix = Ok (StoredComplex i)
               /\ PROTOTYPE i = t)
    <-> tag = marker_tag rev t.
Proof.
  split; [by destruct rev, t|].
  intros H tag body inner prefix.
  destruct rev;
    [rewrite instanciate_table_ts|rewrite instanciate_proxy_ts];
    (split; [intros (i & Hi & Ht)|intros ->; destruct t; simpl; eauto]).
  - destruct (Z.eqb_spec tag 255) as [->|?]; [by injection Hi as <-; simpl in Ht; subst|].
    destruct (Z.eqb_spec tag 254) as [->|?]; [by injection Hi as <-; simpl in Ht; subst|].
    by destruct (decodeValue H (tag :: body)).
  - destruct (Z.eqb_spec tag 254) as [->|?]; [by injection Hi as <-; simpl in Ht; subst|].
    destruct (Z.eqb_spec tag 253) as [->|?]; [by injection Hi as <-; simpl in Ht; subst|].
    by destruct (decodeValue H (tag :: body)).
Qed.

(** C7 (as stated, refuted): [proxy.ts] writes [0xFD] for an array, reads
    [0xFE] as a record and does not read [0xFF] as a composite. *)
Lemma C7_counterexample :
  marker proxy_ts array = [253] /\
  EncodingRev.datatype [254] = Ok EncodingRev.DRecord /\
  EncodingRev.datatype [255] = Ok EncodingRev.DScalar.
Proof. done. Qed.

(** ** Path ordering *)

(** C2 (amended): for well-formed paths [p1] and [p2] that [encodePath]
    encodes, [encodePath(p1)] is below [encodePath(p2)] in byte order if
    and only if [p1] precedes [p2] in the order in which a path precedes
    its extensions, number segments precede string segments, numbers
    compare by value, and strings compare by code units with the end of
    the string above every code unit, so that a string follows its
    extensions. *)
Theorem C2_path_order (p1 p2 : Path) (b1 b2 : bytes) :
  wf_path p1 -> wf_path p2 ->
  encodePath p1 = Ok b1 -> encodePath p2 = Ok b2 ->
  (blob_ltb b1 b2 = true <-> path_ltb terminated_ltb p1 p2 = true).
Proof.
  intros H1 H2 E1 E2.
  apply encodePath_Ok in E1 as (_ & -> & _).
  apply encodePath_Ok in E2 as (_ & -> & _).
  by rewrite path_bytes_ltb.
Qed.

Lemma C2_path_order_witness :
  blob_ltb [1; 0; 97; 0; 98; 255; 254] [1; 0; 97; 255; 254] = true <->
  path_ltb terminated_ltb [SStr (js "ab")] [SStr (js "a")] = true.
Proof.
  apply (C2_path_order [SStr (js "ab")] [SStr (js "a")]).
  - repeat constructor; lia.
  - repeat constructor; lia.
  - reflexivity.
  - reflexivity.
Defined.

(** C2 (as stated, refuted): ["a"] precedes ["ab"] by code-unit
    sequence, but the encoding of the path ["a"] is above the encoding of
    the path ["ab"]. *)
Lemma C2_counterexample :
  encodePath [SStr (js "a")] = Ok [1; 0; 97; 255; 254] /\
  encodePath [SStr (js "ab")] = Ok [1; 0; 97; 0; 98; 255; 254] /\
  path_ltb lex_ltb [SStr (js "a")] [SStr (js "ab")] = true /\
  blob_ltb [1; 0; 97; 255; 254] [1; 0; 97; 0; 98; 255; 254] = false /\
  blob_ltb [1; 0; 97; 0; 98; 255; 254] [1; 0; 97; 255; 254] = true.
Proof. done. Qed.

(** ** The backing table *)

Lemma blob_leb_trans a b c :
  blob_leb a b = true -> blob_leb b c = true -> blob_leb a c = true.
Proof.
  rewrite !blob_leb_iff. intros [->|H1] [->|H2]; auto.
  right. by eapply blob_ltb_trans.
Qed.

Lemma blob_max_spec a b :
  (blob_max a b = a \/ blob_max a b = b) /\
  blob_leb a (blob_max a b) = true /\ blob_leb b (blob_max a b) = true.
Proof.
  unfold blob_max. destruct (blob_ltb a b) eqn:E.
  - split_and!; auto using blob_leb_refl. apply blob_leb_iff. auto.
  - split_and!; auto using blob_leb_refl. unfold blob_leb. by rewrite E.
Qed.

Lemma fold_blob_max l x :
  In (fold_left blob_max l x) (x :: l) /\
  forall y, In y (x :: l) -> blob_leb y (fold_left blob_max l x) = true.
Proof.
  revert x. induction l as [|z l IH]; intros x; simpl.
  { split; [auto|]. intros y [->|[]]. apply blob_leb_refl. }
  destruct (IH (blob_max x z)) as [Hin Hmax].
  destruct (blob_max_spec x z) as (Hor & Hx & Hz).
  split.
  - destruct Hin as [Hin|Hin]; [|auto].
    rewrite <- Hin. destruct Hor as [E|E]; rewrite E; auto.
  - intros y [->|[->|Hy]].
    + eapply blob_leb_trans; [exact Hx|]. apply Hmax. by left.
    + eapply blob_leb_trans; [exact Hz|]. apply Hmax. by left.
    + apply Hmax. by right.
Qed.

Lemma selectLength_None rs lower upper :
  selectLength rs lower upper = None <->
  forall r, In r rs -> length_match lower upper r.1 = false.
Proof.
  unfold selectLength.
  destruct (List.filter (fun r : row => length_match lower upper r.1) rs) as [|r l] eqn:E; split; try done.
  - intros _ r Hr. destruct (length_match lower upper r.1) eqn:Hm; [|done].
    assert (In r (List.filter (fun r : row => length_match lower upper r.1) rs)) as Hin
      by (apply filter_In; auto).
    rewrite E in Hin. done.
  - intros Hall. exfalso.
    assert (In r (List.filter (fun r : row => length_match lower upper r.1) rs)) as Hin
      by (rewrite E; by left).
    apply filter_In in Hin as [Hin Hm]. rewrite (Hall r Hin) in Hm. done.
Qed.

Lemma selectLength_Some rs lower upper k :
  selectLength rs lower upper = Some k ->
  (exists v, In (k, v) rs) /\ length_match lower upper k = true /\
  forall r, In r rs -> length_match lower upper r.1 = true -> blob_leb r.1 k = true.
Proof.
  unfold selectLength.
  destruct (List.filter (fun r : row => length_match lower upper r.1) rs) as [|r l] eqn:E; [done|]. intros [= <-].
  destruct (fold_blob_max (map fst l) r.1) as [Hin Hmax].
  assert (forall r', In r' (r :: l) -> In r' rs /\ length_match lower upper r'.1 = true) as Hsel.
  { intros r' Hr'. rewrite <- E in Hr'. by apply filter_In in Hr'. }
  assert (exists r', In r' (r :: l) /\ r'.1 = fold_left blob_max (map fst l) r.1) as (r' & Hr' & Heq).
  { destruct Hin as [Hin|Hin]; [exists r; split; [by left|done]|].
    apply in_map_iff in Hin as (r' & ? & ?). exists r'. split; [by right|done]. }
  destruct (Hsel r' Hr') as [Hrs Hm]. split_and!.
  - exists r'.2. rewrite <- Heq. by destruct r'.
  - by rewrite <- Heq.
  - intros r0 Hr0 Hm0. apply Hmax.
    assert (In r0 (r :: l)) as [->|Hl] by (rewrite <- E; apply filter_In; auto).
    + by left.
    + right. apply in_map_iff. eauto.
Qed.

Lemma has_path_In rs path : has_path rs path = true <-> exists v, In (path, v) rs.
Proof.
  unfold has_path. rewrite existsb_exists. split.
  - intros ([k v] & Hin & Hk). apply bool_decide_eq_true in Hk. simpl in Hk. subst. eauto.
  - intros (v & Hin). exists (path, v). split; [done|]. by apply bool_decide_eq_true.
Qed.

Lemma selectOne_Some rs path v :
  selectOne rs path = Some v -> In (path, v) rs.
Proof.
  unfold selectOne.
  destruct (List.find (fun r : row => bool_decide (r.1 = path)) rs) as [[k v']|] eqn:E; simpl; [|done].
  intros [= <-]. apply find_some in E as [Hin Hk].
  apply bool_decide_eq_true in Hk. simpl in Hk. by subst.
Qed.

Lemma selectOne_None rs path :
  selectOne rs path = None <-> has_path rs path = false.
Proof.
  unfold selectOne, has_path.
  destruct (List.find (fun r : row => bool_decide (r.1 = path)) rs) as [r|] eqn:E; simpl.
  - split; [done|]. intros Hex. apply find_some in E as [Hin Hk].
    assert (existsb (fun r : row => bool_decide (r.1 = path)) rs = true) as Ht
      by (apply existsb_exists; eauto).
    congruence.
  - split; [|done]. intros _.
    destruct (existsb (fun r : row => bool_decide (r.1 = path)) rs) eqn:Hex; [|done].
    apply existsb_exists in Hex as (r & Hin & Hk).
    pose proof (find_none _ _ E r Hin). simpl in *. congruence.
Qed.

(** ** Array length *)

Lemma path_bytes_snoc_num P n :
  path_bytes (P ++ [SNum n]) = path_bytes P ++ 0 :: setUint32 n.
Proof. rewrite path_bytes_app. unfold path_bytes at 2. simpl. by rewrite ?app_nil_r. Qed.

Lemma setUint32_0 : setUint32 0 = [0; 0; 0; 0].
Proof. reflexivity. Qed.

Lemma setUint32_max : setUint32 4294967295 = [255; 255; 255; 255].
Proof. reflexivity. Qed.

(** The keys the [length] statement of an array at [P] matches are the
    encodings of the direct numeric children of [P]. *)
Lemma length_match_numeric_child P k :
  is_bytes k ->
  length_match (path_bytes (P ++ [SNum 0])) (path_bytes (P ++ [SNum 4294967295])) k = true <->
  exists i, 0 <= i < 4294967295 /\ k = path_bytes (P ++ [SNum i]).
Proof.
  intros Hk. unfold length_match, in_range.
  rewrite !andb_true_iff, bool_decide_eq_true, !path_bytes_snoc_num.
  rewrite setUint32_0, setUint32_max. split.
  - intros (Hlen & Hlo & Hhi).
    destruct (in_range_common_prefix _ _ _ _ Hlo Hhi) as (rest & -> & Hlo' & Hhi').
    rewrite !length_app in Hlen. simpl in Hlen.
    destruct rest as [|r0 [|b3 [|b2 [|b1 [|b0 [|]]]]]]; simpl in Hlen; try lia.
    apply Forall_app in Hk as [_ Hk].
    apply Forall_cons_1 in Hk as [H0 Hk]. apply Forall_cons_1 in Hk as [H3 Hk].
    apply Forall_cons_1 in Hk as [H2 Hk]. apply Forall_cons_1 in Hk as [H1 Hk].
    apply Forall_cons_1 in Hk as [Hb0 _].
    unfold is_byte in *. unfold blob_leb in Hlo'. simpl in Hlo', Hhi'.
    assert (r0 = 0) as ->.
    { revert Hhi'. case_compare. }
    exists (getUint32 b3 b2 b1 b0). split.
    + revert Hhi'. unfold getUint32. case_compare.
    + rewrite path_bytes_snoc_num, getUint32_setUint32 by done. done.
  - intros (i & Hi & ->). rewrite path_bytes_snoc_num, !length_app. simpl.
    destruct (setUint32_spec i ltac:(lia)) as (b3 & b2 & b1 & b0 & Hs & ? & ? & ? & ? & ->).
    rewrite Hs. split_and!; [done|..].
    + unfold blob_leb. rewrite blob_ltb_app_l. unfold is_byte in *. simpl. case_compare.
    + rewrite blob_ltb_app_l. unfold is_byte, getUint32 in *. simpl. case_compare.
Qed.

Lemma numeric_child_leb P i j :
  0 <= i < 4294967296 -> 0 <= j < 4294967296 ->
  blob_leb (path_bytes (P ++ [SNum i])) (path_bytes (P ++ [SNum j])) = true <-> i <= j.
Proof.
  intros Hi Hj. unfold blob_leb. rewrite !path_bytes_snoc_num, blob_ltb_app_l.
  change (negb ((0 <? 0) || (0 =? 0) && blob_ltb (setUint32 j) (setUint32 i)) = true <-> i <= j).
  rewrite <- (app_nil_r (setUint32 j)), <- (app_nil_r (setUint32 i)).
  rewrite setUint32_ltb by done. simpl. case_compare.
Qed.

Lemma row_at_length_match rs P i :
  0 <= i < 4294967295 -> wf_path P ->
  row_at rs (P ++ [SNum i]) ->
  exists r, In r rs /\ r.1 = path_bytes (P ++ [SNum i]) /\
    length_match (path_bytes (P ++ [SNum 0])) (path_bytes (P ++ [SNum 4294967295])) r.1 = true.
Proof.
  intros Hi HP (v & Hin). exists (path_bytes (P ++ [SNum i]), v).
  split_and!; [done..|]. simpl. apply length_match_numeric_child.
  - apply is_bytes_path. apply Forall_app. split; [done|].
    apply Forall_cons_2; [simpl; lia|constructor].
  - eauto.
Qed.

(** The [length] statement selects the greatest direct numeric child of
    the prefix: never a string-keyed child, never a deeper descendant. *)
Lemma selectLength_greatest_numeric_child rs P k :
  wf_rows rs -> wf_path P ->
  selectLength rs (path_bytes (P ++ [SNum 0])) (path_bytes (P ++ [SNum 4294967295])) = Some k ->
  exists i, 0 <= i < 4294967295 /\ k = path_bytes (P ++ [SNum i]) /\
    row_at rs (P ++ [SNum i]) /\
    forall j, 0 <= j < 4294967295 -> row_at rs (P ++ [SNum j]) -> j <= i.
Proof.
  intros Hrs HP Hsel.
  apply selectLength_Some in Hsel as ((v & Hin) & Hm & Hmax).
  assert (is_bytes k) as Hk.
  { unfold wf_rows in Hrs. rewrite Forall_forall in Hrs.
    apply (Hrs (k, v)). by apply list_elem_of_In. }
  apply length_match_numeric_child in Hm as (i & Hi & ->); [|done].
  exists i. split_and!; [lia..|done|by exists v|].
  intros j Hj Hrow.
  destruct (row_at_length_match rs P j Hj HP Hrow) as (r & Hr & Hr1 & Hrm).
  specialize (Hmax r Hr Hrm). rewrite Hr1 in Hmax.
  apply numeric_child_leb in Hmax; lia.
Qed.

Lemma selectLength_no_numeric_child rs P :
  wf_path P ->
  selectLength rs (path_bytes (P ++ [SNum 0])) (path_bytes (P ++ [SNum 4294967295])) = None ->
  forall i, 0 <= i < 4294967295 -> ~ row_at rs (P ++ [SNum i]).
Proof.
  intros HP Hsel i Hi Hrow.
  destruct (row_at_length_match rs P i Hi HP Hrow) as (r & Hr & _ & Hrm).
  rewrite selectLength_None in Hsel. rewrite (Hsel r Hr) in Hrm. done.
Qed.

Lemma encodePath_child P seg :
  wf_path P -> wf_segment seg ->
  Z.of_nat (length (path_bytes (P ++ [seg]))) <= maxByteLength ->
  encodePath (P ++ [seg]) = Ok (path_bytes (P ++ [seg])).
Proof.
  intros HP Hseg Hlen. apply encodePath_Ok. split_and!; [|done..].
  apply Forall_app. split.
  - eapply Forall_impl; [exact HP|]. apply wf_segment_encodable.
  - apply Forall_cons_2; [by apply wf_segment_encodable|constructor].
Qed.

Lemma length_path_bytes_snoc_num P n :
  length (path_bytes (P ++ [SNum n])) = (length (path_bytes P) + 5)%nat.
Proof. rewrite path_bytes_snoc_num, length_app. done. Qed.

(** C5: for an array handle with prefix [P] whose numeric children are
    the indices [0] to [n-1], the length read through the handle is [n]
    ([0] when there is no numeric child); the [length] statement over
    [[encode(P ++ [0]), encode(P ++ [2^32-1]))] restricted to keys of the
    byte length of [encode(P ++ [0])] selects the greatest direct numeric
    child, never a string-keyed child or a deeper descendant. *)
Theorem C5_array_length (rev : revision) (H : host) (rs : list row)
    (target : Inner) (n : Z) :
  PROTOTYPE target = array ->
  wf_path (PREFIX target) -> wf_rows rs ->
  Z.of_nat (length (path_bytes (PREFIX target))) + 5 <= maxByteLength ->
  0 <= n <= 4294967295 ->
  dense_array rs (PREFIX target) n ->
  array_length rev H rs target = Ok (GotValue (StoredScalar (VNumber (float_of_Z n)))) /\
  forall k,
    selectLength rs (path_bytes (PREFIX target ++ [SNum 0]))
      (path_bytes (PREFIX target ++ [SNum 4294967295])) = Some k ->
    exists i, 0 <= i < 4294967295 /\ i = n - 1 /\
      k = path_bytes (PREFIX target ++ [SNum i]) /\
      row_at rs (PREFIX target ++ [SNum i]) /\
      forall j, 0 <= j < 4294967295 -> row_at rs (PREFIX target ++ [SNum j]) -> j <= i.
Proof.
  intros Harr HP Hrs Hlen Hn Hdense.
  assert (forall k,
    selectLength rs (path_bytes (PREFIX target ++ [SNum 0]))
      (path_bytes (PREFIX target ++ [SNum 4294967295])) = Some k ->
    exists i, 0 <= i < 4294967295 /\ i = n - 1 /\
      k = path_bytes (PREFIX target ++ [SNum i]) /\
      row_at rs (PREFIX target ++ [SNum i]) /\
      forall j, 0 <= j < 4294967295 -> row_at rs (PREFIX target ++ [SNum j]) -> j <= i)
    as Hsel.
  { intros k Hk.
    destruct (selectLength_greatest_numeric_child rs _ k Hrs HP Hk)
      as (i & Hi & -> & Hrow & Hmax).
    pose proof (proj1 (Hdense i Hi) Hrow) as Hin.
    assert (row_at rs (PREFIX target ++ [SNum (n - 1)])) as Hlast
      by (apply Hdense; lia).
    assert (n - 1 <= i) by (apply Hmax; [lia|done]).
    exists i. split_and!; auto with lia. }
  split; [|exact Hsel].
  unfold array_length, get, getOwnPropertyDescriptor, is_length.
  rewrite Harr, !bool_decide_eq_true_2 by done. cbn [andb].
  rewrite !encodePath_child;
    [|done|simpl; lia|rewrite length_path_bytes_snoc_num; lia
     |done|simpl; lia|rewrite length_path_bytes_snoc_num; lia].
  cbn [mbind result_bind].
  destruct (selectLength rs _ _) as [k|] eqn:Hk.
  - destruct (Hsel k eq_refl) as (i & Hi & -> & -> & Hrow & _).
    assert (wf_path (PREFIX target ++ [SNum (n - 1)])) as Hwf.
    { apply Forall_app. split; [done|]. apply Forall_cons_2; [simpl; lia|constructor]. }
    unfold decodePath.
    rewrite decodePath_loop_path_bytes by (done || apply length_path_bytes_ge).
    cbn [mbind result_bind]. unfold at_last_plus_1. rewrite last_snoc.
    cbn [own_value]. by replace (n - 1 + 1) with n by lia.
  - cbn [own_value].
    pose proof (selectLength_no_numeric_child rs _ HP Hk) as Hnone.
    destruct (decide (0 < n)) as [Hpos|Hz]; [|by replace n with 0 by lia].
    exfalso. apply (Hnone 0); [lia|]. apply Hdense; lia.
Qed.

Lemma example_rows_dense : dense_array example_rows (PREFIX example_array) 2.
Proof.
  intros i Hi. split.
  - intros (v & Hin).
    destruct (setUint32_spec i ltac:(lia)) as (b3 & b2 & b1 & b0 & Hs & _ & _ & _ & _ & Hget).
    rewrite path_bytes_snoc_num, Hs in Hin. unfold getUint32 in Hget.
    simpl in Hin. destruct Hin as [E|[E|[E|[]]]]; [discriminate E|..];
      injection E; intros; subst; lia.
  - intros Hlt. assert (i = 0 \/ i = 1) as [-> | ->] by lia.
    + eexists. right. left. reflexivity.
    + eexists. right. right. left. reflexivity.
Defined.

Lemma C5_array_length_witness :
  array_length proxy_ts node example_rows example_array
    = Ok (GotValue (StoredScalar (VNumber (float_of_Z 2)))) /\
  forall k,
    selectLength example_rows (path_bytes (PREFIX example_array ++ [SNum 0]))
      (path_bytes (PREFIX example_array ++ [SNum 4294967295])) = Some k ->
    exists i, 0 <= i < 4294967295 /\ i = 2 - 1 /\
      k = path_bytes (PREFIX example_array ++ [SNum i]) /\
      row_at example_rows (PREFIX example_array ++ [SNum i]) /\
      forall j, 0 <= j < 4294967295 ->
        row_at example_rows (PREFIX example_array ++ [SNum j]) -> j <= i.
Proof.
  apply (C5_array_length proxy_ts node example_rows example_array 2).
  - reflexivity.
  - repeat constructor; lia.
  - repeat constructor; unfold is_byte; lia.
  - simpl. unfold maxByteLength. lia.
  - lia.
  - exact example_rows_dense.
Defined.

(** ** The write path: what a nested write does to the state *)

Lemma step_refl c st : step c st st.
Proof. by split. Qed.

Lemma step_trans c st1 st2 st3 : step c st1 st2 -> step c st2 st3 -> step c st1 st3.
Proof.
  intros [T1 L1 W1] [T2 L2 W2]. split; [congruence|congruence|set_solver].
Qed.

Section Post.
Context {A B : Type}.
Variable c : nat.

Lemma post_mret (a : A) : post (mret a) (step c).
Proof. intros st. apply step_refl. Qed.

Lemma post_throw (e : exn) : post (throw e : M A) (step c).
Proof. intros st. apply step_refl. Qed.

Lemma post_lift (r : result A) : post (lift r) (step c).
Proof. destruct r; [apply post_mret|apply post_throw]. Qed.

Lemma post_bind (m : M A) (k : A -> M B) :
  post m (step c) -> (forall a, post (k a) (step c)) -> post (m ≫= k) (step c).
Proof.
  intros Hm Hk st. unfold mbind, M_bind. specialize (Hm st).
  destruct (m st) as [a st'|e st'|]; [|done..].
  specialize (Hk a st'). destruct (k a st'); [by eapply step_trans..|done].
Qed.
End Post.

Lemma post_set_rows c rs : post (set_rows rs) (step c).
Proof. intros st. by split. Qed.

Lemma post_get_rows c : post get_rows (step c).
Proof. intros st. apply step_refl. Qed.

Lemma post_insert_run c path v : post (insert_run path v) (step c).
Proof.
  unfold insert_run. apply post_bind; [apply post_get_rows|]. intros rs.
  destruct (has_path rs path); [apply post_throw|apply post_set_rows].
Qed.

Lemma post_delete_run c lower upper : post (delete_run lower upper) (step c).
Proof.
  unfold delete_run. apply post_bind; [apply post_get_rows|]. intros rs.
  apply post_bind; [apply post_set_rows|]. intros _. apply post_mret.
Qed.

Lemma W_add st c l :
  W {| DATABASE := DATABASE st;
       weaksets := alter (fun s => {[ l ]} ∪ s) c (weaksets st) |} c
  = if decide (c < length (weaksets st))%nat then {[ l ]} ∪ W st c else ∅.
Proof.
  unfold W. simpl. rewrite list_lookup_alter.
  destruct (weaksets st !! c) as [s|] eqn:E; simpl.
  - apply lookup_lt_Some in E. by rewrite !decide_True.
  - apply lookup_ge_None in E. repeat case_decide; simpl; try done; lia.
Qed.

Lemma W_out_of_range st c : (length (weaksets st) <= c)%nat -> W st c = ∅.
Proof. intros Hc. unfold W. by rewrite (proj2 (lookup_ge_None _ _) Hc). Qed.

Lemma guard_cycles_Some c l st :
  guard_cycles (Some c) l st =
  if bool_decide (l ∈ W st c) then Raise (ReferenceError "Cyclic object") st
  else Return c {| DATABASE := DATABASE st;
                   weaksets := alter (fun s => {[ l ]} ∪ s) c (weaksets st) |}.
Proof.
  unfold guard_cycles, mbind, M_bind, WeakSet_has, WeakSet_add, W. simpl.
  by case_bool_decide.
Qed.

Lemma post_guard_cycles c l : post (guard_cycles (Some c) l) (step c).
Proof.
  intros st. rewrite guard_cycles_Some.
  case_bool_decide; [apply step_refl|].
  split; simpl; [done|by rewrite length_alter|].
  rewrite W_add. case_decide; [set_solver|].
  rewrite W_out_of_range by lia. done.
Qed.

Lemma post_for_of {A} c (xs : list A) (body : A -> M unit) :
  (forall x, post (body x) (step c)) -> post (for_of xs body) (step c).
Proof.
  intros Hbody. induction xs as [|x xs IH]; simpl; [apply post_mret|].
  apply post_bind; [apply Hbody|]. intros _. exact IH.
Qed.

Lemma post_deleteProperty c rev target prop :
  post (deleteProperty rev target prop) (step c).
Proof.
  destruct prop as [p|]; simpl; [|apply post_mret].
  destruct (is_length target p); [apply post_mret|].
  apply post_bind; [apply post_lift|]. intros encoded.
  apply post_bind; [apply post_delete_run|]. intros n. apply post_mret.
Qed.

Lemma post_define_length c H target desc :
  post (define_length H target desc) (step c).
Proof.
  unfold define_length. apply post_bind; [apply post_lift|]. intros x.
  destruct (float_to_Z x) as [n|]; [|apply post_throw].
  destruct (isSafeInteger x && (0 <=? n) && (n <? 4294967295)); [|apply post_throw].
  destruct (_ || _); [apply post_throw|].
  apply post_bind; [apply post_lift|]. intros lower.
  apply post_bind; [apply post_lift|]. intros upper.
  apply post_bind; [apply post_delete_run|]. intros _. apply post_mret.
Qed.

Lemma post_define_scalar c H desc encoded :
  post (define_scalar H desc encoded) (step c).
Proof.
  unfold define_scalar. destruct (invalid_descriptor desc); [apply post_throw|].
  apply post_bind; [apply post_lift|]. intros v. apply post_insert_run.
Qed.

Section NestedBody.
Variable rev : revision.
Variable H : host.
Variable hp : heap.
Variable set_ : Inner -> jsstring -> Value -> M bool.
Variable c : nat.
Hypothesis post_set_ :
  forall t k v, CYCLES t = Some c -> post (set_ t k v) (step c).

Lemma post_define_composite target desc prefix encoded l o :
  CYCLES target = Some c ->
  post (define_composite rev set_ target desc prefix encoded l o) (step c).
Proof.
  intros Hc. unfold define_composite. rewrite Hc.
  intros st. unfold mbind at 1, M_bind at 1.
  pose proof (post_guard_cycles c l st) as Hg.
  destruct (guard_cycles (Some c) l st) as [shared st1|e st1|] eqn:Eg; [|done..].
  assert (shared = c) as ->.
  { rewrite guard_cycles_Some in Eg. by case_bool_decide; simplify_eq. }
  assert (post (if invalid_descriptor desc
                then throw (TypeError "Invalid property descriptor")
                else _ ← insert_run encoded (marker rev (type o));
                     for_of (entries o)
                       (fun '(k, v) =>
                          _ ← set_ {| PROTOTYPE := type o; PREFIX := prefix;
                                      CYCLES := Some c |} k v; mret tt)) (step c)) as Hrest.
  { destruct (invalid_descriptor desc); [apply post_throw|].
    apply post_bind; [apply post_insert_run|]. intros _.
    apply post_for_of. intros [k v].
    apply post_bind; [by apply post_set_|]. intros _. apply post_mret. }
  specialize (Hrest st1).
  destruct (if invalid_descriptor desc then _ else _) as [a st2|e st2|];
    [by eapply step_trans..|done].
Qed.

Lemma post_define_try target p desc prefix encoded :
  CYCLES target = Some c ->
  post (define_try rev H hp set_ target p desc prefix encoded) (step c).
Proof.
  intros Hc. unfold define_try. rewrite Hc.
  rewrite bool_decide_eq_false_2 by done. simpl.
  apply post_bind; [apply post_mret|]. intros _.
  destruct (is_length target p); [apply post_define_length|].
  destruct (composite hp (value desc)) as [[l o]|].
  - by apply post_define_composite.
  - apply post_define_scalar.
Qed.

Lemma post_defineProperty_body target prop desc :
  CYCLES target = Some c ->
  post (defineProperty_body rev H hp set_ target prop desc) (step c).
Proof.
  intros Hc. unfold defineProperty_body.
  destruct prop as [p|]; [|apply post_mret].
  assert (post (encoded ← lift (encodePath (PREFIX target ++ [key p]));
                _ ← try_catch_rethrow
                      (define_try rev H hp set_ target p desc
                         (PREFIX target ++ [key p]) encoded)
                      (when (bool_decide (CYCLES target = None)) ROLLBACK);
                _ ← when (bool_decide (CYCLES target = None)) COMMIT;
                mret true) (step c)) as Hmain.
  { apply post_bind; [apply post_lift|]. intros encoded.
    rewrite Hc, bool_decide_eq_false_2 by done. simpl.
    apply post_bind.
    - intros st. unfold try_catch_rethrow.
      pose proof (post_define_try target p desc (PREFIX target ++ [key p]) encoded Hc st) as Ht.
      by destruct (define_try _ _ _ _ _ _ _ _ _ st).
    - intros _. apply post_bind; [apply post_mret|]. intros _. apply post_mret. }
  destruct (value desc); try exact Hmain.
  apply post_bind; [apply post_deleteProperty|]. intros _. apply post_mret.
Qed.
End NestedBody.

(** A nested [defineProperty] keeps the transaction open and only adds
    to the shared [WeakSet]. *)
Lemma post_defineProperty_nested rev H hp fuel c target prop desc :
  CYCLES target = Some c ->
  post (defineProperty rev H hp fuel target prop desc) (step c).
Proof.
  revert target prop desc. induction fuel as [|fuel IH]; intros target prop desc Hc.
  { by intros st. }
  simpl. apply post_defineProperty_body; [|done].
  intros t k v Ht. by apply IH.
Qed.

(** ** Transactions *)

Lemma deleteProperty_Raise rev target prop st e st' :
  deleteProperty rev target prop st = Raise e st' -> st' = st.
Proof.
  destruct prop as [p|]; simpl; [|done].
  destruct (is_length target p); [done|].
  unfold mbind, M_bind.
  destruct (encodePath (PREFIX target ++ [key p])) as [encoded|e']; simpl;
    [done|by intros [= _ <-]].
Qed.

Lemma BEGIN_idle st :
  transaction (DATABASE st) = None ->
  BEGIN st = Return tt {| DATABASE := {| rows := rows (DATABASE st);
                                         transaction := Some (rows (DATABASE st)) |};
                          weaksets := weaksets st |}.
Proof. unfold BEGIN. by intros ->. Qed.

Lemma ROLLBACK_open st snapshot :
  transaction (DATABASE st) = Some snapshot ->
  ROLLBACK st = Return tt {| DATABASE := {| rows := snapshot; transaction := None |};
                             weaksets := weaksets st |}.
Proof. unfold ROLLBACK. by intros ->. Qed.

Lemma COMMIT_open st snapshot :
  transaction (DATABASE st) = Some snapshot ->
  COMMIT st = Return tt {| DATABASE := {| rows := rows (DATABASE st); transaction := None |};
                           weaksets := weaksets st |}.
Proof. unfold COMMIT. by intros ->. Qed.

Section OutermostBody.
Variable rev : revision.
Variable H : host.
Variable hp : heap.
Variable set_ : Inner -> jsstring -> Value -> M bool.
Hypothesis post_set_ :
  forall c t k v, CYCLES t = Some c -> post (set_ t k v) (step c).

(** The [try] block of the outermost write opens the transaction on the
    rows it starts from and leaves it open. *)
Lemma define_try_outermost target p desc prefix encoded st :
  CYCLES target = None ->
  transaction (DATABASE st) = None ->
  match define_try rev H hp set_ target p desc prefix encoded st with
  | Return _ st' | Raise _ st' =>
      transaction (DATABASE st') = Some (rows (DATABASE st))
  | OutOfFuel => True
  end.
Proof.
  intros Hc Hidle. unfold define_try. rewrite Hc, bool_decide_eq_true_2 by done.
  unfold when. unfold mbind at 1, M_bind at 1. unfold mbind at 1, M_bind at 1.
  rewrite (BEGIN_idle st Hidle).
  set (st0 := {| DATABASE := _; weaksets := weaksets st |}).
  assert (transaction (DATABASE st0) = Some (rows (DATABASE st))) as H0 by done.
  clearbody st0.
  unfold mbind at 1, M_bind at 1.
  pose proof (post_delete_run 0 encoded (increment rev encoded) st0) as Hd.
  destruct (delete_run encoded (increment rev encoded) st0) as [n st1|e st1|];
    [|by rewrite (step_transaction _ _ _ Hd)|done].
  apply step_transaction in Hd. simpl.
  assert (transaction (DATABASE st1) = Some (rows (DATABASE st))) as H1 by congruence.
  clear Hd H0 st0.
  destruct (is_length target p).
  { pose proof (post_define_length 0 H target desc st1) as Hl.
    destruct (define_length H target desc st1);
      [apply step_transaction in Hl; congruence..|done]. }
  destruct (composite hp (value desc)) as [[l o]|].
  - unfold define_composite. rewrite Hc. simpl.
    unfold mbind at 1, M_bind at 1. unfold new_WeakSet.
    set (st2 := {| DATABASE := DATABASE st1; weaksets := _ |}).
    assert (transaction (DATABASE st2) = Some (rows (DATABASE st))) as H2 by done.
    clearbody st2.
    set (c := length (weaksets st1)).
    assert (post (if invalid_descriptor desc
                  then throw (TypeError "Invalid property descriptor")
                  else _ ← insert_run encoded (marker rev (type o));
                       for_of (entries o)
                         (fun '(k, v) =>
                            _ ← set_ {| PROTOTYPE := type o; PREFIX := prefix;
                                        CYCLES := Some c |} k v; mret tt)) (step c)) as Hrest.
    { destruct (invalid_descriptor desc); [apply post_throw|].
      apply post_bind; [apply post_insert_run|]. intros _.
      apply post_for_of. intros [k v].
      apply post_bind; [by apply post_set_|]. intros _. apply post_mret. }
    specialize (Hrest st2).
    destruct (if invalid_descriptor desc then _ else _) as [a st3|e st3|];
      [apply step_transaction in Hrest; congruence..|done].
  - pose proof (post_define_scalar 0 H desc encoded st1) as Hs.
    destruct (define_scalar H desc encoded st1);
      [apply step_transaction in Hs; congruence..|done].
Qed.

(** An outermost [defineProperty] that throws leaves the rows it started
    from and no open transaction. *)
Lemma defineProperty_body_Raise target prop desc st e st' :
  CYCLES target = None ->
  transaction (DATABASE st) = None ->
  defineProperty_body rev H hp set_ target prop desc st = Raise e st' ->
  rows (DATABASE st') = rows (DATABASE st) /\ transaction (DATABASE st') = None.
Proof.
  intros Hc Hidle. unfold defineProperty_body.
  destruct prop as [p|]; [|done].
  assert ((encoded ← lift (encodePath (PREFIX target ++ [key p]));
           _ ← try_catch_rethrow
                 (define_try rev H hp set_ target p desc
                    (PREFIX target ++ [key p]) encoded)
                 (when (bool_decide (CYCLES target = None)) ROLLBACK);
           _ ← when (bool_decide (CYCLES target = None)) COMMIT;
           mret true) st = Raise e st' ->
          rows (DATABASE st') = rows (DATABASE st) /\ transaction (DATABASE st') = None)
    as Hmain.
  { unfold mbind at 1, M_bind at 1.
    destruct (encodePath (PREFIX target ++ [key p])) as [encoded|e0]; simpl;
      [|by intros [= _ <-]].
    rewrite Hc, bool_decide_eq_true_2 by done. unfold when.
    unfold mbind at 1, M_bind at 1. unfold try_catch_rethrow.
    pose proof (define_try_outermost target p desc (PREFIX target ++ [key p])
                  encoded st Hc Hidle) as Ht.
    destruct (define_try _ _ _ _ _ _ _ _ _ st) as [a st1|e1 st1|]; [| |done].
    - unfold mbind, M_bind. by rewrite (COMMIT_open st1 _ Ht).
    - rewrite (ROLLBACK_open st1 _ Ht). by intros [= _ <-]. }
  destruct (value desc); try exact Hmain.
  unfold mbind, M_bind.
  destruct (deleteProperty rev target (PString p) st) as [b st1|e1 st1|] eqn:Ed; try done.
  intros [= _ <-]. apply deleteProperty_Raise in Ed as ->. done.
Qed.
End OutermostBody.

(** An outermost [defineProperty] that throws leaves the rows as they
    were, with no transaction open. *)
Lemma defineProperty_Raise rev H hp fuel target prop desc st e st' :
  CYCLES target = None ->
  transaction (DATABASE st) = None ->
  defineProperty rev H hp fuel target prop desc st = Raise e st' ->
  rows (DATABASE st') = rows (DATABASE st) /\ transaction (DATABASE st') = None.
Proof.
  intros Hc Hidle. destruct fuel as [|fuel]; [done|]. simpl.
  apply defineProperty_body_Raise; [|done..].
  intros c t k v Ht. by apply post_defineProperty_nested.
Qed.

(** C4: an outermost write ([set], [defineProperty] or [delete]) that
    throws, for an error of encoding, validation, the cycle guard or the
    table, raised in the write itself or in the nested write of a child,
    has rolled its transaction back and re-raised the error: the rows of
    the table are those from before the write and no transaction is
    open. *)
Theorem C4_failed_write_leaves_rows (rev : revision) (H : host) (hp : heap)
    (fuel : nat) (target : Inner) (w : write) (st st' : state) (e : exn) :
  CYCLES target = None ->
  transaction (DATABASE st) = None ->
  run_write rev H hp fuel target w st = Raise e st' ->
  rows (DATABASE st') = rows (DATABASE st) /\ transaction (DATABASE st') = None.
Proof.
  intros Hc Hidle. destruct w as [prop v|prop desc|prop]; simpl.
  - by apply defineProperty_Raise.
  - by apply defineProperty_Raise.
  - intros Hd. apply deleteProperty_Raise in Hd as ->. done.
Qed.

Lemma C4_failed_write_leaves_rows_witness :
  exists e st',
    run_write proxy_ts node example_heap_bad_string 3 table
      (WSet (js "k") (Ref 1%positive)) empty_state = Raise e st' /\
    e = RangeError "Invalid UTF-16 code unit" /\
    rows (DATABASE st') = rows (DATABASE empty_state) /\
    transaction (DATABASE st') = None.
Proof.
  eexists _, _. split; [vm_compute; reflexivity|]. split; [reflexivity|].
  eapply (C4_failed_write_leaves_rows proxy_ts node example_heap_bad_string 3 table
            (WSet (js "k") (Ref 1%positive)) empty_state).
  - reflexivity.
  - reflexivity.
  - vm_compute. reflexivity.
Defined.

(** ** Computations that do not re-enter *)

Lemma total_mret {A} (a : A) : total (mret a).
Proof. done. Qed.

Lemma total_throw {A} e : total (throw e : M A).
Proof. done. Qed.

Lemma total_lift {A} (r : result A) : total (lift r).
Proof. by destruct r. Qed.

Lemma total_bind {A B} (m : M A) (k : A -> M B) :
  total m -> (forall a, total (k a)) -> total (m ≫= k).
Proof.
  intros Hm Hk st. unfold mbind, M_bind. specialize (Hm st).
  destruct (m st) as [a st'|e st'|]; [apply Hk|done..].
Qed.

Lemma total_insert_run path v : total (insert_run path v).
Proof.
  intros st. unfold insert_run, mbind, M_bind, get_rows. by destruct (has_path _ _).
Qed.

Lemma total_delete_run lower upper : total (delete_run lower upper).
Proof. done. Qed.

Lemma total_BEGIN : total BEGIN.
Proof. intros st. unfold BEGIN. by destruct (transaction (DATABASE st)). Qed.

Lemma total_ROLLBACK : total ROLLBACK.
Proof. intros st. unfold ROLLBACK. by destruct (transaction (DATABASE st)). Qed.

Lemma total_COMMIT : total COMMIT.
Proof. intros st. unfold COMMIT. by destruct (transaction (DATABASE st)). Qed.

Lemma total_deleteProperty rev target prop : total (deleteProperty rev target prop).
Proof.
  destruct prop as [p|]; simpl; [|apply total_mret].
  destruct (is_length target p); [apply total_mret|].
  apply total_bind; [apply total_lift|]. intros encoded.
  apply total_bind; [apply total_delete_run|]. intros k. apply total_mret.
Qed.

Lemma total_define_length H target desc : total (define_length H target desc).
Proof.
  unfold define_length. apply total_bind; [apply total_lift|]. intros x.
  destruct (float_to_Z x) as [i|]; [|apply total_throw].
  destruct (isSafeInteger x && (0 <=? i) && (i <? 4294967295)); [|apply total_throw].
  destruct (_ || _); [apply total_throw|].
  apply total_bind; [apply total_lift|]. intros lower.
  apply total_bind; [apply total_lift|]. intros upper.
  apply total_bind; [apply total_delete_run|]. intros _. apply total_mret.
Qed.

Lemma total_define_scalar H desc encoded : total (define_scalar H desc encoded).
Proof.
  unfold define_scalar. destruct (invalid_descriptor desc); [apply total_throw|].
  apply total_bind; [apply total_lift|]. intros v. apply total_insert_run.
Qed.

Lemma total_try_catch_rethrow {A} (body : M A) handler :
  total body -> total handler -> total (try_catch_rethrow body handler).
Proof.
  intros Hb Hh st. unfold try_catch_rethrow. specialize (Hb st).
  destruct (body st) as [a st'|e st'|]; [done| |done].
  specialize (Hh st'). by destruct (handler st').
Qed.

Lemma total_when b m : total m -> total (when b m).
Proof. intros Hm. destruct b; [done|apply total_mret]. Qed.

(** ** Termination of the re-entry *)

Section Safe.
Variable hp : heap.
Variable c : nat.

Lemma step_unvisited st st' n :
  step c st st' -> (size (dom hp ∖ W st c) <= n)%nat ->
  (size (dom hp ∖ W st' c) <= n)%nat.
Proof.
  intros [_ _ HW] Hn.
  etrans; [|exact Hn]. apply subseteq_size. set_solver.
Qed.

Lemma safe_of_post {A} n (m : M A) :
  post m (step c) -> total m -> safe hp c n m.
Proof.
  intros Hp Hne st _ _. specialize (Hp st). specialize (Hne st).
  by destruct (m st).
Qed.

Lemma safe_bind {A B} n (m : M A) (k : A -> M B) :
  safe hp c n m -> (forall a, safe hp c n (k a)) -> safe hp c n (m ≫= k).
Proof.
  intros Hm Hk st Hc Hn. unfold mbind, M_bind. specialize (Hm st Hc Hn).
  destruct (m st) as [a st'|e st'|]; [|done..].
  assert (c < length (weaksets st'))%nat by (rewrite (step_length _ _ _ Hm); done).
  pose proof (step_unvisited _ _ _ Hm Hn).
  specialize (Hk a st' ltac:(done) ltac:(done)).
  destruct (k a st'); [by eapply step_trans..|done].
Qed.

Lemma safe_mret {A} n (a : A) : safe hp c n (mret a).
Proof. apply safe_of_post; [apply post_mret|done]. Qed.

Lemma safe_throw {A} n e : safe hp c n (throw e : M A).
Proof. apply safe_of_post; [apply post_throw|done]. Qed.

Lemma safe_lift {A} n (r : result A) : safe hp c n (lift r).
Proof. destruct r; [apply safe_mret|apply safe_throw]. Qed.

Lemma safe_insert_run n path v : safe hp c n (insert_run path v).
Proof. apply safe_of_post; [apply post_insert_run|apply total_insert_run]. Qed.

Lemma safe_delete_run n lower upper : safe hp c n (delete_run lower upper).
Proof. apply safe_of_post; [apply post_delete_run|done]. Qed.

Lemma safe_for_of {A} n (xs : list A) (body : A -> M unit) :
  (forall x, safe hp c n (body x)) -> safe hp c n (for_of xs body).
Proof.
  intros Hbody. induction xs as [|x xs IH]; simpl; [apply safe_mret|].
  apply safe_bind; [apply Hbody|]. intros _. exact IH.
Qed.

Lemma safe_deleteProperty n rev target prop :
  safe hp c n (deleteProperty rev target prop).
Proof.
  destruct prop as [p|]; simpl; [|apply safe_mret].
  destruct (is_length target p); [apply safe_mret|].
  apply safe_bind; [apply safe_lift|]. intros encoded.
  apply safe_bind; [apply safe_delete_run|]. intros k. apply safe_mret.
Qed.

Lemma safe_define_length n H target desc :
  safe hp c n (define_length H target desc).
Proof.
  unfold define_length. apply safe_bind; [apply safe_lift|]. intros x.
  destruct (float_to_Z x) as [i|]; [|apply safe_throw].
  destruct (isSafeInteger x && (0 <=? i) && (i <? 4294967295)); [|apply safe_throw].
  destruct (_ || _); [apply safe_throw|].
  apply safe_bind; [apply safe_lift|]. intros lower.
  apply safe_bind; [apply safe_lift|]. intros upper.
  apply safe_bind; [apply safe_delete_run|]. intros _. apply safe_mret.
Qed.

Lemma safe_define_scalar n H desc encoded :
  safe hp c n (define_scalar H desc encoded).
Proof.
  unfold define_scalar. destruct (invalid_descriptor desc); [apply safe_throw|].
  apply safe_bind; [apply safe_lift|]. intros v. apply safe_insert_run.
Qed.

Lemma composite_Some v l o : composite hp v = Some (l, o) -> v = Ref l /\ hp !! l = Some o.
Proof.
  destruct v as [| |l'|]; simpl; try done.
  destruct (hp !! l') as [o'|] eqn:E; simpl; [|done]. by intros [= <- <-].
Qed.

Variable rev : revision.
Variable H : host.
Variable set_ : Inner -> jsstring -> Value -> M bool.
Variable n : nat.
Hypothesis safe_set_ :
  forall m t k v, (m < n)%nat -> CYCLES t = Some c -> safe hp c m (set_ t k v).

Lemma safe_define_composite target desc prefix encoded l o :
  CYCLES target = Some c -> hp !! l = Some o ->
  safe hp c n (define_composite rev set_ target desc prefix encoded l o).
Proof.
  intros Hc Hl st Hlen Hn. unfold define_composite. rewrite Hc.
  unfold mbind at 1, M_bind at 1. rewrite guard_cycles_Some.
  case_bool_decide as Hseen; [apply step_refl|].
  set (st1 := {| DATABASE := DATABASE st; weaksets := _ |}).
  assert (W st1 c = {[ l ]} ∪ W st c) as HW1.
  { unfold st1. rewrite W_add. by rewrite decide_True. }
  assert (step c st st1) as Hstep1.
  { split; [done|apply length_alter|]. rewrite HW1. set_solver. }
  assert (size (dom hp ∖ W st1 c) < size (dom hp ∖ W st c))%nat as Hless.
  { apply subset_size. rewrite HW1.
    assert (l ∈ dom hp) by (apply elem_of_dom; eauto).
    set_solver. }
  assert (safe hp c (pred n)
            (if invalid_descriptor desc
             then throw (TypeError "Invalid property descriptor")
             else _ ← insert_run encoded (marker rev (type o));
                  for_of (entries o)
                    (fun '(k, v) =>
                       _ ← set_ {| PROTOTYPE := type o; PREFIX := prefix;
                                   CYCLES := Some c |} k v; mret tt))) as Hrest.
  { destruct (invalid_descriptor desc); [apply safe_throw|].
    apply safe_bind; [apply safe_insert_run|]. intros _.
    apply safe_for_of. intros [k v].
    apply safe_bind; [apply safe_set_; [lia|done]|]. intros _. apply safe_mret. }
  specialize (Hrest st1).
  assert (c < length (weaksets st1))%nat as Hlen1
    by (rewrite (step_length _ _ _ Hstep1); done).
  specialize (Hrest Hlen1 ltac:(lia)).
  destruct (if invalid_descriptor desc then _ else _) as [a st2|e st2|];
    [by eapply step_trans..|done].
Qed.

Lemma safe_defineProperty_body target prop desc :
  CYCLES target = Some c ->
  safe hp c n (defineProperty_body rev H hp set_ target prop desc).
Proof.
  intros Hc. unfold defineProperty_body.
  destruct prop as [p|]; [|apply safe_mret].
  assert (safe hp c n
            (encoded ← lift (encodePath (PREFIX target ++ [key p]));
             _ ← try_catch_rethrow
                   (define_try rev H hp set_ target p desc
                      (PREFIX target ++ [key p]) encoded)
                   (when (bool_decide (CYCLES target = None)) ROLLBACK);
             _ ← when (bool_decide (CYCLES target = None)) COMMIT;
             mret true)) as Hmain.
  { apply safe_bind; [apply safe_lift|]. intros encoded.
    rewrite Hc, bool_decide_eq_false_2 by done. simpl.
    apply safe_bind.
    - assert (safe hp c n (define_try rev H hp set_ target p desc
                             (PREFIX target ++ [key p]) encoded)) as Ht.
      { unfold define_try. rewrite Hc, bool_decide_eq_false_2 by done. simpl.
        apply safe_bind; [apply safe_mret|]. intros _.
        destruct (is_length target p); [apply safe_define_length|].
        destruct (composite hp (value desc)) as [[l o]|] eqn:Ecomp.
        - apply composite_Some in Ecomp as [_ Hl]. by apply safe_define_composite.
        - apply safe_define_scalar. }
      intros st Hlen Hn. specialize (Ht st Hlen Hn). unfold try_catch_rethrow.
      by destruct (define_try _ _ _ _ _ _ _ _ _ st).
    - intros _. apply safe_bind; [apply safe_mret|]. intros _. apply safe_mret. }
  destruct (value desc); try exact Hmain.
  apply safe_bind; [apply safe_deleteProperty|]. intros _. apply safe_mret.
Qed.
End Safe.

(** A nested [defineProperty] returns or throws once the fuel exceeds the
    number of heap objects that are not in the [WeakSet] yet. *)
Lemma safe_defineProperty_nested rev H hp fuel c n target prop desc :
  (n < fuel)%nat -> CYCLES target = Some c ->
  safe hp c n (defineProperty rev H hp fuel target prop desc).
Proof.
  revert n target prop desc.
  induction fuel as [|fuel IH]; intros n target prop desc Hn Hc; [lia|].
  simpl. apply safe_defineProperty_body; [|done].
  intros m t k v Hm Ht. apply IH; [lia|done].
Qed.

Lemma W_new_WeakSet st l :
  W {| DATABASE := DATABASE st; weaksets := weaksets st ++ [{[ l ]}] |}
    (length (weaksets st)) = {[ l ]}.
Proof.
  unfold W. simpl. rewrite lookup_app_r by lia.
  by rewrite Nat.sub_diag.
Qed.

Lemma heap_size_dom (hp : heap) : size (dom hp) = size hp.
Proof. apply size_dom. Qed.

Lemma heap_size_pos (hp : heap) l : l ∈ dom hp -> (0 < size hp)%nat.
Proof.
  intros Hin. rewrite <- heap_size_dom.
  assert (size (dom hp) <> 0)%nat; [|lia].
  apply size_non_empty_iff. set_solver.
Qed.

Lemma heap_size_without (hp : heap) l :
  l ∈ dom hp -> (size (dom hp ∖ {[ l ]}) <= pred (size hp))%nat.
Proof.
  intros Hin. rewrite <- heap_size_dom.
  assert (size (dom hp ∖ {[ l ]}) < size (dom hp))%nat; [|lia].
  apply subset_size. set_solver.
Qed.

(** An outermost write returns or throws once the fuel exceeds the number
    of objects of the source heap. *)
Lemma defineProperty_terminates rev H hp fuel target prop desc :
  CYCLES target = None -> (size hp < fuel)%nat ->
  total (defineProperty rev H hp fuel target prop desc).
Proof.
  intros Hc Hfuel. destruct fuel as [|fuel]; [lia|]. simpl.
  unfold defineProperty_body. destruct prop as [p|]; [|apply total_mret].
  set (set_ := fun t k v => defineProperty rev H hp fuel t (PString k) (set_descriptor t k v)).
  assert (total (encoded ← lift (encodePath (PREFIX target ++ [key p]));
           _ ← try_catch_rethrow
                 (define_try rev H hp set_ target p desc (PREFIX target ++ [key p]) encoded)
                 (when (bool_decide (CYCLES target = None)) ROLLBACK);
           _ ← when (bool_decide (CYCLES target = None)) COMMIT;
           mret true)) as Hmain.
  { apply total_bind; [apply total_lift|]. intros encoded.
    apply total_bind;
      [|intros _; apply total_bind;
          [apply total_when, total_COMMIT|intros _; apply total_mret]].
    apply total_try_catch_rethrow; [|apply total_when, total_ROLLBACK].
    unfold define_try.
    apply total_bind.
    { apply total_when, total_bind; [apply total_BEGIN|]. intros _.
      apply total_bind; [apply total_delete_run|]. intros _. apply total_mret. }
    intros _. destruct (is_length target p); [apply total_define_length|].
    destruct (composite hp (value desc)) as [[l o]|] eqn:Ecomp;
      [|apply total_define_scalar].
    apply composite_Some in Ecomp as [_ Hl].
    assert (l ∈ dom hp) as Hin by (apply elem_of_dom; eauto).
    unfold define_composite. rewrite Hc. simpl.
    intros st2. unfold mbind at 1, M_bind at 1. unfold new_WeakSet.
    set (st3 := {| DATABASE := DATABASE st2; weaksets := _ |}).
    set (c := length (weaksets st2)).
    assert (safe hp c (pred (size hp))
      (if invalid_descriptor desc
       then throw (TypeError "Invalid property descriptor")
       else _ ← insert_run encoded (marker rev (type o));
            for_of (entries o)
              (fun '(k, v) =>
                 _ ← set_ {| PROTOTYPE := type o; PREFIX := PREFIX target ++ [key p];
                             CYCLES := Some c |} k v;
                 mret tt))) as Hrest.
    { destruct (invalid_descriptor desc); [apply safe_throw|].
      apply safe_bind; [apply safe_insert_run|]. intros _.
      apply safe_for_of. intros [k v].
      apply safe_bind; [|intros _; apply safe_mret].
      apply safe_defineProperty_nested; [|done].
      pose proof (heap_size_pos hp l Hin). lia. }
    specialize (Hrest st3).
    assert (c < length (weaksets st3))%nat as Hlen
      by (unfold st3, c; simpl; rewrite length_app; simpl; lia).
    assert (size (dom hp ∖ W st3 c) <= pred (size hp))%nat as Hsz.
    { unfold st3, c. rewrite W_new_WeakSet. by apply heap_size_without. }
    specialize (Hrest Hlen Hsz).
    by destruct (if invalid_descriptor desc then _ else _). }
  destruct (value desc); try exact Hmain.
  apply total_bind; [apply total_deleteProperty|]. intros _. apply total_mret.
Qed.

(** ** The cycle guard and shared composites *)

Lemma reach_inv hp v ks w :
  reach hp v ks w ->
  (ks = [] /\ w = v) \/
  (exists l o i k v' ks', v = Ref l /\ ks = i :: ks' /\ hp !! l = Some o /\
     entries o !! i = Some (k, v') /\ reach hp v' ks' w).
Proof.
  intros Hr. destruct Hr as [v|l o i k v ks w Hl He Hr]; [by left|].
  right. by exists l, o, i, k, v, ks.
Qed.

Lemma under_inv hp v l' :
  under hp v l' ->
  (v = Ref l' /\ is_Some (hp !! l')) \/
  (exists l o i k v', v = Ref l /\ hp !! l = Some o /\
     entries o !! i = Some (k, v') /\ under hp v' l').
Proof.
  intros (ks & Hr & Hsome).
  destruct (reach_inv _ _ _ _ Hr) as [[-> <-]|(l & o & i & k & v' & ks' & -> & -> & Hl & He & Hr')].
  - by left.
  - right. exists l, o, i, k, v'. split_and!; try done. by exists ks'.
Qed.

Lemma under_not_composite hp v l' :
  composite hp v = None -> ~ under hp v l'.
Proof.
  intros Hc Hu. destruct (under_inv _ _ _ Hu) as [[-> [o Ho]]|(l & o & i & k & v' & -> & Hl & _)].
  - simpl in Hc. by rewrite Ho in Hc.
  - simpl in Hc. by rewrite Hl in Hc.
Qed.

Lemma visited_not_composite hp c v st st' :
  composite hp v = None -> visited hp c v st st'.
Proof.
  intros Hc. split.
  - intros l Hu. by apply under_not_composite in Hu.
  - intros ks1 ks2 l H1 H2 Hsome.
    exfalso. apply (under_not_composite hp v l Hc). by exists ks1.
Qed.

Section Visit.
Variable rev : revision.
Variable H : host.
Variable hp : heap.
Variable set_ : Inner -> jsstring -> Value -> M bool.
Variable c : nat.
Hypothesis post_set_ :
  forall t k v, CYCLES t = Some c -> post (set_ t k v) (step c).
Hypothesis visit_set_ :
  forall t k v st b st',
    CYCLES t = Some c -> (c < length (weaksets st))%nat -> is_length t k = false ->
    set_ t k v st = Return b st' -> visited hp c v st st'.

Lemma loop_body_Return t k v st u st' :
  loop_body set_ t (k, v) st = Return u st' -> exists b, set_ t k v st = Return b st'.
Proof.
  unfold loop_body, mbind, M_bind. destruct (set_ t k v st) as [b st1|e st1|]; [|done..].
  intros [= _ <-]. by exists b.
Qed.

(** The loop over the entries of a composite that returns has visited
    the value of every entry, and no composite is below two entries. *)
Lemma for_of_visited t es st st' :
  CYCLES t = Some c -> (c < length (weaksets st))%nat ->
  Forall (fun e : jsstring * Value => is_length t e.1 = false) es ->
  for_of es (loop_body set_ t) st = Return tt st' ->
  step c st st' /\
  (forall i k v, es !! i = Some (k, v) -> visited hp c v st st') /\
  (forall i j ki vi kj vj l, (i < j)%nat ->
     es !! i = Some (ki, vi) -> es !! j = Some (kj, vj) ->
     under hp vi l -> under hp vj l -> False).
Proof.
  intros Ht. revert st. induction es as [|[k0 v0] es IH]; intros st Hlen Hks Hrun.
  { simpl in Hrun. injection Hrun as <-. split_and!; [apply step_refl|done..]. }
  apply Forall_cons_1 in Hks as [Hk0 Hks]. simpl in Hk0.
  cbn [for_of] in Hrun. unfold mbind at 1, M_bind at 1 in Hrun.
  destruct (loop_body set_ t (k0, v0) st) as [u st1|e st1|] eqn:Eb; [|done..].
  destruct (loop_body_Return _ _ _ _ _ _ Eb) as [b Hset].
  pose proof (post_set_ t k0 v0 Ht st) as Hstep1. rewrite Hset in Hstep1.
  pose proof (visit_set_ t k0 v0 st b st1 Ht Hlen Hk0 Hset) as [Hv0 Hu0].
  assert (c < length (weaksets st1))%nat as Hlen1
    by (rewrite (step_length _ _ _ Hstep1); done).
  destruct (IH st1 Hlen1 Hks Hrun) as (Hstep2 & Hvis & Hdisj).
  split_and!.
  - by eapply step_trans.
  - intros [|i] k v Hi; simpl in Hi.
    + injection Hi as <- <-. split; [|done]. intros l Hl.
      destruct (Hv0 l Hl) as [Hout Hin]. split; [done|].
      by apply (step_W _ _ _ Hstep2).
    + destruct (Hvis i k v Hi) as [Hv Hu]. split; [|done]. intros l Hl.
      destruct (Hv l Hl) as [Hout Hin]. split; [|done].
      intros Hin0. apply Hout. by apply (step_W _ _ _ Hstep1).
  - intros [|i] [|j] ki vi kj vj l Hij Hi Hj Hui Huj; simpl in Hi, Hj; try lia.
    + injection Hi as <- <-.
      destruct (Hv0 l Hui) as [_ Hin].
      destruct (Hvis j kj vj Hj) as [Hv _]. destruct (Hv l Huj) as [Hout _]. done.
    + apply (Hdisj i j ki vi kj vj l); [lia|done..].
Qed.

(** A composite whose entries were all visited after the guard recorded
    it has been visited. *)
Lemma composite_visited l o st st1 st' :
  hp !! l = Some o ->
  l ∉ W st c -> l ∈ W st1 c -> W st c ⊆ W st1 c -> step c st1 st' ->
  (forall i k v, entries o !! i = Some (k, v) -> visited hp c v st1 st') ->
  (forall i j ki vi kj vj l', (i < j)%nat ->
     entries o !! i = Some (ki, vi) -> entries o !! j = Some (kj, vj) ->
     under hp vi l' -> under hp vj l' -> False) ->
  visited hp c (Ref l) st st'.
Proof.
  intros Hl Hout Hin Hsub Hstep Hvis Hdisj. split.
  - intros l' Hu.
    destruct (under_inv _ _ _ Hu) as [[[= <-] _]|(l0 & o0 & i & k & v' & [= <-] & Hl0 & He & Hu')].
    + split; [done|]. by apply (step_W _ _ _ Hstep).
    + rewrite Hl in Hl0. injection Hl0 as <-.
      destruct (Hvis i k v' He) as [Hv _]. destruct (Hv l' Hu') as [Ho Hi].
      split; [|done]. intros Hin0. apply Ho. by apply Hsub.
  - intros ks1 ks2 l' H1 H2 Hsome.
    destruct (reach_inv _ _ _ _ H1)
      as [[-> [= ->]]|(l1 & o1 & i & k1 & v1 & ks1' & [= <-] & -> & Hl1 & He1 & Hr1)];
    destruct (reach_inv _ _ _ _ H2)
      as [[-> E2]|(l2 & o2 & j & k2 & v2 & ks2' & [= <-] & -> & Hl2 & He2 & Hr2)];
    try done.
    + exfalso. rewrite Hl in Hl2. injection Hl2 as <-.
      destruct (Hvis j k2 v2 He2) as [Hv _].
      destruct (Hv l) as [Ho _]; [by exists ks2'|]. done.
    + exfalso. injection E2 as ->. rewrite Hl in Hl1. injection Hl1 as <-.
      destruct (Hvis i k1 v1 He1) as [Hv _].
      destruct (Hv l) as [Ho _]; [by exists ks1'|]. done.
    + rewrite Hl in Hl1, Hl2. injection Hl1 as <-. injection Hl2 as <-.
      destruct (Nat.lt_trichotomy i j) as [Hlt|[->|Hgt]].
      * exfalso. apply (Hdisj i j k1 v1 k2 v2 l' Hlt He1 He2); [by exists ks1'|by exists ks2'].
      * rewrite He1 in He2. injection He2 as <- <-.
        destruct (Hvis j k1 v1 He1) as [_ Hu]. f_equal. by eapply Hu.
      * exfalso. apply (Hdisj j i k2 v2 k1 v1 l' Hgt He2 He1); [by exists ks2'|by exists ks1'].
Qed.
End Visit.

Lemma W_set_rows st rs c :
  W {| DATABASE := {| rows := rs; transaction := transaction (DATABASE st) |};
       weaksets := weaksets st |} c = W st c.
Proof. done. Qed.

Lemma insert_run_Return path v st u st' :
  insert_run path v st = Return u st' ->
  weaksets st' = weaksets st /\
  transaction (DATABASE st') = transaction (DATABASE st) /\
  rows (DATABASE st') = rows_insert path v (rows (DATABASE st)) /\
  has_path (rows (DATABASE st)) path = false.
Proof.
  unfold insert_run, mbind, M_bind, get_rows.
  destruct (has_path (rows (DATABASE st)) path) eqn:E; [done|].
  unfold set_rows. by intros [= _ <-].
Qed.

Section Composite.
Variable rev : revision.
Variable H : host.
Variable hp : heap.
Variable set_ : Inner -> jsstring -> Value -> M bool.

(** A nested composite write that returns found the composite outside
    the [WeakSet], added it, inserted the marker and ran the loop. *)
Lemma define_composite_nested_Return c target desc prefix encoded l o st u st' :
  CYCLES target = Some c -> (c < length (weaksets st))%nat ->
  define_composite rev set_ target desc prefix encoded l o st = Return u st' ->
  (l ∉ W st c) /\
  exists st1,
    W st1 c = {[ l ]} ∪ W st c /\
    length (weaksets st1) = length (weaksets st) /\
    transaction (DATABASE st1) = transaction (DATABASE st) /\
    rows (DATABASE st1) = rows_insert encoded (marker rev (type o)) (rows (DATABASE st)) /\
    for_of (entries o) (loop_body set_ (child o prefix c)) st1 = Return u st'.
Proof.
  intros Hc Hlen. unfold define_composite. rewrite Hc.
  unfold mbind at 1, M_bind at 1. rewrite guard_cycles_Some.
  case_bool_decide as Hseen; [done|].
  destruct (invalid_descriptor desc); [done|].
  unfold mbind at 1, M_bind at 1.
  set (st0 := {| DATABASE := DATABASE st; weaksets := _ |}).
  destruct (insert_run encoded (marker rev (type o)) st0) as [[] st1|e st1|] eqn:Ei; [|done..].
  intros Hloop. split; [done|]. exists st1.
  apply insert_run_Return in Ei as (Hws & Htx & Hrows & _).
  split_and!; [| |done|done|done].
  - unfold W. rewrite Hws. fold (W st0 c). unfold st0.
    rewrite W_add. by rewrite decide_True.
  - rewrite Hws. apply length_alter.
Qed.

(** The same for the outermost write, which allocates the [WeakSet]. *)
Lemma define_composite_outermost_Return target desc prefix encoded l o st u st' :
  CYCLES target = None ->
  define_composite rev set_ target desc prefix encoded l o st = Return u st' ->
  exists st1,
    W st1 (length (weaksets st)) = {[ l ]} /\
    length (weaksets st1) = S (length (weaksets st)) /\
    transaction (DATABASE st1) = transaction (DATABASE st) /\
    rows (DATABASE st1) = rows_insert encoded (marker rev (type o)) (rows (DATABASE st)) /\
    for_of (entries o) (loop_body set_ (child o prefix (length (weaksets st)))) st1
      = Return u st'.
Proof.
  intros Hc. unfold define_composite. rewrite Hc. simpl.
  unfold mbind at 1, M_bind at 1. unfold new_WeakSet.
  destruct (invalid_descriptor desc); [done|].
  unfold mbind at 1, M_bind at 1.
  set (st0 := {| DATABASE := DATABASE st; weaksets := _ |}).
  destruct (insert_run encoded (marker rev (type o)) st0) as [[] st1|e st1|] eqn:Ei; [|done..].
  intros Hloop. exists st1.
  apply insert_run_Return in Ei as (Hws & Htx & Hrows & _).
  split_and!; [| |done|done|done].
  - unfold W. rewrite Hws. fold (W st0 (length (weaksets st))). apply W_new_WeakSet.
  - rewrite Hws. unfold st0. simpl. rewrite length_app. simpl. lia.
Qed.

(** A nested [defineProperty] of a composite that returns ran
    [define_composite]. *)
Lemma defineProperty_body_nested_Return c target p desc l o st b st' :
  CYCLES target = Some c -> is_length target p = false ->
  composite hp (value desc) = Some (l, o) ->
  defineProperty_body rev H hp set_ target (PString p) desc st = Return b st' ->
  exists encoded,
    encodePath (PREFIX target ++ [key p]) = Ok encoded /\
    define_composite rev set_ target desc (PREFIX target ++ [key p]) encoded l o st
      = Return tt st'.
Proof.
  intros Hc Hlen Hcomp. pose proof (composite_Some _ _ _ _ Hcomp) as [Hv _].
  unfold defineProperty_body. rewrite Hv.
  unfold mbind at 1, M_bind at 1.
  destruct (encodePath (PREFIX target ++ [key p])) as [encoded|e]; simpl; [|done].
  rewrite Hc, bool_decide_eq_false_2 by done. simpl.
  unfold mbind at 1, M_bind at 1. unfold try_catch_rethrow.
  unfold define_try. rewrite Hc, bool_decide_eq_false_2 by done. simpl.
  unfold mbind at 2, M_bind at 2. simpl. rewrite Hlen.
  rewrite Hcomp. cbv [mbind M_bind mret M_ret].
  destruct (define_composite _ _ _ _ _ _ _ _ st) as [[] st1|e st1|] eqn:Ed; [|done..].
  intros [= _ <-]. by exists encoded.
Qed.

Lemma define_try_outermost_composite target p desc prefix encoded l o st :
  CYCLES target = None -> transaction (DATABASE st) = None ->
  is_length target p = false ->
  composite hp (value desc) = Some (l, o) ->
  define_try rev H hp set_ target p desc prefix encoded st =
  define_composite rev set_ target desc prefix encoded l o
    {| DATABASE :=
         {| rows := deleteRange (rows (DATABASE st)) encoded (increment rev encoded);
            transaction := Some (rows (DATABASE st)) |};
       weaksets := weaksets st |}.
Proof.
  intros Hc Hidle Hlen Hcomp. unfold define_try.
  rewrite Hc, bool_decide_eq_true_2, Hlen, Hcomp by done.
  unfold when. unfold mbind at 1, M_bind at 1. unfold mbind at 1, M_bind at 1.
  by rewrite (BEGIN_idle st Hidle).
Qed.

(** An outermost [defineProperty] of a composite that returns opened the
    transaction, cleared the range, ran [define_composite] and
    committed. *)
Lemma defineProperty_body_outermost_Return target p desc l o st b st' :
  CYCLES target = None -> transaction (DATABASE st) = None ->
  is_length target p = false ->
  composite hp (value desc) = Some (l, o) ->
  defineProperty_body rev H hp set_ target (PString p) desc st = Return b st' ->
  exists encoded st1,
    encodePath (PREFIX target ++ [key p]) = Ok encoded /\
    define_composite rev set_ target desc (PREFIX target ++ [key p]) encoded l o
      {| DATABASE :=
           {| rows := deleteRange (rows (DATABASE st)) encoded (increment rev encoded);
              transaction := Some (rows (DATABASE st)) |};
         weaksets := weaksets st |}
      = Return tt st1 /\
    COMMIT st1 = Return tt st'.
Proof.
  intros Hc Hidle Hlen Hcomp. pose proof (composite_Some _ _ _ _ Hcomp) as [Hv _].
  unfold defineProperty_body. rewrite Hv.
  unfold mbind at 1, M_bind at 1.
  destruct (encodePath (PREFIX target ++ [key p])) as [encoded|e]; simpl; [|done].
  rewrite Hc, bool_decide_eq_true_2 by done. unfold when.
  unfold mbind at 1, M_bind at 1. unfold try_catch_rethrow.
  rewrite (define_try_outermost_composite _ _ _ _ _ l o) by done.
  destruct (define_composite _ _ _ _ _ _ _ _ _) as [[] st1|e st1|] eqn:Ed; [| |done].
  - unfold mbind, M_bind.
    destruct (COMMIT st1) as [[] st2|e st2|] eqn:Ecm; [|done..].
    intros [= _ <-]. by exists encoded, st1.
  - by destruct (ROLLBACK st1).
Qed.
End Composite.

Lemma wf_heap_is_length hp l o prefix c :
  wf_heap hp -> hp !! l = Some o ->
  Forall (fun e : jsstring * Value => is_length (child o prefix c) e.1 = false) (entries o).
Proof.
  intros Hwf Hl. unfold is_length, child. simpl.
  destruct (decide (type o = array)) as [Harr|Hrec].
  - specialize (Hwf l o Hl Harr). eapply Forall_impl; [exact Hwf|].
    intros [k v] Hk. simpl in *. rewrite (bool_decide_eq_false_2 (k = js "length")) by done.
    apply andb_false_r.
  - apply Forall_forall. intros [k v] _. simpl.
    by rewrite (bool_decide_eq_false_2 (type o = array)).
Qed.

Section VisitBody.
Variable rev : revision.
Variable H : host.
Variable hp : heap.
Variable set_ : Inner -> jsstring -> Value -> M bool.
Hypothesis wf : wf_heap hp.
Hypothesis post_set_ :
  forall c t k v, CYCLES t = Some c -> post (set_ t k v) (step c).
Hypothesis visit_set_ :
  forall c t k v st b st',
    CYCLES t = Some c -> (c < length (weaksets st))%nat -> is_length t k = false ->
    set_ t k v st = Return b st' -> visited hp c v st st'.

Lemma defineProperty_body_visited c target p desc st b st' :
  CYCLES target = Some c -> (c < length (weaksets st))%nat ->
  is_length target p = false ->
  defineProperty_body rev H hp set_ target (PString p) desc st = Return b st' ->
  visited hp c (value desc) st st'.
Proof.
  intros Hc Hlen Hnl Hrun.
  destruct (composite hp (value desc)) as [[l o]|] eqn:Ecomp;
    [|by apply visited_not_composite].
  destruct (composite_Some _ _ _ _ Ecomp) as [Hv Hl]. rewrite Hv.
  destruct (defineProperty_body_nested_Return _ _ _ _ _ _ _ _ _ _ _ _ _ Hc Hnl Ecomp Hrun)
    as (encoded & _ & Hdef).
  destruct (define_composite_nested_Return _ _ _ _ _ _ _ _ _ _ _ _ Hc Hlen Hdef)
    as (Hout & st1 & HW1 & Hlen1 & _ & _ & Hloop).
  assert (c < length (weaksets st1))%nat as Hc1 by lia.
  destruct (for_of_visited hp set_ c (post_set_ c) (visit_set_ c)
              (child o (PREFIX target ++ [key p]) c) (entries o) st1 st'
              eq_refl Hc1 (wf_heap_is_length _ _ _ _ _ wf Hl) Hloop)
    as (Hstep & Hvis & Hdisj).
  apply (composite_visited hp c l o st st1 st'); try done.
  - rewrite HW1. set_solver.
  - rewrite HW1. set_solver.
Qed.

Lemma defineProperty_body_unshared target p desc st b st' :
  CYCLES target = None -> transaction (DATABASE st) = None ->
  is_length target p = false ->
  defineProperty_body rev H hp set_ target (PString p) desc st = Return b st' ->
  unshared hp (value desc).
Proof.
  intros Hc Hidle Hnl Hrun.
  destruct (composite hp (value desc)) as [[l o]|] eqn:Ecomp.
  2:{ by destruct (visited_not_composite hp 0 (value desc) st st' Ecomp). }
  destruct (composite_Some _ _ _ _ Ecomp) as [Hv Hl]. rewrite Hv.
  destruct (defineProperty_body_outermost_Return _ _ _ _ _ _ _ _ _ _ _ _ Hc Hidle Hnl Ecomp Hrun)
    as (encoded & st1 & _ & Hdef & _).
  set (st0 := {| DATABASE := _; weaksets := weaksets st |}) in Hdef.
  destruct (define_composite_outermost_Return _ _ _ _ _ _ _ _ _ _ _ Hc Hdef)
    as (st2 & HW2 & Hlen2 & _ & _ & Hloop).
  set (c := length (weaksets st0)) in *.
  assert (c < length (weaksets st2))%nat as Hc2 by lia.
  destruct (for_of_visited hp set_ c (post_set_ c) (visit_set_ c)
              (child o (PREFIX target ++ [key p]) c) (entries o) st2 st1
              eq_refl Hc2 (wf_heap_is_length _ _ _ _ _ wf Hl) Hloop)
    as (Hstep & Hvis & Hdisj).
  assert (visited hp c (Ref l) st0 st1) as [_ Hu]; [|done].
  apply (composite_visited hp c l o st0 st2 st1); try done.
  - rewrite W_out_of_range; [set_solver|]. unfold c. lia.
  - rewrite HW2. set_solver.
  - rewrite W_out_of_range; [set_solver|]. unfold c. lia.
Qed.
End VisitBody.

Lemma defineProperty_S rev H hp fuel target prop desc :
  defineProperty rev H hp (S fuel) target prop desc =
  defineProperty_body rev H hp
    (fun t k v => defineProperty rev H hp fuel t (PString k) (set_descriptor t k v))
    target prop desc.
Proof. reflexivity. Qed.

(** A nested write that returns has visited the value it wrote. *)
Lemma defineProperty_nested_visited rev H hp fuel c t k v st b st' :
  wf_heap hp ->
  CYCLES t = Some c -> (c < length (weaksets st))%nat -> is_length t k = false ->
  defineProperty rev H hp fuel t (PString k) (set_descriptor t k v) st = Return b st' ->
  visited hp c v st st'.
Proof.
  intros wf. revert c t k v st b st'.
  induction fuel as [|fuel IH]; intros c t k v st b st' Hc Hlen Hnl Hrun; [done|].
  rewrite defineProperty_S in Hrun.
  replace v with (value (set_descriptor t k v)) by (unfold set_descriptor; by rewrite Hnl).
  eapply (defineProperty_body_visited rev H hp _ wf); [| |done..].
  - intros c0 t0 k0 v0 Ht0. by apply post_defineProperty_nested.
  - intros c0 t0 k0 v0 st0 b0 st0' Ht0 Hl0 Hn0 Hr0. by eapply IH.
Qed.

(** An outermost [defineProperty] returns only for a value in which no
    composite is at two positions. *)
Lemma defineProperty_Return_unshared rev H hp fuel target p desc st b st' :
  wf_heap hp ->
  CYCLES target = None -> transaction (DATABASE st) = None ->
  is_length target p = false ->
  defineProperty rev H hp fuel target (PString p) desc st = Return b st' ->
  unshared hp (value desc).
Proof.
  intros wf Hc Hidle Hnl Hrun. destruct fuel as [|fuel]; [done|].
  rewrite defineProperty_S in Hrun.
  eapply (defineProperty_body_unshared rev H hp _ wf); [| |done..].
  - intros c0 t0 k0 v0 Ht0. by apply post_defineProperty_nested.
  - intros c0 t0 k0 v0 st0 b0 st0' Ht0 Hl0 Hn0 Hr0. cbv beta in Hr0.
    by eapply defineProperty_nested_visited.
Qed.

(** ** The write does not read a composite that is in the [WeakSet] *)

Lemma agree_mono hp hp' (X Y : gset loc) : X ⊆ Y -> agree hp hp' X -> agree hp hp' Y.
Proof. intros HXY [H1 H2]. split; [|done]. intros l Hl. apply H1. set_solver. Qed.

Lemma define_composite_seen rev set_ c target desc prefix encoded l o st :
  CYCLES target = Some c -> l ∈ W st c ->
  define_composite rev set_ target desc prefix encoded l o st =
  Raise (ReferenceError "Cyclic object") st.
Proof.
  intros Hc Hin. unfold define_composite. rewrite Hc.
  unfold mbind at 1, M_bind at 1. rewrite guard_cycles_Some.
  by rewrite bool_decide_eq_true_2.
Qed.

Lemma for_of_cons {A} (x : A) xs body st :
  for_of (x :: xs) body st =
  match body x st with
  | Return _ st1 => for_of xs body st1
  | Raise e st1 => Raise e st1
  | OutOfFuel => OutOfFuel
  end.
Proof. reflexivity. Qed.

Lemma loop_body_eq set_ t k v st :
  loop_body set_ t (k, v) st =
  match set_ t k v st with
  | Return _ st1 => Return tt st1
  | Raise e st1 => Raise e st1
  | OutOfFuel => OutOfFuel
  end.
Proof. reflexivity. Qed.

Lemma bind_eq {A B} (m : M A) (k : A -> M B) st :
  (m ≫= k) st =
  match m st with
  | Return a st1 => k a st1
  | Raise e st1 => Raise e st1
  | OutOfFuel => OutOfFuel
  end.
Proof. reflexivity. Qed.

Section Agree.
Variable rev : revision.
Variable H : host.
Variables hp hp' : heap.
Variables set1 set2 : Inner -> jsstring -> Value -> M bool.
Variable c : nat.
Hypothesis post_set1 :
  forall t k v, CYCLES t = Some c -> post (set1 t k v) (step c).
Hypothesis agree_set :
  forall t k v st,
    CYCLES t = Some c -> (c < length (weaksets st))%nat -> agree hp hp' (W st c) ->
    set1 t k v st = set2 t k v st.

Lemma for_of_agree t es st :
  CYCLES t = Some c -> (c < length (weaksets st))%nat -> agree hp hp' (W st c) ->
  for_of es (loop_body set1 t) st = for_of es (loop_body set2 t) st.
Proof.
  intros Ht. revert st. induction es as [|[k v] es IH]; intros st Hlen Hag; [done|].
  rewrite !for_of_cons, !loop_body_eq.
  rewrite <- (agree_set t k v st Ht Hlen Hag).
  pose proof (post_set1 t k v Ht st) as Hstep.
  destruct (set1 t k v st) as [b st1|e st1|]; [|done..]. simpl.
  apply IH.
  - by rewrite (step_length _ _ _ Hstep).
  - eapply agree_mono; [|exact Hag]. apply (step_W _ _ _ Hstep).
Qed.

Lemma define_composite_agree target desc prefix encoded l o st :
  CYCLES target = Some c -> (c < length (weaksets st))%nat -> agree hp hp' (W st c) ->
  define_composite rev set1 target desc prefix encoded l o st =
  define_composite rev set2 target desc prefix encoded l o st.
Proof.
  intros Hc Hlen Hag. unfold define_composite. rewrite Hc.
  rewrite !bind_eq, guard_cycles_Some.
  case_bool_decide as Hseen; [done|].
  destruct (invalid_descriptor desc); [done|].
  rewrite !bind_eq.
  set (st0 := {| DATABASE := DATABASE st; weaksets := _ |}).
  destruct (insert_run encoded (marker rev (type o)) st0) as [[] st1|e st1|] eqn:Ei; [|done..].
  apply insert_run_Return in Ei as (Hws & _).
  apply (for_of_agree (child o prefix c)); [done| |].
  - rewrite Hws. unfold st0. simpl. by rewrite length_alter.
  - assert (W st1 c = {[ l ]} ∪ W st c) as ->.
    { unfold W. rewrite Hws. fold (W st0 c). unfold st0. rewrite W_add.
      by rewrite decide_True. }
    eapply agree_mono; [|exact Hag]. set_solver.
Qed.

Lemma define_try_agree target p desc prefix encoded st :
  CYCLES target = Some c -> (c < length (weaksets st))%nat -> agree hp hp' (W st c) ->
  define_try rev H hp set1 target p desc prefix encoded st =
  define_try rev H hp' set2 target p desc prefix encoded st.
Proof.
  intros Hc Hlen Hag. unfold define_try. rewrite Hc, bool_decide_eq_false_2 by done.
  simpl. unfold mbind, M_bind. simpl.
  destruct (is_length target p); [done|].
  destruct (value desc) as [| |l|] eqn:Ev; simpl; try done.
  destruct (decide (l ∈ W st c)) as [Hin|Hout].
  - destruct Hag as [_ Hsome]. specialize (Hsome l).
    destruct (hp !! l) as [o|], (hp' !! l) as [o'|]; simpl.
    + by rewrite !(define_composite_seen _ _ c).
    + exfalso. by apply (is_Some_None (A:=object)), Hsome.
    + exfalso. by apply (is_Some_None (A:=object)), Hsome.
    + done.
  - destruct Hag as [Hsame Hsome]. rewrite <- (Hsame l Hout).
    destruct (hp !! l) as [o|]; simpl; [|done].
    apply define_composite_agree; [done..|]. by split.
Qed.

Lemma defineProperty_body_agree target prop desc st :
  CYCLES target = Some c -> (c < length (weaksets st))%nat -> agree hp hp' (W st c) ->
  defineProperty_body rev H hp set1 target prop desc st =
  defineProperty_body rev H hp' set2 target prop desc st.
Proof.
  intros Hc Hlen Hag. unfold defineProperty_body.
  destruct prop as [p|]; [|done].
  assert ((encoded ← lift (encodePath (PREFIX target ++ [key p]));
           _ ← try_catch_rethrow
                 (define_try rev H hp set1 target p desc (PREFIX target ++ [key p]) encoded)
                 (when (bool_decide (CYCLES target = None)) ROLLBACK);
           _ ← when (bool_decide (CYCLES target = None)) COMMIT;
           mret true) st =
          (encoded ← lift (encodePath (PREFIX target ++ [key p]));
           _ ← try_catch_rethrow
                 (define_try rev H hp' set2 target p desc (PREFIX target ++ [key p]) encoded)
                 (when (bool_decide (CYCLES target = None)) ROLLBACK);
           _ ← when (bool_decide (CYCLES target = None)) COMMIT;
           mret true) st) as Hmain.
  { rewrite !bind_eq.
    destruct (encodePath (PREFIX target ++ [key p])) as [encoded|e]; simpl; [|done].
    rewrite !bind_eq. unfold try_catch_rethrow.
    by rewrite (define_try_agree target p desc _ encoded st Hc Hlen Hag). }
  by destruct (value desc).
Qed.
End Agree.

(** Nested writes on two heaps that differ only at composites already in
    the [WeakSet] are the same. *)
Lemma defineProperty_nested_agree rev H hp hp' fuel c target prop desc st :
  CYCLES target = Some c -> (c < length (weaksets st))%nat -> agree hp hp' (W st c) ->
  defineProperty rev H hp fuel target prop desc st =
  defineProperty rev H hp' fuel target prop desc st.
Proof.
  revert target prop desc st.
  induction fuel as [|fuel IH]; intros target prop desc st Hc Hlen Hag; [done|].
  rewrite !defineProperty_S.
  apply (defineProperty_body_agree rev H hp hp' _ _ c); try done.
  - intros t k v Ht. by apply post_defineProperty_nested.
  - intros t k v st0 Ht Hl0 Hag0. by apply IH.
Qed.

Lemma for_of_app {A} (xs ys : list A) body st :
  for_of (xs ++ ys) body st =
  match for_of xs body st with
  | Return _ st1 => for_of ys body st1
  | Raise e st1 => Raise e st1
  | OutOfFuel => OutOfFuel
  end.
Proof.
  revert st. induction xs as [|x xs IH]; intros st; [done|].
  simpl app. rewrite !for_of_cons. destruct (body x st); [apply IH|done..].
Qed.

Lemma for_of_Return_total {A} (xs : list A) body st u st' x :
  for_of xs body st = Return u st' -> In x xs -> exists st0, body x st0 <> OutOfFuel.
Proof.
  revert st. induction xs as [|y xs IH]; intros st Hrun Hin; [done|].
  rewrite for_of_cons in Hrun.
  destruct (body y st) as [a st1|e st1|] eqn:Eb; [|done..].
  destruct Hin as [->|Hin]; [exists st; congruence|by eapply IH].
Qed.

Section SharedChild.
Variable rev : revision.
Variable H : host.
Variable hp : heap.
Variable set_ : Inner -> jsstring -> Value -> M bool.

(** A nested [defineProperty] of a composite that is in the [WeakSet]
    throws the cycle error. *)
Lemma defineProperty_body_nested_seen c target p desc encoded l o st :
  CYCLES target = Some c -> is_length target p = false ->
  value desc = Ref l -> hp !! l = Some o -> l ∈ W st c ->
  encodePath (PREFIX target ++ [key p]) = Ok encoded ->
  defineProperty_body rev H hp set_ target (PString p) desc st =
  Raise (ReferenceError "Cyclic object") st.
Proof.
  intros Hc Hnl Hv Hl Hin Henc. unfold defineProperty_body. rewrite Hv.
  rewrite bind_eq, Henc. simpl. rewrite bind_eq. unfold try_catch_rethrow.
  unfold define_try. rewrite Hc, bool_decide_eq_false_2 by done. simpl.
  rewrite bind_eq. simpl. rewrite Hnl, Hv. simpl. rewrite Hl. simpl.
  by rewrite (define_composite_seen _ _ c).
Qed.

(** The outermost [defineProperty] of a composite, in terms of the
    composite write. *)
Lemma defineProperty_body_outermost target p desc encoded l o st :
  CYCLES target = None -> transaction (DATABASE st) = None ->
  is_length target p = false ->
  composite hp (value desc) = Some (l, o) ->
  encodePath (PREFIX target ++ [key p]) = Ok encoded ->
  defineProperty_body rev H hp set_ target (PString p) desc st =
  match
    define_composite rev set_ target desc (PREFIX target ++ [key p]) encoded l o
      {| DATABASE :=
           {| rows := deleteRange (rows (DATABASE st)) encoded (increment rev encoded);
              transaction := Some (rows (DATABASE st)) |};
         weaksets := weaksets st |}
  with
  | Return _ st1 => (_ ← COMMIT; mret true) st1
  | Raise e st1 =>
      match ROLLBACK st1 with
      | Return _ st2 => Raise e st2
      | Raise e' st2 => Raise e' st2
      | OutOfFuel => OutOfFuel
      end
  | OutOfFuel => OutOfFuel
  end.
Proof.
  intros Hc Hidle Hnl Hcomp Henc. pose proof (composite_Some _ _ _ _ Hcomp) as [Hv _].
  unfold defineProperty_body. rewrite Hv, bind_eq, Henc. simpl.
  rewrite Hc, bool_decide_eq_true_2 by done. unfold when.
  rewrite bind_eq. unfold try_catch_rethrow.
  rewrite (define_try_outermost_composite _ _ _ _ _ _ _ _ _ l o) by done.
  destruct (define_composite _ _ _ _ _ _ _ _ _) as [a st1|e st1|]; [done| |done].
  by destruct (ROLLBACK st1).
Qed.

(** The outermost composite write, in terms of the loop. *)
Lemma define_composite_outermost target desc prefix encoded l o st :
  CYCLES target = None ->
  define_composite rev set_ target desc prefix encoded l o st =
  if invalid_descriptor desc
  then Raise (TypeError "Invalid property descriptor")
         {| DATABASE := DATABASE st; weaksets := weaksets st ++ [{[ l ]}] |}
  else
    match insert_run encoded (marker rev (type o))
            {| DATABASE := DATABASE st; weaksets := weaksets st ++ [{[ l ]}] |} with
    | Return _ st1 =>
        for_of (entries o) (loop_body set_ (child o prefix (length (weaksets st)))) st1
    | Raise e st1 => Raise e st1
    | OutOfFuel => OutOfFuel
    end.
Proof.
  intros Hc. unfold define_composite. rewrite Hc. simpl.
  rewrite bind_eq. unfold new_WeakSet.
  destruct (invalid_descriptor desc); [done|]. by rewrite bind_eq.
Qed.
End SharedChild.

Lemma agree_insert (hp : heap) r o1 (X : gset loc) :
  is_Some (hp !! r) -> r ∈ X -> agree hp (<[r := o1]> hp) X.
Proof.
  intros Hr Hin. split.
  - intros l Hl. rewrite lookup_insert_ne; [done|]. set_solver.
  - intros l. destruct (decide (l = r)) as [->|Hne].
    + rewrite lookup_insert_eq. split; eauto.
    + by rewrite lookup_insert_ne.
Qed.

(** When a composite is the value of two entries of the object written
    by an outermost [defineProperty] and the entries before the second
    one are written without error, the write throws the cycle error and
    is rolled back. *)
Lemma shared_child_cycle_error rev H hp fuel target p desc r o es1 kx ky a es2 ency b st st1 :
  wf_heap hp ->
  CYCLES target = None -> transaction (DATABASE st) = None ->
  is_length target p = false ->
  value desc = Ref r -> hp !! r = Some o ->
  entries o = es1 ++ (ky, Ref a) :: es2 -> In (kx, Ref a) es1 ->
  is_Some (hp !! a) ->
  encodePath ((PREFIX target ++ [key p]) ++ [key ky]) = Ok ency ->
  defineProperty rev H (<[r := {| type := type o; entries := es1 |}]> hp) fuel
    target (PString p) desc st = Return b st1 ->
  exists st',
    defineProperty rev H hp fuel target (PString p) desc st
      = Raise (ReferenceError "Cyclic object") st' /\
    rows (DATABASE st') = rows (DATABASE st) /\
    transaction (DATABASE st') = None.
Proof.
  intros wf Hc Hidle Hnl Hv Hr Hes Hx [oa Ha] Hency Hrun1.
  set (o1 := {| type := type o; entries := es1 |}) in *.
  set (hp1 := <[r := o1]> hp) in *.
  destruct fuel as [|fuel]; [done|].
  rewrite defineProperty_S in Hrun1. rewrite defineProperty_S.
  set (set1 := fun t k v => defineProperty rev H hp1 fuel t (PString k) (set_descriptor t k v)) in *.
  set (set0 := fun t k v => defineProperty rev H hp fuel t (PString k) (set_descriptor t k v)).
  assert (composite hp1 (value desc) = Some (r, o1)) as Hcomp1.
  { rewrite Hv. simpl. unfold hp1. by rewrite lookup_insert_eq. }
  assert (composite hp (value desc) = Some (r, o)) as Hcomp0.
  { rewrite Hv. simpl. by rewrite Hr. }
  destruct (encodePath (PREFIX target ++ [key p])) as [encoded|e] eqn:Henc.
  2:{ unfold defineProperty_body in Hrun1. rewrite Hv, bind_eq, Henc in Hrun1. done. }
  rewrite (defineProperty_body_outermost _ _ _ _ _ _ _ encoded r o1) in Hrun1 by done.
  rewrite (defineProperty_body_outermost _ _ _ _ _ _ _ encoded r o) by done.
  set (st0 := {| DATABASE := _; weaksets := weaksets st |}) in *.
  rewrite define_composite_outermost in Hrun1 by done.
  rewrite define_composite_outermost by done.
  destruct (invalid_descriptor desc).
  { simpl in Hrun1. unfold ROLLBACK in Hrun1. simpl in Hrun1. done. }
  change (type o1) with (type o) in Hrun1.
  set (sta := {| DATABASE := DATABASE st0; weaksets := _ |}) in *.
  set (c := length (weaksets st0)) in *.
  set (t := child o (PREFIX target ++ [key p]) c).
  destruct (insert_run encoded (marker rev (type o)) sta) as [[] st2|e st2|] eqn:Eins.
  2:{ by destruct (ROLLBACK st2). }
  2:{ done. }
  apply insert_run_Return in Eins as (Hws2 & Htx2 & _ & _).
  assert (W st2 c = {[ r ]}) as HW2.
  { unfold W. rewrite Hws2. fold (W sta c). apply W_new_WeakSet. }
  assert (c < length (weaksets st2))%nat as Hlen2.
  { rewrite Hws2. unfold sta, c. simpl. rewrite length_app. simpl. lia. }
  assert (transaction (DATABASE st2) = Some (rows (DATABASE st))) as Htx2' by (by rewrite Htx2).
  change (child o1 (PREFIX target ++ [key p]) c) with t in Hrun1.
  change (entries o1) with es1 in Hrun1.
  (* the loop over the entries before the second occurrence *)
  destruct (for_of es1 (loop_body set1 t) st2) as [[] st3|e st3|] eqn:Eloop1.
  2:{ by destruct (ROLLBACK st3). }
  2:{ done. }
  assert (for_of es1 (loop_body set0 t) st2 = Return tt st3) as Eloop0.
  { rewrite <- Eloop1.
    apply (for_of_agree hp hp1 set0 set1 c); [| |done|done|].
    - intros t' k v Ht'. by apply post_defineProperty_nested.
    - intros t' k v st' Ht' Hl' Hag'. by apply (defineProperty_nested_agree _ _ _ _ _ c).
    - rewrite HW2. apply agree_insert; [eauto|set_solver]. }
  rewrite Hes, for_of_app, Eloop0, for_of_cons, loop_body_eq.
  pose proof (wf_heap_is_length hp r o (PREFIX target ++ [key p]) c wf Hr) as Hkeys.
  rewrite Hes in Hkeys. apply Forall_app in Hkeys as [Hkeys1 Hkeys2].
  apply Forall_cons_1 in Hkeys2 as [Hky _]. simpl in Hky. fold t in Hky, Hkeys1.
  assert (forall t' k v, CYCLES t' = Some c -> post (set0 t' k v) (step c)) as Hpost.
  { intros t' k v Ht'. by apply post_defineProperty_nested. }
  assert (forall t' k v st' b' st'',
            CYCLES t' = Some c -> (c < length (weaksets st'))%nat ->
            is_length t' k = false -> set0 t' k v st' = Return b' st'' ->
            visited hp c v st' st'') as Hvisit.
  { intros t' k v st' b' st'' Ht' Hl' Hn' Hr'. by eapply defineProperty_nested_visited. }
  pose proof (for_of_visited hp set0 c Hpost Hvisit t es1 st2 st3 eq_refl Hlen2 Hkeys1 Eloop0)
    as (Hstep & Hvis & _).
  assert (a ∈ W st3 c) as Hseen.
  { apply list_elem_of_In, list_elem_of_lookup in Hx as [i Hi].
    destruct (Hvis i kx (Ref a) Hi) as [Hv' _].
    destruct (Hv' a) as [_ Hin]; [|done].
    exists []. split; [constructor|eauto]. }
  assert (exists f, fuel = S f) as [f ->].
  { destruct fuel as [|f]; [|by exists f]. exfalso.
    destruct (for_of_Return_total _ _ _ _ _ _ Eloop1 Hx) as [st' Hst'].
    by rewrite loop_body_eq in Hst'. }
  unfold set0 at 1. rewrite defineProperty_S.
  rewrite (defineProperty_body_nested_seen rev H hp _ c t ky _ ency a oa); try done.
  - rewrite (ROLLBACK_open st3 (rows (DATABASE st))).
    + eexists. split; [reflexivity|]. done.
    + rewrite (step_transaction _ _ _ Hstep). done.
  - unfold set_descriptor. by rewrite Hky.
Qed.

Lemma set_descriptor_value target prop v : value (set_descriptor target prop v) = v.
Proof. unfold set_descriptor. by destruct (is_length target prop). Qed.


Lemma example_heap_shared_wf : wf_heap example_heap_shared.
Proof.
  intros l o Hl Harr. unfold example_heap_shared in Hl.
  destruct (decide (l = 1%positive)) as [->|?]; [by simplify_map_eq|].
  destruct (decide (l = 2%positive)) as [->|?]; by simplify_map_eq.
Defined.



(** ** Presence of a key *)

(** C8 (amended): for a handle [(P, K)] and a string key [k] other than
    ["length"] on an array handle, [has] returns [true] if and only if a
    row exists at [encode(P ++ normalize(k))] and its value decodes, or
    no such row exists, the handle is an array handle and [k] is a
    property of [Array.prototype]; it returns [false] if and only if no
    such row exists and the handle is a record handle or [k] is not a
    property of [Array.prototype].  So on a record handle no key without
    a stored row reports present. *)
Theorem C8_has (rev : revision) (H : host) (rs : list row) (target : Inner)
    (prop : jsstring) (encoded : bytes) :
  is_length target prop = false ->
  encodePath (PREFIX target ++ [key prop]) = Ok encoded ->
  (has rev H rs target prop = Ok true <->
     (exists v s, selectOne rs encoded = Some v /\
        instanciate rev H v target (PREFIX target ++ [key prop]) = Ok s) \/
     (has_path rs encoded = false /\ PROTOTYPE target = array /\
        ArrayPrototypeHas H prop = true)) /\
  (has rev H rs target prop = Ok false <->
     has_path rs encoded = false /\
     (PROTOTYPE target = record \/ ArrayPrototypeHas H prop = false)) /\
  (PROTOTYPE target = record ->
     has rev H rs target prop = Ok true -> has_path rs encoded = true).
Proof.
  intros Hnl Henc. unfold has, getOwnPropertyDescriptor. rewrite Hnl, Henc.
  cbn [mbind result_bind].
  destruct (selectOne rs encoded) as [v|] eqn:Esel.
  - assert (has_path rs encoded = true) as Hhas.
    { apply has_path_In. exists v. by apply selectOne_Some. }
    destruct (instanciate rev H v target (PREFIX target ++ [key prop])) as [s|e] eqn:Einst;
      cbn [mbind result_bind].
    + split_and!; [split; [left; by exists v, s|done]
                  |split; [done|intros [? _]; congruence]|done].
    + split_and!.
      * split; [done|]. intros [(v' & s & [= <-] & ?)|(? & _)]; congruence.
      * split; [done|]. intros [? _]. congruence.
      * done.
  - apply selectOne_None in Esel. cbn [mbind result_bind].
    destruct (PROTOTYPE target) eqn:Eproto.
    + split_and!.
      * split; [done|]. intros [(v' & s & ? & ?)|(_ & ? & _)]; done.
      * split; [auto|done].
      * done.
    + split_and!.
      * split; [intros [= ->]; auto|].
        intros [(v' & s & ? & ?)|(_ & _ & ->)]; done.
      * split; [intros [= ->]; auto|]. intros [_ [?| ->]]; done.
      * done.
Qed.

Lemma C8_has_witness :
  (has proxy_ts node example_rows table (js "a") = Ok true <->
     (exists v s, selectOne example_rows [1; 0; 97; 255; 254] = Some v /\
        instanciate proxy_ts node v table (PREFIX table ++ [key (js "a")]) = Ok s) \/
     (has_path example_rows [1; 0; 97; 255; 254] = false /\ PROTOTYPE table = array /\
        ArrayPrototypeHas node (js "a") = true)) /\
  (has proxy_ts node example_rows table (js "a") = Ok false <->
     has_path example_rows [1; 0; 97; 255; 254] = false /\
     (PROTOTYPE table = record \/ ArrayPrototypeHas node (js "a") = false)) /\
  (PROTOTYPE table = record ->
     has proxy_ts node example_rows table (js "a") = Ok true ->
     has_path example_rows [1; 0; 97; 255; 254] = true).
Proof.
  apply (C8_has proxy_ts node example_rows table (js "a") [1; 0; 97; 255; 254]).
  - reflexivity.
  - reflexivity.
Defined.

(** On an array handle ["length"] reports present whenever the [length]
    statement and the decoding of its row succeed. *)
Lemma has_length rev H rs target s :
  PROTOTYPE target = array ->
  array_length rev H rs target = Ok s ->
  has rev H rs target (js "length") = Ok true.
Proof.
  intros Harr. unfold array_length, get, has.
  destruct (getOwnPropertyDescriptor rev H rs target (js "length")) as [[d|]|e] eqn:E;
    cbn [mbind result_bind]; [done| |done].
  exfalso. unfold getOwnPropertyDescriptor, is_length in E.
  rewrite Harr, !bool_decide_eq_true_2 in E by done. cbn [andb] in E.
  destruct (encodePath (PREFIX target ++ [SNum 0])); cbn [mbind result_bind] in E; [|done].
  destruct (encodePath (PREFIX target ++ [SNum 4294967295]));
    cbn [mbind result_bind] in E; [|done].
  destruct (selectLength rs a a0); [|done].
  by destruct (decodePath b).
Qed.

(** C8 (as stated, refuted): on an array handle over an empty table, the
    key ["push"] has no stored row and reports present. *)
Lemma C8_counterexample :
  has proxy_ts node [] {| PROTOTYPE := array; PREFIX := [SStr (js "a")]; CYCLES := None |}
    (js "push") = Ok true /\
  has table_ts node [] {| PROTOTYPE := array; PREFIX := [SStr (js "a")]; CYCLES := None |}
    (js "push") = Ok true /\
  has_path [] [1; 0; 97; 255; 254; 1; 0; 112; 0; 117; 0; 115; 0; 104; 255; 254] = false /\
  encodePath [SStr (js "a"); SStr (js "push")]
    = Ok [1; 0; 97; 255; 254; 1; 0; 112; 0; 117; 0; 115; 0; 104; 255; 254].
Proof. split_and!; vm_compute; reflexivity. Qed.

(** ** Key normalization *)

Lemma key_SNum prop i :
  key prop = SNum i <->
  float_to_Z (StringToNumber prop) = Some i /\ 0 <= i < 4294967295.
Proof.
  unfold key, isSafeInteger.
  destruct (float_to_Z (StringToNumber prop)) as [z|]; [|split; [done|by intros [? _]]].
  destruct (Z.leb_spec (Z.abs z) 9007199254740991);
  destruct (Z.leb_spec 0 z); destruct (Z.ltb_spec z 4294967295); simpl;
    (split; [intros [= <-]; (split; try done; lia) | intros [[= <-] ?]; try done; lia]).
Qed.

Lemma key_SStr prop s : key prop = SStr s -> s = prop.
Proof.
  unfold key. destruct (float_to_Z (StringToNumber prop)) as [z|]; [|by intros [= <-]].
  destruct (_ && _); [done|by intros [= <-]].
Qed.

Lemma key_not_length prop n : key prop = SNum n -> prop <> js "length".
Proof. intros Hk ->. vm_compute in Hk. done. Qed.

Lemma is_length_key target p q :
  key p = key q -> is_length target p = is_length target q.
Proof.
  intros Hk. unfold is_length. f_equal.
  destruct (key p) as [n|s] eqn:Ep.
  - symmetry in Hk. apply key_not_length in Ep. apply key_not_length in Hk.
    by rewrite !bool_decide_eq_false_2.
  - symmetry in Hk. apply key_SStr in Ep. apply key_SStr in Hk. by subst.
Qed.

(** Two property names with the same normalization are the same key to
    every write. *)
Lemma defineProperty_key rev H hp fuel target p q desc :
  key p = key q ->
  defineProperty rev H hp fuel target (PString p) desc =
  defineProperty rev H hp fuel target (PString q) desc.
Proof.
  intros Hk. destruct fuel as [|fuel]; [done|]. rewrite !defineProperty_S.
  unfold defineProperty_body, deleteProperty, define_try.
  by rewrite Hk, (is_length_key target p q Hk).
Qed.

Lemma set_key rev H hp fuel target p q v :
  key p = key q ->
  set rev H hp fuel target p v = set rev H hp fuel target q v.
Proof.
  intros Hk. unfold set, set_descriptor.
  rewrite (is_length_key target p q Hk). by apply defineProperty_key.
Qed.

Lemma deleteProperty_key rev target p q :
  key p = key q ->
  deleteProperty rev target (PString p) = deleteProperty rev target (PString q).
Proof.
  intros Hk. unfold deleteProperty. by rewrite Hk, (is_length_key target p q Hk).
Qed.

(** ** A successful scalar write, and the enumeration after it *)

Lemma set_scalar_Return rev H hp fuel target prop s st b st' :
  CYCLES target = None ->
  is_length target prop = false ->
  set rev H hp fuel target prop (Prim s) st = Return b st' ->
  exists encoded ev,
    encodePath (PREFIX target ++ [key prop]) = Ok encoded /\
    encodeValue H s = Ok ev /\
    transaction (DATABASE st) = None /\
    has_path (deleteRange (rows (DATABASE st)) encoded (increment rev encoded))
      encoded = false /\
    DATABASE st' =
      {| rows := rows_insert encoded ev
                   (deleteRange (rows (DATABASE st)) encoded (increment rev encoded));
         transaction := None |}.
Proof.
  intros Hc Hl. unfold set, set_descriptor. rewrite Hl.
  destruct fuel as [|fuel]; [done|]. rewrite defineProperty_S.
  unfold defineProperty_body; simpl value.
  destruct (encodePath (PREFIX target ++ [key prop])) as [encoded|e] eqn:Eenc;
    [|done].
  unfold define_try, define_scalar, composite, invalid_descriptor, encodeValue_any.
  rewrite Hl, Hc. simpl.
  cbv [mbind M_bind mret M_ret try_catch_rethrow when lift BEGIN ROLLBACK COMMIT
       delete_run insert_run get_rows set_rows set_database throw]; simpl.
  destruct (transaction (DATABASE st)) eqn:Etx; simpl; [by rewrite Etx|].
  destruct (encodeValue H s) as [ev|e] eqn:Eev; simpl; [|done].
  destruct (has_path _ encoded) eqn:Ehas; simpl; [done|].
  intros [= <- <-]. by exists encoded, ev.
Qed.

Lemma rows_insert_In path v rs : In (path, v) (rows_insert path v rs).
Proof.
  induction rs as [|r rs IH]; simpl; [by left|].
  destruct (blob_ltb path r.1); [by left|by right].
Qed.

Lemma rows_insert_In_inv path v rs r :
  In r (rows_insert path v rs) -> r = (path, v) \/ In r rs.
Proof.
  induction rs as [|r' rs IH]; simpl; [by intros [<-|[]]; left|].
  destruct (blob_ltb path r'.1); simpl.
  - intros [<-|[<-|?]]; [by left|right; by left|right; by right].
  - intros [<-|Hin]; [right; by left|]. destruct (IH Hin); [by left|right; by right].
Qed.

(** The range of a handle contains the encoding of every numeric child,
    provided the last byte of the encoded prefix can be incremented. *)
Lemma numeric_child_in_range rev P n :
  wf_path P ->
  last_byte (path_bytes P) <> 255 ->
  in_range (path_bytes P) (increment rev (path_bytes P))
    (path_bytes (P ++ [SNum n])) = true.
Proof.
  intros Hwf Hlast. rewrite path_bytes_snoc_num.
  destruct (path_bytes P) as [|b0 bs] eqn:Epb using rev_ind.
  - by destruct rev.
  - clear IHbs. apply increment_range.
    apply is_bytes_path in Hwf. rewrite Epb in Hwf.
    apply Forall_app in Hwf as [_ Hx]. apply Forall_cons in Hx as [Hx _].
    unfold last_byte in Hlast. rewrite last_snoc in Hlast. simpl in Hlast.
    unfold is_byte in Hx. lia.
Qed.

Lemma entries_rows_In rev H inner selected es path v decoded k :
  entries_rows rev H inner selected = Ok es ->
  In (path, v) selected ->
  decodePath path = Ok decoded ->
  length decoded = (length (PREFIX inner) + 1)%nat ->
  last decoded = Some k ->
  exists s, instanciate rev H v inner decoded = Ok s /\ In (k, s) es.
Proof.
  intros Hes Hin Hd Hlen Hk. revert es Hes.
  induction selected as [|[path' v'] selected IH]; intros es Hes; [done|].
  simpl in Hes.
  destruct (decodePath path') as [d'|e] eqn:Ed'; [|done]. simpl in Hes.
  destruct Hin as [[= -> ->]|Hin].
  - rewrite Hd in Ed'. injection Ed' as <-.
    rewrite bool_decide_eq_true_2 in Hes by done. rewrite Hk in Hes.
    destruct (instanciate rev H v inner decoded) as [s|e] eqn:Es; [|done].
    simpl in Hes.
    destruct (entries_rows rev H inner selected) as [rest|e]; [|done].
    injection Hes as <-. exists s. split; [done|by left].
  - case_bool_decide.
    + destruct (last d') as [k'|]; [|done].
      destruct (instanciate rev H v' inner d') as [s'|e]; [|done]. simpl in Hes.
      destruct (entries_rows rev H inner selected) as [rest|e]; [|done].
      injection Hes as <-. destruct (IH Hin rest eq_refl) as (s & ? & ?).
      exists s. split; [done|by right].
    + by apply IH.
Qed.

Lemma keys_rows_In prefix selected ks path v decoded k :
  keys_rows prefix selected = Ok ks ->
  In (path, v) selected ->
  decodePath path = Ok decoded ->
  length decoded = (length prefix + 1)%nat ->
  last decoded = Some k ->
  In (String_ k) ks.
Proof.
  intros Hks Hin Hd Hlen Hk. revert ks Hks.
  induction selected as [|[path' v'] selected IH]; intros ks Hks; [done|].
  simpl in Hks.
  destruct (decodePath path') as [d'|e] eqn:Ed'; [|done]. simpl in Hks.
  destruct (keys_rows prefix selected) as [rest|e]; [|done]. simpl in Hks.
  destruct Hin as [[= -> ->]|Hin].
  - rewrite Hd in Ed'. injection Ed' as <-.
    rewrite bool_decide_eq_true_2 in Hks by done. rewrite Hk in Hks.
    injection Hks as <-. by left.
  - specialize (IH Hin rest eq_refl).
    case_bool_decide; [destruct (last d')|]; injection Hks as <-;
      [by right|done|done].
Qed.

Lemma selectMany_In rs lower upper r :
  In r (selectMany rs lower upper) <-> In r rs /\ in_range lower upper r.1 = true.
Proof. unfold selectMany. apply filter_In. Qed.

(** After a successful scalar write under a key that normalizes to the
    number [n], the row is at the path ending in the segment [n], and the
    enumerations of the handle report [n]. *)
Lemma set_numeric_key_enumerated rev H hp fuel target prop n s st b st' :
  CYCLES target = None ->
  wf_path (PREFIX target) ->
  last_byte (path_bytes (PREFIX target)) <> 255 ->
  key prop = SNum n ->
  set rev H hp fuel target prop (Prim s) st = Return b st' ->
  (exists ev, encodeValue H s = Ok ev /\
     In (path_bytes (PREFIX target ++ [SNum n]), ev) (rows (DATABASE st'))) /\
  (forall es, Database_entries rev H (rows (DATABASE st')) target = Ok es ->
     exists v, In (SNum n, v) es) /\
  (forall ks, ownKeys rev H (rows (DATABASE st')) target = Ok ks ->
     In (integer_toString n) ks).
Proof.
  intros Hc Hwf Hlast Hk Hset.
  assert (Hl : is_length target prop = false).
  { unfold is_length. rewrite (bool_decide_eq_false_2 (prop = js "length")).
    - apply andb_false_r.
    - by eapply key_not_length. }
  destruct (set_scalar_Return _ _ _ _ _ _ _ _ _ _ Hc Hl Hset)
    as (encoded & ev & Henc & Hev & _ & _ & Hdb).
  rewrite Hk in Henc. pose proof Henc as Hpb.
  apply encodePath_Ok in Hpb as (_ & -> & _).
  assert (Hwf' : wf_path (PREFIX target ++ [SNum n])).
  { apply Forall_app. split; [done|]. apply Forall_cons. split; [|constructor].
    apply key_SNum in Hk as [_ ?]. simpl. lia. }
  pose proof (decodePath_encodePath _ _ Hwf' Henc) as Hdec.
  assert (Hin : In (path_bytes (PREFIX target ++ [SNum n]), ev) (rows (DATABASE st'))).
  { rewrite Hdb. simpl. apply rows_insert_In. }
  assert (Hsel : forall e, encodePath (PREFIX target) = Ok e ->
            In (path_bytes (PREFIX target ++ [SNum n]), ev)
               (selectMany (rows (DATABASE st')) e (increment rev e))).
  { intros e He. apply encodePath_Ok in He as (_ & -> & _).
    apply selectMany_In. split; [done|]. simpl. by apply numeric_child_in_range. }
  assert (Hlen : length (PREFIX target ++ [SNum n]) = (length (PREFIX target) + 1)%nat).
  { by rewrite length_app. }
  assert (Hent : forall es, Database_entries rev H (rows (DATABASE st')) target = Ok es ->
            exists v, In (SNum n, v) es).
  { intros es. unfold Database_entries.
    destruct (encodePath (PREFIX target)) as [e|?] eqn:He; [|done]. simpl. intros Hes.
    destruct (entries_rows_In _ _ _ _ _ _ _ _ (SNum n) Hes (Hsel e eq_refl) Hdec Hlen)
      as (v & _ & ?); [apply last_snoc|]. by exists v. }
  split; [by exists ev|]. split; [done|].
  intros ks. unfold ownKeys. destruct rev.
  - destruct (encodePath (PREFIX target)) as [e|?] eqn:He; [|done]. simpl. intros Hks.
    apply (keys_rows_In _ _ _ _ _ _ (SNum n) Hks (Hsel e eq_refl) Hdec Hlen).
    apply last_snoc.
  - destruct (Database_entries proxy_ts H (rows (DATABASE st')) target) as [es|?] eqn:Hes;
      [|done]. simpl. intros [= <-].
    destruct (Hent es eq_refl) as (v & Hv).
    apply in_or_app. right. apply (in_map (fun e : segment * Stored => String_ e.1)) in Hv.
    exact Hv.
Qed.



(** ** The value codec *)

Lemma digits2_pos_size m : digits2_pos m = Pos.size m.
Proof. induction m; simpl; congruence. Qed.

Lemma is_float64_finite s m e :
  is_float64 (S754_finite s m e) ->
  -1074 <= e <= 971 /\ Z.pos m < 2 ^ 53 /\ (e = -1074 \/ 2 ^ 52 <= Z.pos m).
Proof.
  unfold is_float64, valid_binary, bounded, canonical_mantissa, fexp, SpecFloat.emin, prec, emax.
  rewrite andb_true_iff, Z.eqb_eq, Z.leb_le, digits2_pos_size.
  intros [Hc He].
  pose proof (Pos.size_gt m) as Hgt. pose proof (Pos.size_le m) as Hle.
  apply Pos2Z.pos_lt_pos in Hgt. apply Pos2Z.pos_le_pos in Hle.
  rewrite Pos2Z.inj_pow in Hgt, Hle. rewrite Pos2Z.inj_xO in Hle.
  set (d := Z.pos (Pos.size m)) in *.
  assert (0 < d) by (subst d; lia).
  destruct (Z.max_spec (d + e - 53) (3 - 1024 - 53)) as [[Hlt Hmax]|[Hge Hmax]];
    rewrite Hmax in Hc.
  - assert (d <= 52) by lia.
    pose proof (Z.pow_le_mono_r 2 d 52 ltac:(lia) ltac:(lia)).
    change (2 ^ 53) with (2 * 2 ^ 52). lia.
  - assert (d = 53) as Hd by lia. rewrite Hd in *.
    change (2 ^ 53) with (2 * 2 ^ 52) in *. lia.
Qed.

Lemma float64_bits_range x : is_float64 x -> 0 <= float64_bits x < 2 ^ 64.
Proof.
  destruct x as [s|s| |s m e].
  1-3: intros _; try destruct s; vm_compute; intuition congruence.
  intros Hv. apply is_float64_finite in Hv as (He & Hm & Hn).
  unfold float64_bits.
  change (2 ^ 64) with 18446744073709551616.
  change (2 ^ 63) with 9223372036854775808.
  change (2 ^ 53) with 9007199254740992 in *.
  change (2 ^ 52) with 4503599627370496 in *.
  destruct (Z.ltb_spec (Z.pos m) 4503599627370496); destruct s; lia.
Qed.

Lemma bits_float64_float64_bits x :
  is_float64 x -> bits_float64 (float64_bits x) = x.
Proof.
  destruct x as [s|s| |s m e].
  1-3: intros _; try destruct s; reflexivity.
  intros Hv. apply is_float64_finite in Hv as (He & Hm & Hn).
  unfold float64_bits, bits_float64.
  change (2 ^ 63) with 9223372036854775808.
  change (2 ^ 53) with 9007199254740992 in *.
  change (2 ^ 52) with 4503599627370496 in *.
  set (S := if s then 9223372036854775808 else 0).
  assert (HS : S = 0 /\ s = false \/ S = 9223372036854775808 /\ s = true)
    by (destruct s; auto).
  destruct (Z.ltb_spec (Z.pos m) 4503599627370496) as [Hsub|Hnorm].
  - assert (Hs : (9223372036854775808 <=? S + Z.pos m) = s).
    { destruct HS as [[-> ->]|[-> ->]]; [apply Z.leb_gt|apply Z.leb_le]; lia. }
    assert (Hex : ((S + Z.pos m) / 4503599627370496) mod 2048 = 0).
    { destruct HS as [[-> _]|[-> _]]; Z.div_mod_to_equations; lia. }
    assert (Hmant : (S + Z.pos m) mod 4503599627370496 = Z.pos m).
    { destruct HS as [[-> _]|[-> _]]; Z.div_mod_to_equations; lia. }
    rewrite Hs, Hex, Hmant. simpl. f_equal. lia.
  - set (b := S + ((e + 1075) * 4503599627370496 + (Z.pos m - 4503599627370496))).
    assert (Hs : (9223372036854775808 <=? b) = s).
    { subst b. destruct HS as [[-> ->]|[-> ->]]; [apply Z.leb_gt|apply Z.leb_le]; lia. }
    assert (Hex : (b / 4503599627370496) mod 2048 = e + 1075).
    { subst b. destruct HS as [[-> _]|[-> _]]; Z.div_mod_to_equations; lia. }
    assert (Hmant : b mod 4503599627370496 = Z.pos m - 4503599627370496).
    { subst b. destruct HS as [[-> _]|[-> _]]; Z.div_mod_to_equations; lia. }
    rewrite Hs, Hex, Hmant.
    destruct (Z.eqb_spec (e + 1075) 0); [lia|].
    destruct (Z.eqb_spec (e + 1075) 2047); [lia|].
    replace (Z.pos m - 4503599627370496 + 4503599627370496) with (Z.pos m) by lia.
    f_equal. lia.
Qed.

Lemma getFloat64_setFloat64 x rest :
  is_float64 x -> getFloat64 (setFloat64 x ++ rest) = Ok x.
Proof.
  intros Hx. pose proof (float64_bits_range x Hx) as Hr.
  rewrite <- (bits_float64_float64_bits x Hx) at 2.
  unfold setFloat64, setUint64, setUint32, getFloat64, getUint32.
  set (v := float64_bits x) in *. clearbody v. cbn [app]. do 2 f_equal.
  change (2 ^ 64) with 18446744073709551616 in Hr.
  Z.div_mod_to_equations. lia.
Qed.

Lemma decodeString_flat_map s :
  Forall (fun c => 0 <= c < 65534) s ->
  decodeString (flat_map setUint16 s) = Ok s.
Proof.
  induction 1 as [|c s Hc Hs IH]; [done|].
  destruct (setUint16_spec c ltac:(lia)) as (hi & lo & Hcs & ? & ? & Hget).
  cbn [flat_map]. rewrite Hcs. cbn [app decodeString].
  rewrite <- Hget. destruct (Z.leb_spec 65534 c); [lia|].
  by rewrite IH.
Qed.

Lemma decodeString_encodeString s bs :
  Forall (fun c => 0 <= c) s ->
  encodeString s = Ok bs -> decodeString bs = Ok s.
Proof.
  intros Hs Henc. apply encodeString_Ok in Henc as [Hlt ->].
  apply decodeString_flat_map. apply Forall_forall. intros c Hc.
  rewrite Forall_forall in Hs, Hlt. specialize (Hs c Hc). specialize (Hlt c Hc).
  simpl in *. lia.
Qed.

(** [BigInt(z.toString())] is [z]. *)
Lemma digits_value_of_uint_acc d acc :
  digits_value 10 (Z.pos acc) (uint_units d) = Some (Z.pos (Pos.of_uint_acc d acc)).
Proof.
  revert acc. induction d as [|d IH|d IH|d IH|d IH|d IH|d IH|d IH|d IH|d IH|d IH];
    intros acc; [done|..];
    cbn [uint_units digits_value Pos.of_uint_acc];
    change (digitValue _) with (Some 0) || change (digitValue _) with (Some 1)
    || change (digitValue _) with (Some 2) || change (digitValue _) with (Some 3)
    || change (digitValue _) with (Some 4) || change (digitValue _) with (Some 5)
    || change (digitValue _) with (Some 6) || change (digitValue _) with (Some 7)
    || change (digitValue _) with (Some 8) || change (digitValue _) with (Some 9);
    cbv iota; change (_ <? 10) with true; cbv iota;
    rewrite <- IH; f_equal; lia.
Qed.

Lemma digits_value_of_uint d :
  digits_value 10 0 (uint_units d) = Some (Z.of_N (Pos.of_uint d)).
Proof.
  induction d as [|d IH|d IH|d IH|d IH|d IH|d IH|d IH|d IH|d IH|d IH];
    [done|exact IH|..]; apply (digits_value_of_uint_acc d).
Qed.

Lemma digits_value_to_uint p :
  digits_value 10 0 (uint_units (Pos.to_uint p)) = Some (Z.pos p).
Proof. by rewrite digits_value_of_uint, DecimalPos.Unsigned.of_to. Qed.

Lemma uint_units_to_uint_nonempty p : uint_units (Pos.to_uint p) <> [].
Proof.
  intros Hnil. pose proof (digits_value_to_uint p) as Hd. by rewrite Hnil in Hd.
Qed.

Lemma uint_units_digits d : Forall (fun c => 48 <= c <= 57) (uint_units d).
Proof. induction d; simpl; constructor; (lia || done). Qed.

Lemma trim_start_id c s : isStrWhiteSpaceChar c = false -> trim_start (c :: s) = c :: s.
Proof. simpl. by intros ->. Qed.

Lemma trim_id s :
  Forall (fun c => isStrWhiteSpaceChar c = false) s -> trim s = s.
Proof.
  intros Hs. unfold trim.
  assert (Hid : forall t, Forall (fun c => isStrWhiteSpaceChar c = false) t ->
            trim_start t = t).
  { intros [|c t] Ht; [done|]. apply trim_start_id. by inversion Ht. }
  rewrite (Hid s Hs), Hid; [apply rev_involutive|].
  by apply List.Forall_rev.
Qed.

Lemma integer_toString_no_white_space z :
  Forall (fun c => isStrWhiteSpaceChar c = false) (integer_toString z).
Proof.
  assert (Hd : forall d, Forall (fun c => isStrWhiteSpaceChar c = false) (uint_units d)).
  { intros d. eapply Forall_impl; [apply uint_units_digits|].
    intros c Hc. simpl in Hc. unfold isStrWhiteSpaceChar.
    repeat (apply orb_false_intro); try (apply Z.eqb_neq; lia).
    apply andb_false_intro1. apply Z.leb_gt. lia. }
  destruct z; simpl; [by repeat constructor|apply Hd|].
  constructor; [done|apply Hd].
Qed.

Lemma parse_nondecimal_uint d : parse_nondecimal (uint_units d) = None.
Proof. destruct d as [|d| | | | | | | | |]; try done. by destruct d. Qed.

Lemma StringToBigInt_integer_toString z :
  StringToBigInt (integer_toString z) = Ok z.
Proof.
  unfold StringToBigInt. rewrite trim_id by apply integer_toString_no_white_space.
  destruct z as [|p|p]; [done| |].
  - cbn [integer_toString]. pose proof (uint_units_to_uint_nonempty p) as Hne.
    pose proof (digits_value_to_uint p) as Hd.
    rewrite parse_nondecimal_uint. unfold parse_digits.
    destruct (Pos.to_uint p); try done; simpl in *; by rewrite Hd.
  - cbn [integer_toString]. pose proof (uint_units_to_uint_nonempty p) as Hne.
    pose proof (digits_value_to_uint p) as Hd.
    cbn [parse_nondecimal]. unfold parse_digits.
    destruct (uint_units (Pos.to_uint p)) eqn:E; [done|].
    by rewrite Hd.
Qed.

Lemma integer_toString_units z : Forall (fun c => 0 <= c) (integer_toString z).
Proof.
  assert (Hd : forall d, Forall (fun c => 0 <= c) (uint_units d)).
  { intros d. eapply Forall_impl; [apply uint_units_digits|]. simpl. lia. }
  destruct z; simpl; [by repeat constructor|apply Hd|].
  constructor; [done|apply Hd].
Qed.

Lemma decodeValue_number H body :
  decodeValue H (VALUE_TAGS.NUMBER `mod` 256 :: body) =
  (x ← getFloat64 body; Ok (VNumber x)).
Proof. reflexivity. Qed.

Lemma decodeValue_string H body :
  decodeValue H (VALUE_TAGS.STRING `mod` 256 :: body) =
  (s ← decodeString body; Ok (VString s)).
Proof. reflexivity. Qed.

Lemma decodeValue_bigint H body :
  decodeValue H (VALUE_TAGS.BIGINT `mod` 256 :: body) =
  (s ← decodeString body; z ← StringToBigInt s; Ok (VBigInt z)).
Proof. reflexivity. Qed.

Lemma decodeValue_date H body :
  decodeValue H (VALUE_TAGS.DATE `mod` 256 :: body) =
  (n ← getFloat64 body; Ok (VDate {| DateValue := TimeClip n |})).
Proof. reflexivity. Qed.

Lemma decodeValue_regexp H body :
  decodeValue H (VALUE_TAGS.REGEXP `mod` 256 :: body) =
  (s ← decodeString body; r ← RegExp_new H s; Ok (VRegExp r)).
Proof. reflexivity. Qed.

(** Every supported scalar other than a regular expression is read back
    as it was written. *)
Lemma scalar_round_trip H v bs :
  wf_scalar v -> is_RegExp v = false ->
  encodeValue H v = Ok bs -> decodeValue H bs = Ok v.
Proof.
  destruct v as [|b|x|s|z|d|r]; cbn [wf_scalar is_RegExp encodeValue];
    intros Hwf Hre Henc; try done.
  - by injection Henc as <-.
  - injection Henc as <-. by destruct b.
  - injection Henc as <-. rewrite decodeValue_number.
    rewrite <- (app_nil_r (setFloat64 x)). by rewrite getFloat64_setFloat64.
  - destruct (encodeString s) as [bs'|] eqn:Es; [|done]. injection Henc as <-.
    rewrite decodeValue_string.
    erewrite decodeString_encodeString; [done| |exact Es].
    eapply Forall_impl; [exact Hwf|]. simpl. lia.
  - destruct (encodeString (integer_toString z)) as [bs'|] eqn:Es; [|done].
    injection Henc as <-. rewrite decodeValue_bigint.
    erewrite decodeString_encodeString; [|apply integer_toString_units|exact Es].
    simpl. by rewrite StringToBigInt_integer_toString.
  - injection Henc as <-. destruct Hwf as [Hf Hclip]. rewrite decodeValue_date.
    rewrite <- (app_nil_r (setFloat64 (DateValue d))).
    rewrite getFloat64_setFloat64 by done. simpl. rewrite Hclip. by destruct d.
Qed.

(** A regular expression is read back as [new RegExp(value.toString())]:
    its flags are empty and its pattern is the printed text with both
    slashes and the flags. *)
Lemma regexp_decoded H r bs v :
  encodeValue H (VRegExp r) = Ok bs ->
  decodeValue H bs = Ok v ->
  exists r', v = VRegExp r' /\ OriginalFlags r' = [] /\
    (Forall (fun c => 0 <= c) (RegExp_toString H r) ->
     OriginalSource r' = RegExp_toString H r).
Proof.
  cbn [encodeValue].
  destruct (encodeString (RegExp_toString H r)) as [bs'|] eqn:Es; [|done].
  intros [= <-]. rewrite decodeValue_regexp.
  destruct (decodeString bs') as [s|] eqn:Ed; [|done]. simpl.
  unfold RegExp_new. destruct (RegExpSyntax H s); [|done]. simpl.
  intros [= <-]. eexists. split; [done|]. split; [done|]. simpl.
  intros Hs. rewrite (decodeString_encodeString _ _ Hs Es) in Ed. by injection Ed.
Qed.

Lemma encodeValue_tag H s ev :
  encodeValue H s = Ok ev -> exists tag body, ev = tag :: body /\ 0 <= tag <= 7.
Proof.
  destruct s as [|b|x|s|z|d|r]; cbn [encodeValue]; intros Henc;
    try match type of Henc with
        | context [encodeString ?t] => destruct (encodeString t); [|done]
        end;
    injection Henc as <-; try destruct b;
    (eexists _, _; split; [reflexivity|by vm_compute]).
Qed.

Lemma instanciate_scalar rev H s ev inner prefix :
  encodeValue H s = Ok ev ->
  instanciate rev H ev inner prefix = (v ← decodeValue H ev; Ok (StoredScalar v)).
Proof.
  intros Henc. apply encodeValue_tag in Henc as (tag & body & -> & Htag).
  destruct rev.
  - rewrite instanciate_table_ts.
    destruct (Z.eqb_spec tag 255); [lia|]. by destruct (Z.eqb_spec tag 254); [lia|].
  - rewrite instanciate_proxy_ts.
    destruct (Z.eqb_spec tag 254); [lia|]. by destruct (Z.eqb_spec tag 253); [lia|].
Qed.

Lemma selectOne_rows_insert path v rs :
  has_path rs path = false -> selectOne (rows_insert path v rs) path = Some v.
Proof.
  unfold selectOne, has_path. induction rs as [|r rs IH]; simpl.
  - intros _. by rewrite bool_decide_eq_true_2.
  - intros Hno. apply orb_false_elim in Hno as [Hr Hrs].
    destruct (blob_ltb path r.1); simpl.
    + by rewrite bool_decide_eq_true_2.
    + rewrite Hr. by apply IH.
Qed.

(** What [get] reads after a successful scalar [set] is the decoding of
    the bytes [set] stored. *)
Lemma get_after_set_scalar rev H hp fuel target prop s st b st' :
  CYCLES target = None ->
  is_length target prop = false ->
  set rev H hp fuel target prop (Prim s) st = Return b st' ->
  exists ev, encodeValue H s = Ok ev /\
    get rev H (rows (DATABASE st')) target prop =
    (v ← decodeValue H ev; Ok (GotValue (StoredScalar v))).
Proof.
  intros Hc Hl Hset.
  destruct (set_scalar_Return _ _ _ _ _ _ _ _ _ _ Hc Hl Hset)
    as (encoded & ev & Henc & Hev & _ & Hno & Hdb).
  exists ev. split; [done|]. unfold get, getOwnPropertyDescriptor.
  rewrite Hl, Henc, Hdb. cbn [mbind result_bind rows].
  rewrite selectOne_rows_insert by done.
  rewrite (instanciate_scalar _ _ _ _ _ _ Hev).
  by destruct (decodeValue H ev).
Qed.

(** A supported scalar other than a regular expression is returned by
    [get] after [set]. *)
Lemma get_after_set_round_trip rev H hp fuel target prop s st b st' :
  CYCLES target = None ->
  is_length target prop = false ->
  wf_scalar s -> is_RegExp s = false ->
  set rev H hp fuel target prop (Prim s) st = Return b st' ->
  get rev H (rows (DATABASE st')) target prop = Ok (GotValue (StoredScalar s)).
Proof.
  intros Hc Hl Hwf Hre Hset.
  destruct (get_after_set_scalar _ _ _ _ _ _ _ _ _ _ Hc Hl Hset) as (ev & Hev & ->).
  by rewrite (scalar_round_trip _ _ _ Hwf Hre Hev).
Qed.

(** C3: a regular expression is not read back as it was written.
    Whatever the engine, the value decoded from the encoding of a regular
    expression has no flags, and its pattern is the whole printed text
    [/source/flags]; in Node.js [/a/i] is stored as the code units of
    ["/a/i"] and read back as the regular expression with the pattern
    [/a/i] (slashes included) and no flags, by [decodeValue] and by [get]
    after [set] in both revisions.  The other supported scalars are read
    back as they were written ([scalar_round_trip],
    [get_after_set_round_trip]). *)
Theorem C3_regexp_is_not_read_back :
  (forall H r bs v,
     encodeValue H (VRegExp r) = Ok bs ->
     decodeValue H bs = Ok v ->
     exists r', v = VRegExp r' /\ OriginalFlags r' = [] /\
       (Forall (fun c => 0 <= c) (RegExp_toString H r) ->
        OriginalSource r' = RegExp_toString H r)) /\
  (forall H r bs,
     OriginalFlags r <> [] ->
     encodeValue H (VRegExp r) = Ok bs ->
     decodeValue H bs <> Ok (VRegExp r)) /\
  wf_scalar (VRegExp example_regexp) /\
  encodeValue node (VRegExp example_regexp) = Ok [7; 0; 47; 0; 97; 0; 47; 0; 105] /\
  decodeValue node [7; 0; 47; 0; 97; 0; 47; 0; 105] =
    Ok (VRegExp {| OriginalSource := js "/a/i"; OriginalFlags := [] |}) /\
  (forall rev, exists st',
     set rev node ∅ 1 table (js "hex") (Prim (VRegExp example_regexp)) empty_state =
       Return true st' /\
     get rev node (rows (DATABASE st')) table (js "hex") =
       Ok (GotValue (StoredScalar
             (VRegExp {| OriginalSource := js "/a/i"; OriginalFlags := [] |})))).
Proof.
  split; [exact regexp_decoded|].
  split.
  { intros H r bs Hflags Henc Hdec.
    destruct (regexp_decoded _ _ _ _ Henc Hdec) as (r' & [= <-] & Hnil & _). done. }
  split; [by vm_compute; split; repeat constructor|].
  split; [reflexivity|]. split; [reflexivity|].
  intros rev. eexists. split; [by destruct rev; vm_compute|].
  by destruct rev; vm_compute.
Qed.

(** * Further properties of the codec and of the navigator *)

(** ** The path codec *)

Lemma encodeString_Throw s e :
  encodeString s = Throw e -> e = RangeError "Invalid UTF-16 code unit".
Proof.
  induction s as [|c s IH]; simpl; [done|].
  destruct (65534 <=? c); [by intros [= <-]|].
  destruct (encodeString s); simpl; [done|]. intros [= <-]. by apply IH.
Qed.

Lemma encodeSegment_Throw view seg e :
  encodeSegment view seg = Throw e ->
  e = RangeError "Invalid array buffer length" \/
  e = RangeError "Invalid UTF-16 code unit".
Proof.
  unfold encodeSegment, resize. destruct seg as [n|s].
  - destruct (maxByteLength <? _); simpl; [|done]. intros [= <-]. by left.
  - destruct (maxByteLength <? _); simpl; [intros [= <-]; by left|].
    destruct (encodeString s) eqn:Es; simpl; [done|]. intros [= <-].
    right. by eapply encodeString_Throw.
Qed.

Lemma encodePath_loop_Throw view p e :
  encodePath_loop view p = Throw e ->
  e = RangeError "Invalid array buffer length" \/
  e = RangeError "Invalid UTF-16 code unit".
Proof.
  revert view. induction p as [|seg p IH]; intros view; simpl; [done|].
  destruct (encodeSegment view seg) as [view'|e'] eqn:Es; simpl.
  - apply IH.
  - intros [= <-]. by eapply encodeSegment_Throw.
Qed.

(** X1: [decodePath] inverts [encodePath] on paths of unsigned 32-bit
    numbers and strings of code units below [0xFFFE]; so two such paths
    with the same encoding are the same path. *)
Theorem decodePath_inverts_encodePath (p : Path) (b : bytes) :
  wf_path p -> encodePath p = Ok b ->
  decodePath b = Ok p /\
  forall q, wf_path q -> encodePath q = Ok b -> q = p.
Proof.
  intros Hp Hb. split; [by apply decodePath_encodePath|].
  intros q Hq Hqb.
  pose proof (decodePath_encodePath _ _ Hp Hb) as H1.
  pose proof (decodePath_encodePath _ _ Hq Hqb) as H2. congruence.
Qed.

Lemma decodePath_inverts_encodePath_witness :
  decodePath [1; 0; 97; 255; 254; 0; 0; 0; 0; 1] = Ok [SStr (js "a"); SNum 1] /\
  forall q, wf_path q -> encodePath q = Ok [1; 0; 97; 255; 254; 0; 0; 0; 0; 1] ->
    q = [SStr (js "a"); SNum 1].
Proof.
  apply (decodePath_inverts_encodePath [SStr (js "a"); SNum 1]).
  - repeat constructor; simpl; lia.
  - reflexivity.
Defined.


Lemma path_prefix_iff p q bp bq :
  wf_path p -> wf_path q ->
  encodePath p = Ok bp -> encodePath q = Ok bq ->
  (bp `prefix_of` bq <-> p `prefix_of` q).
Proof.
  intros Hp Hq Ep Eq.
  apply encodePath_Ok in Ep as (_ & -> & _). apply encodePath_Ok in Eq as (_ & -> & _).
  split.
  - intros [ext Hext]. destruct (path_bytes_prefix p q ext Hp Hq Hext) as (r & -> & _).
    by exists r.
  - intros [r ->]. exists (path_bytes r). apply path_bytes_app.
Qed.

(** X3: the path code is prefix-free: the encoding of a path [q] begins
    with the encoding of a path [p] exactly when [q] extends [p]. *)
Theorem encoded_prefix_iff_path_prefix (p q : Path) (bp bq : bytes) :
  wf_path p -> wf_path q ->
  encodePath p = Ok bp -> encodePath q = Ok bq ->
  (bp `prefix_of` bq <-> p `prefix_of` q).
Proof.
  apply path_prefix_iff.
Qed.

(** The encoding of ["ab"] does not begin with the encoding of ["a"]. *)
Lemma encoded_prefix_iff_path_prefix_witness :
  [1; 0; 97; 255; 254] `prefix_of` [1; 0; 97; 0; 98; 255; 254] <->
  [SStr (js "a")] `prefix_of` [SStr (js "ab")].
Proof.
  apply encoded_prefix_iff_path_prefix.
  - repeat constructor; simpl; lia.
  - repeat constructor; simpl; lia.
  - reflexivity.
  - reflexivity.
Defined.

(** ** Ranges *)

Lemma in_range_nonempty lower upper k :
  in_range lower upper k = true -> blob_ltb lower upper = true.
Proof.
  unfold in_range. rewrite andb_true_iff, blob_leb_iff. intros [[->|Hlo] Hhi]; [done|].
  by eapply blob_ltb_trans.
Qed.

Lemma snoc_last_byte (b : bytes) : b <> [] -> exists pre, b = pre ++ [last_byte b].
Proof.
  destruct b as [|x b _] using rev_ind; [done|]. intros _. exists b.
  unfold last_byte. by rewrite last_snoc.
Qed.

Lemma in_range_increment_iff rev b k :
  b <> [] -> 0 <= last_byte b < 255 ->
  (in_range b (increment rev b) k = true <-> b `prefix_of` k).
Proof.
  intros Hb Hx. destruct (snoc_last_byte b Hb) as [pre Hpre].
  set (x := last_byte b) in *. clearbody x. subst b. split.
  - intros Hin. destruct (increment_range_only rev pre x k ltac:(lia) Hin) as [ext ->].
    by exists ext.
  - intros [ext ->]. by apply increment_range; lia.
Qed.

(** X4: for a non-empty buffer [b] whose last byte is below [0xFF], the
    keys in [[b, increment(b))] are exactly the byte strings that begin
    with [b]; when the last byte is [0xFF] the addition wraps and no key
    is in the range. *)
Theorem increment_range_is_the_extensions (rev : revision) (b k : bytes) :
  b <> [] -> 0 <= last_byte b <= 255 ->
  (last_byte b < 255 ->
     (in_range b (increment rev b) k = true <-> b `prefix_of` k)) /\
  (last_byte b = 255 -> in_range b (increment rev b) k = false).
Proof.
  intros Hb Hx. split; [intros Hlt; apply in_range_increment_iff; [done|lia]|].
  destruct (snoc_last_byte b Hb) as [pre Hpre].
  set (x := last_byte b) in *. clearbody x. subst b.
  intros ->. destruct (in_range (pre ++ [255]) _ k) eqn:E; [|done].
    apply in_range_nonempty in E.
    rewrite increment_nonempty, increment_last_snoc, blob_ltb_app_l in E
      by (by destruct pre).
    done.
Qed.

Lemma increment_range_is_the_extensions_witness :
  (last_byte [1; 0; 97; 255; 254] < 255 ->
     (in_range [1; 0; 97; 255; 254] (increment proxy_ts [1; 0; 97; 255; 254])
        [1; 0; 97; 255; 254; 0; 0; 0; 0; 7] = true <->
      [1; 0; 97; 255; 254] `prefix_of` [1; 0; 97; 255; 254; 0; 0; 0; 0; 7])) /\
  (last_byte [1; 0; 97; 255; 254] = 255 ->
     in_range [1; 0; 97; 255; 254] (increment proxy_ts [1; 0; 97; 255; 254])
       [1; 0; 97; 255; 254; 0; 0; 0; 0; 7] = false).
Proof.
  apply increment_range_is_the_extensions.
  - discriminate.
  - vm_compute. split; discriminate.
Defined.

Lemma last_segment_bytes seg :
  exists pre x, segment_bytes seg = pre ++ [x] /\ 0 <= x < 256 /\
    (forall s, seg = SStr s -> x = 254) /\ (forall n, seg = SNum n -> x = n mod 256).
Proof.
  destruct seg as [n|s]; simpl.
  - exists [0; (n / 16777216) mod 256; (n / 65536) mod 256; (n / 256) mod 256], (n mod 256).
    split; [done|]. split; [apply Z.mod_pos_bound; lia|].
    split; [done|]. by intros ? [= ->].
  - exists (1 :: flat_map setUint16 s ++ [255]), 254. split.
    + simpl. by rewrite <- app_assoc.
    + split; [lia|]. split; [done|]. done.
Qed.

Lemma last_byte_path_bytes p :
  p <> [] -> path_bytes p <> [] /\ 0 <= last_byte (path_bytes p) < 256.
Proof.
  destruct p as [|seg p _] using rev_ind; [done|]. intros _.
  rewrite path_bytes_app. unfold path_bytes at 2 4. simpl. rewrite app_nil_r.
  destruct (last_segment_bytes seg) as (pre & x & -> & Hx & _).
  rewrite app_assoc. split; [by destruct (path_bytes p ++ pre)|].
  unfold last_byte. by rewrite last_snoc.
Qed.

(** X5: for a handle with a non-empty prefix [P] whose encoding does not
    end in the byte [0xFF], the rows that [selectMany] reads over
    [[encode(P), increment(encode(P)))] are exactly the rows of the table
    at paths extending [P], and the same [DELETE] leaves exactly the
    other rows. *)
Theorem handle_range_is_the_subtree (rev : revision) (rs : list row) (P q : Path)
    (bP bq v : bytes) :
  wf_path P -> wf_path q -> P <> [] ->
  encodePath P = Ok bP -> encodePath q = Ok bq ->
  last_byte bP <> 255 ->
  (In (bq, v) (selectMany rs bP (increment rev bP)) <->
     In (bq, v) rs /\ P `prefix_of` q) /\
  (In (bq, v) (deleteRange rs bP (increment rev bP)) <->
     In (bq, v) rs /\ ~ P `prefix_of` q).
Proof.
  intros HP Hq Hne EP Eq Hlast.
  pose proof EP as EP'. apply encodePath_Ok in EP' as (_ & -> & _).
  pose proof Eq as Eq'. apply encodePath_Ok in Eq' as (_ & -> & _).
  destruct (last_byte_path_bytes P Hne) as [Hnil Hx].
  pose proof (in_range_increment_iff rev (path_bytes P) (path_bytes q) Hnil ltac:(lia))
    as Hext.
  assert (Hiff : in_range (path_bytes P) (increment rev (path_bytes P)) (path_bytes q) = true
                 <-> P `prefix_of` q).
  { rewrite Hext. split.
    - intros [ext Hext']. destruct (path_bytes_prefix P q ext HP Hq Hext') as (r & -> & _).
      by exists r.
    - intros [r ->]. exists (path_bytes r). apply path_bytes_app. }
  unfold selectMany, deleteRange. rewrite !filter_In. simpl.
  rewrite negb_true_iff, <- Hiff, not_true_iff_false. done.
Qed.

Lemma handle_range_is_the_subtree_witness :
  (In ([1; 0; 97; 255; 254; 0; 0; 0; 0; 1], [3; 64; 0; 0; 0; 0; 0; 0; 0])
      (selectMany example_rows [1; 0; 97; 255; 254]
         (increment proxy_ts [1; 0; 97; 255; 254])) <->
   In ([1; 0; 97; 255; 254; 0; 0; 0; 0; 1], [3; 64; 0; 0; 0; 0; 0; 0; 0]) example_rows /\
   [SStr (js "a")] `prefix_of` [SStr (js "a"); SNum 1]) /\
  (In ([1; 0; 97; 255; 254; 0; 0; 0; 0; 1], [3; 64; 0; 0; 0; 0; 0; 0; 0])
      (deleteRange example_rows [1; 0; 97; 255; 254]
         (increment proxy_ts [1; 0; 97; 255; 254])) <->
   In ([1; 0; 97; 255; 254; 0; 0; 0; 0; 1], [3; 64; 0; 0; 0; 0; 0; 0; 0]) example_rows /\
   ~ [SStr (js "a")] `prefix_of` [SStr (js "a"); SNum 1]).
Proof.
  apply (handle_range_is_the_subtree proxy_ts example_rows
           [SStr (js "a")] [SStr (js "a"); SNum 1]).
  - repeat constructor; simpl; lia.
  - repeat constructor; simpl; lia.
  - discriminate.
  - reflexivity.
  - reflexivity.
  - vm_compute. discriminate.
Defined.

(** ** Decoding any buffer *)

Lemma decodeString_cases_aux rest :
  is_bytes rest ->
  (match decodeString rest with
   | Ok s => Forall (fun c => 0 <= c < 65534) s
   | Throw e => e = RangeError "Offset is outside the bounds of the DataView"
   end) /\
  (forall x, is_byte x ->
   match decodeString (x :: rest) with
   | Ok s => Forall (fun c => 0 <= c < 65534) s
   | Throw e => e = RangeError "Offset is outside the bounds of the DataView"
   end).
Proof.
  induction rest as [|y rest IH]; intros Hb.
  - split; [by constructor|]. by intros x _.
  - apply Forall_cons in Hb as [Hy Hb]. destruct (IH Hb) as [IH1 IH2].
    split; [by apply IH2|]. intros x Hx. cbn [decodeString].
    unfold getUint16, is_byte in *.
    destruct (Z.leb_spec 65534 (x * 256 + y)); [by constructor|].
    destruct (decodeString rest) as [s|e]; simpl; [|done].
    constructor; [lia|done].
Qed.

Lemma decodeString_cases rest :
  is_bytes rest ->
  match decodeString rest with
  | Ok s => Forall (fun c => 0 <= c < 65534) s
  | Throw e => e = RangeError "Offset is outside the bounds of the DataView"
  end.
Proof. intros Hb. by apply decodeString_cases_aux. Qed.

Lemma decodePath_loop_cases fuel rest :
  (length rest <= fuel)%nat -> is_bytes rest ->
  match decodePath_loop fuel rest with
  | Ok p => wf_path p
  | Throw e =>
      e = TypeError "Unknown data type" \/
      e = RangeError "Offset is outside the bounds of the DataView"
  end.
Proof.
  revert rest. induction fuel as [|fuel IH]; intros rest Hlen Hb.
  { destruct rest; [constructor|simpl in Hlen; lia]. }
  destruct rest as [|tag body]; [constructor|].
  simpl in Hlen. apply Forall_cons in Hb as [_ Hb]. cbn [decodePath_loop].
  destruct (tag =? PATH_TAGS.NUMBER).
  - destruct body as [|b3 [|b2 [|b1 [|b0 rest']]]]; try (by right).
    repeat (apply Forall_cons in Hb as [? Hb]).
    specialize (IH rest' ltac:(simpl in Hlen; lia) Hb).
    destruct (decodePath_loop fuel rest') as [p|e]; simpl; [|done].
    constructor; [|done]. unfold getUint32, is_byte in *. simpl. lia.
  - destruct (tag =? PATH_TAGS.STRING); [|by left].
    pose proof (decodeString_cases body Hb) as Hs.
    destruct (decodeString body) as [seg|e]; simpl; [|by right].
    specialize (IH (drop (length seg * 2 + 2) body)
                  ltac:(rewrite length_drop; lia) ltac:(by apply Forall_drop)).
    destruct (decodePath_loop fuel _) as [p|e]; simpl; [|done].
    by constructor.
Qed.

(** X6: on any buffer of bytes [decodePath] returns a path of unsigned
    32-bit numbers and strings of code units below [0xFFFE], or throws the
    [TypeError] of an unknown tag or the [RangeError] of a read past the
    end of the buffer; the loop ends within as many iterations as the
    buffer has bytes. *)
Theorem decodePath_returns_wf_path_or_throws (from : bytes) :
  is_bytes from ->
  ((exists p, decodePath from = Ok p /\ wf_path p) \/
   decodePath from = Throw (TypeError "Unknown data type") \/
   decodePath from =
     Throw (RangeError "Offset is outside the bounds of the DataView")) /\
  (forall fuel, (length from <= fuel)%nat ->
     decodePath_loop fuel from = decodePath from).
Proof.
  intros Hb. split; [|apply decodePath_never_out_of_fuel].
  pose proof (decodePath_loop_cases (length from) from (le_n _) Hb) as Hc.
  unfold decodePath. destruct (decodePath_loop (length from) from) as [p|e].
  - left. by exists p.
  - right. destruct Hc as [-> | ->]; auto.
Qed.

Lemma decodePath_returns_wf_path_or_throws_witness :
  ((exists p, decodePath [2; 0] = Ok p /\ wf_path p) \/
   decodePath [2; 0] = Throw (TypeError "Unknown data type") \/
   decodePath [2; 0] =
     Throw (RangeError "Offset is outside the bounds of the DataView")) /\
  (forall fuel, (length [2; 0] <= fuel)%nat ->
     decodePath_loop fuel [2; 0] = decodePath [2; 0]).
Proof.
  apply decodePath_returns_wf_path_or_throws.
  repeat constructor; unfold is_byte; lia.
Defined.

Lemma decodePath_loop_app fuel p ext :
  wf_path p ->
  decodePath_loop (length p + fuel) (path_bytes p ++ ext) =
  (d ← decodePath_loop fuel ext; Ok (p ++ d)).
Proof.
  induction 1 as [|seg p Hseg Hp IH].
  { simpl. by destruct (decodePath_loop fuel ext). }
  rewrite path_bytes_cons, <- app_assoc. cbn [length Nat.add].
  destruct seg as [n|s]; simpl in Hseg.
  - destruct (setUint32_spec n Hseg) as (b3 & b2 & b1 & b0 & Hn & ? & ? & ? & ? & Hget).
    cbn [segment_bytes]. rewrite Hn. cbn [app decodePath_loop].
    change (0 =? PATH_TAGS.NUMBER) with true. cbn match.
    rewrite IH, <- Hget. by destruct (decodePath_loop fuel ext).
  - cbn [segment_bytes]. rewrite <- app_comm_cons, <- app_assoc.
    cbn [decodePath_loop].
    change (1 =? PATH_TAGS.NUMBER) with false.
    change (1 =? PATH_TAGS.STRING) with true. cbn match.
    rewrite decodeString_units by done.
    change (Ok s ≫= ?k) with (k s). cbn beta.
    rewrite drop_units, IH. by destruct (decodePath_loop fuel ext).
Qed.

Lemma decodePath_app p ext :
  wf_path p ->
  decodePath (path_bytes p ++ ext) = (d ← decodePath ext; Ok (p ++ d)).
Proof.
  intros Hp. unfold decodePath at 1.
  pose proof (length_path_bytes_ge p) as Hge.
  replace (length (path_bytes p ++ ext))
    with (length p + (length (path_bytes p ++ ext) - length p))%nat
    by (rewrite length_app; lia).
  rewrite decodePath_loop_app by done.
  rewrite decodePath_never_out_of_fuel; [done|]. rewrite length_app. lia.
Qed.

(** X7: [decodePath] does not require the terminator of a final string
    segment: the encoding of a path followed by the tag and the code
    units of a string, with no terminator, decodes to the path extended
    by that string, as the terminated encoding does. *)
Theorem decodePath_accepts_unterminated_string (p : Path) (s : jsstring) :
  wf_path p -> wf_segment (SStr s) ->
  decodePath (path_bytes p ++ 1 :: flat_map setUint16 s) = Ok (p ++ [SStr s]) /\
  decodePath (path_bytes p ++ 1 :: flat_map setUint16 s ++ [255; 254])
    = Ok (p ++ [SStr s]).
Proof.
  intros Hp Hs. split.
  - rewrite decodePath_app by done. unfold decodePath. cbn [length decodePath_loop].
    change (1 =? PATH_TAGS.NUMBER) with false.
    change (1 =? PATH_TAGS.STRING) with true. cbn match.
    rewrite decodeString_flat_map by done.
    change (Ok s ≫= ?k) with (k s). cbn beta.
    rewrite drop_ge by (rewrite length_flat_map_setUint16; lia).
    by destruct (length (flat_map setUint16 s)).
  - replace (path_bytes p ++ 1 :: flat_map setUint16 s ++ [255; 254])
      with (path_bytes (p ++ [SStr s]))
      by (rewrite path_bytes_app; unfold path_bytes at 2; simpl; by rewrite app_nil_r).
    unfold decodePath.
    apply decodePath_loop_path_bytes; [|apply length_path_bytes_ge].
    apply Forall_app. split; [done|]. by constructor.
Qed.

Lemma decodePath_accepts_unterminated_string_witness :
  decodePath (path_bytes [SNum 7] ++ 1 :: flat_map setUint16 (js "a"))
    = Ok ([SNum 7] ++ [SStr (js "a")]) /\
  decodePath (path_bytes [SNum 7] ++ 1 :: flat_map setUint16 (js "a") ++ [255; 254])
    = Ok ([SNum 7] ++ [SStr (js "a")]).
Proof.
  apply decodePath_accepts_unterminated_string.
  - repeat constructor; simpl; lia.
  - repeat constructor; simpl; lia.
Defined.

(** ** The value codec *)

(** X8: every supported scalar other than a regular expression is
    decoded to the value that was encoded: null, booleans, numbers (bit
    for bit), strings, bigints and dates. *)
Theorem decodeValue_inverts_encodeValue (H : host) (v : Scalar) (bs : bytes) :
  wf_scalar v -> is_RegExp v = false ->
  encodeValue H v = Ok bs -> decodeValue H bs = Ok v.
Proof. apply scalar_round_trip. Qed.

Lemma decodeValue_inverts_encodeValue_witness :
  decodeValue node [5; 0; 45; 0; 49; 0; 50] = Ok (VBigInt (-12)).
Proof.
  apply (decodeValue_inverts_encodeValue node (VBigInt (-12))).
  - exact I.
  - reflexivity.
  - reflexivity.
Defined.

Lemma integer_toString_encodable z : Forall (fun c => c < 65534) (integer_toString z).
Proof.
  assert (Hd : forall d, Forall (fun c => c < 65534) (uint_units d)).
  { intros d. eapply Forall_impl; [apply uint_units_digits|]. simpl. lia. }
  destruct z; simpl; [by repeat constructor|apply Hd|].
  constructor; [done|apply Hd].
Qed.

(** X9: [encodeValue] returns for null, booleans, numbers, bigints and
    dates; for a string or a regular expression it returns exactly when
    every code unit of the string, or of the printed regular expression,
    is below [0xFFFE], and throws
    [RangeError("Invalid UTF-16 code unit")] otherwise. *)
Theorem encodeValue_throws_only_for_code_units (H : host) (v : Scalar) :
  ((exists bs, encodeValue H v = Ok bs) <->
     Forall (fun c => c < 65534) (encoded_text H v)) /\
  ((forall bs, encodeValue H v <> Ok bs) ->
     encodeValue H v = Throw (RangeError "Invalid UTF-16 code unit")) /\
  (match v with VString _ | VRegExp _ => False | _ => True end ->
     exists bs, encodeValue H v = Ok bs).
Proof.
  assert (Htext : forall tag s,
    ((exists bs, (bs' ← encodeString s; Ok (setUint8 tag ++ bs')) = Ok bs) <->
       Forall (fun c => c < 65534) s) /\
    ((forall bs, (bs' ← encodeString s; Ok (setUint8 tag ++ bs')) <> Ok bs) ->
       (bs' ← encodeString s; Ok (setUint8 tag ++ bs'))
       = Throw (RangeError "Invalid UTF-16 code unit"))).
  { intros tag s. destruct (encodeString s) as [bs'|e] eqn:Es; simpl.
    - split; [|intros Hno; by destruct (Hno _ eq_refl)].
      split; [|by eauto]. intros _. by apply encodeString_Ok in Es as [? _].
    - split; [|intros _; by rewrite (encodeString_Throw _ _ Es)].
      split; [by intros [bs ?]|]. intros Hall.
      assert (encodeString s = Ok (flat_map setUint16 s)) as Es'
        by (by apply encodeString_Ok).
      congruence. }
  destruct v as [|b|x|s|z|d|r]; cbn [encodeValue encoded_text];
    try (split; [split; [by constructor|by eauto]|];
         split; [intros Hno; by destruct (Hno _ eq_refl)|by eauto]).
  - destruct (Htext VALUE_TAGS.STRING s) as [H1 H2].
    split; [exact H1|]. split; [exact H2|done].
  - destruct (Htext VALUE_TAGS.BIGINT (integer_toString z)) as [H1 H2].
    split; [exact H1|]. split; [exact H2|].
    intros _. apply H1, integer_toString_encodable.
  - destruct (Htext VALUE_TAGS.REGEXP (RegExp_toString H r)) as [H1 H2].
    split; [exact H1|]. split; [exact H2|done].
Qed.

(** The string of the single code unit [0xFFFF]. *)
Lemma encodeValue_throws_only_for_code_units_witness :
  encodeValue node (VString [65535]) = Throw (RangeError "Invalid UTF-16 code unit").
Proof.
  apply (encodeValue_throws_only_for_code_units node (VString [65535])).
  intros bs. vm_compute. discriminate.
Defined.

(** X10: the tag of an encoded scalar is none of the composite markers:
    in both revisions a stored scalar is read back through [decodeValue]
    and never as an array or record handle. *)
Theorem stored_scalar_is_not_a_handle (rev : revision) (H : host) (s : Scalar)
    (ev : bytes) (inner : Inner) (prefix : Path) :
  encodeValue H s = Ok ev ->
  instanciate rev H ev inner prefix = (v ← decodeValue H ev; Ok (StoredScalar v)) /\
  (forall t, ev <> marker rev t) /\
  (forall i, instanciate rev H ev inner prefix <> Ok (StoredComplex i)).
Proof.
  intros Henc. pose proof (instanciate_scalar rev H s ev inner prefix Henc) as Hi.
  split; [done|]. split.
  - intros t ->. apply encodeValue_tag in Henc as (tag & body & Hm & Htag).
    destruct rev, t; injection Hm as <- <-; vm_compute in Htag; destruct Htag; done.
  - intros i. rewrite Hi. by destruct (decodeValue H ev).
Qed.

Lemma stored_scalar_is_not_a_handle_witness :
  instanciate proxy_ts node [1] table [SNum 0]
    = (v ← decodeValue node [1]; Ok (StoredScalar v)) /\
  (forall t, [1] <> marker proxy_ts t) /\
  (forall i, instanciate proxy_ts node [1] table [SNum 0] <> Ok (StoredComplex i)).
Proof.
  apply (stored_scalar_is_not_a_handle proxy_ts node (VBoolean true)).
  reflexivity.
Defined.

(** ** Writes of scalars *)

Lemma deleteRange_In rs lower upper r :
  In r (deleteRange rs lower upper) <-> In r rs /\ in_range lower upper r.1 = false.
Proof. unfold deleteRange. rewrite filter_In, negb_true_iff. done. Qed.

Lemma has_path_deleteRange rs lower upper path :
  in_range lower upper path = true -> has_path (deleteRange rs lower upper) path = false.
Proof.
  intros Hin. destruct (has_path _ path) eqn:E; [|done].
  apply has_path_In in E as [v Hv]. apply deleteRange_In in Hv as [_ Hv]. simpl in Hv.
  congruence.
Qed.

Lemma encoded_child_range rev P seg encoded :
  encodePath (P ++ [seg]) = Ok encoded -> last_byte encoded <> 255 ->
  forall k, in_range encoded (increment rev encoded) k = true <-> encoded `prefix_of` k.
Proof.
  intros Henc Hlast k. apply encodePath_Ok in Henc as (_ & -> & _).
  destruct (last_byte_path_bytes (P ++ [seg])) as [Hne Hx]; [by destruct P|].
  apply in_range_increment_iff; [done|lia].
Qed.

Lemma set_scalar_run rev H hp fuel target prop s encoded ev st :
  CYCLES target = None ->
  transaction (DATABASE st) = None ->
  is_length target prop = false ->
  encodePath (PREFIX target ++ [key prop]) = Ok encoded ->
  has_path (deleteRange (rows (DATABASE st)) encoded (increment rev encoded)) encoded
    = false ->
  encodeValue H s = Ok ev ->
  set rev H hp (S fuel) target prop (Prim s) st =
  Return true
    {| DATABASE :=
         {| rows := rows_insert encoded ev
                      (deleteRange (rows (DATABASE st)) encoded (increment rev encoded));
            transaction := None |};
       weaksets := weaksets st |}.
Proof.
  intros Hc Hidle Hl Henc Hno Hev. unfold set, set_descriptor. rewrite Hl.
  rewrite defineProperty_S. unfold defineProperty_body; simpl value. rewrite Henc.
  unfold define_try, define_scalar, composite, invalid_descriptor, encodeValue_any.
  rewrite Hl, Hc. simpl. rewrite Hev.
  cbv [mbind M_bind mret M_ret try_catch_rethrow when lift BEGIN ROLLBACK COMMIT
       delete_run insert_run get_rows set_rows set_database throw]; simpl.
  rewrite Hidle. simpl. rewrite Hno. simpl. done.
Qed.

Lemma selectOne_rows_insert_ne path v rs path' :
  path' <> path -> selectOne (rows_insert path v rs) path' = selectOne rs path'.
Proof.
  intros Hne. unfold selectOne. induction rs as [|r rs IH]; simpl.
  - by rewrite bool_decide_eq_false_2.
  - destruct (blob_ltb path r.1); simpl.
    + by rewrite (bool_decide_eq_false_2 (path = path')).
    + destruct (bool_decide (r.1 = path')); [done|]. exact IH.
Qed.

Lemma selectOne_deleteRange_out rs lower upper path :
  in_range lower upper path = false ->
  selectOne (deleteRange rs lower upper) path = selectOne rs path.
Proof.
  intros Hout. unfold selectOne, deleteRange. induction rs as [|r rs IH]; simpl; [done|].
  destruct (in_range lower upper r.1) eqn:Er; simpl.
  - rewrite IH. rewrite (bool_decide_eq_false_2 (r.1 = path)); [done|].
    intros Heq. rewrite Heq in Er. congruence.
  - destruct (bool_decide (r.1 = path)); [done|]. exact IH.
Qed.

Lemma in_range_last_255 rev b k :
  b <> [] -> last_byte b = 255 -> in_range b (increment rev b) k = false.
Proof.
  intros Hb Hx. destruct (snoc_last_byte b Hb) as [pre Hpre]. rewrite Hx in Hpre. subst b.
  destruct (in_range (pre ++ [255]) _ k) eqn:E; [|done].
  apply in_range_nonempty in E.
  rewrite increment_nonempty, increment_last_snoc, blob_ltb_app_l in E
    by (by destruct pre).
  done.
Qed.

Lemma wf_path_key P prop e :
  wf_path P -> is_jsstring prop ->
  encodePath (P ++ [key prop]) = Ok e -> wf_path (P ++ [key prop]).
Proof.
  intros HP Hprop Henc. apply Forall_app. split; [done|].
  apply Forall_cons. split; [|constructor].
  destruct (key prop) as [n|s] eqn:Ek.
  - apply key_SNum in Ek as [_ ?]. simpl. lia.
  - apply key_SStr in Ek as ->. apply encodePath_Ok in Henc as (Hs & _ & _).
    apply Forall_app in Hs as [_ Hs]. apply Forall_cons in Hs as [Hs _].
    simpl in *. apply Forall_forall. intros c Hc.
    unfold is_jsstring in Hprop.
    rewrite Forall_forall in Hs, Hprop. specialize (Hs c Hc). specialize (Hprop c Hc).
    simpl in *. lia.
Qed.

(** The rows outside the subtree of the key written are as before. *)
Lemma replaced_subtree_frame rev P seg encoded ev rs q bq :
  wf_path (P ++ [seg]) -> wf_path q ->
  encodePath (P ++ [seg]) = Ok encoded -> encodePath q = Ok bq ->
  ~ (P ++ [seg]) `prefix_of` q ->
  selectOne (rows_insert encoded ev (deleteRange rs encoded (increment rev encoded))) bq
  = selectOne rs bq.
Proof.
  intros Hwf Hq Henc Hbq Hnot.
  assert (Hnp : ~ encoded `prefix_of` bq).
  { intros Hp. apply Hnot.
    by apply (path_prefix_iff _ _ _ _ Hwf Hq Henc Hbq). }
  rewrite selectOne_rows_insert_ne by (intros ->; by apply Hnp).
  apply selectOne_deleteRange_out.
  pose proof Henc as He. apply encodePath_Ok in He as (_ & -> & _).
  destruct (last_byte_path_bytes (P ++ [seg])) as [Hne Hx]; [by destruct P|].
  destruct (decide (last_byte (path_bytes (P ++ [seg])) = 255)) as [E|E].
  - by apply in_range_last_255.
  - apply not_true_is_false. intros Hin. apply Hnp.
    by apply (in_range_increment_iff rev _ _ Hne ltac:(lia)).
Qed.

(** X11: an assignment of a scalar through a handle, outside a
    transaction, whose key and value encode and whose encoded key does not
    end in the byte [0xFF], returns [true] whatever the table held at the
    key: the row at the key now holds the encoded value, no row is left
    below it, the transaction is committed, and [get] at the key returns
    the decoded value, which is the value assigned unless it is a regular
    expression. *)
Theorem set_scalar_succeeds_and_replaces (rev : revision) (H : host) (hp : heap)
    (fuel : nat) (target : Inner) (prop : jsstring) (s : Scalar)
    (encoded ev : bytes) (st : state) :
  CYCLES target = None ->
  transaction (DATABASE st) = None ->
  is_length target prop = false ->
  encodePath (PREFIX target ++ [key prop]) = Ok encoded ->
  last_byte encoded <> 255 ->
  encodeValue H s = Ok ev ->
  fuel <> 0%nat ->
  exists st',
    set rev H hp fuel target prop (Prim s) st = Return true st' /\
    transaction (DATABASE st') = None /\
    selectOne (rows (DATABASE st')) encoded = Some ev /\
    (forall ext v, ext <> [] -> ~ In (encoded ++ ext, v) (rows (DATABASE st'))) /\
    get rev H (rows (DATABASE st')) target prop =
      (v ← decodeValue H ev; Ok (GotValue (StoredScalar v))) /\
    (wf_scalar s -> is_RegExp s = false ->
       get rev H (rows (DATABASE st')) target prop = Ok (GotValue (StoredScalar s))).
Proof.
  intros Hc Hidle Hl Henc Hlast Hev Hfuel.
  destruct fuel as [|fuel]; [done|].
  pose proof (encoded_child_range rev _ _ _ Henc Hlast) as Hrange.
  assert (Hno : has_path (deleteRange (rows (DATABASE st)) encoded (increment rev encoded))
                  encoded = false).
  { apply has_path_deleteRange, Hrange. exists []. by rewrite app_nil_r. }
  pose proof (set_scalar_run rev H hp fuel target prop s encoded ev st
                Hc Hidle Hl Henc Hno Hev) as Hrun.
  eexists. split; [exact Hrun|]. simpl.
  split; [done|]. split; [by apply selectOne_rows_insert|]. split.
  { intros ext v Hext Hin. apply rows_insert_In_inv in Hin as [Heq|Hin].
    - injection Heq as Heq _. rewrite <- (app_nil_r encoded) in Heq at 2.
      apply app_inv_head in Heq. done.
    - apply deleteRange_In in Hin as [_ Hout]. simpl in Hout.
      assert (in_range encoded (increment rev encoded) (encoded ++ ext) = true)
        by (apply Hrange; by exists ext).
      congruence. }
  destruct (get_after_set_scalar _ _ _ _ _ _ _ _ _ _ Hc Hl Hrun) as (ev' & Hev' & Hget).
  simpl in Hget. assert (ev' = ev) as -> by congruence.
  split; [done|]. intros Hwf Hre. rewrite Hget.
  by rewrite (scalar_round_trip _ _ _ Hwf Hre Hev).
Qed.

(** [table.a = true] over the rows of the array stored at ["a"]. *)
Lemma set_scalar_succeeds_and_replaces_witness :
  exists st',
    set proxy_ts node ∅ 1 table (js "a") (Prim (VBoolean true))
      {| DATABASE := {| rows := example_rows; transaction := None |}; weaksets := [] |}
      = Return true st' /\
    transaction (DATABASE st') = None /\
    selectOne (rows (DATABASE st')) [1; 0; 97; 255; 254] = Some [1] /\
    (forall ext v, ext <> [] ->
       ~ In ([1; 0; 97; 255; 254] ++ ext, v) (rows (DATABASE st'))) /\
    get proxy_ts node (rows (DATABASE st')) table (js "a") =
      (v ← decodeValue node [1]; Ok (GotValue (StoredScalar v))) /\
    (wf_scalar (VBoolean true) -> is_RegExp (VBoolean true) = false ->
       get proxy_ts node (rows (DATABASE st')) table (js "a")
       = Ok (GotValue (StoredScalar (VBoolean true)))).
Proof.
  apply set_scalar_succeeds_and_replaces.
  - reflexivity.
  - reflexivity.
  - reflexivity.
  - reflexivity.
  - vm_compute. discriminate.
  - reflexivity.
  - discriminate.
Defined.

(** X12: a successful assignment of a scalar at a key changes nothing
    outside the subtree of that key: the row of every path that does not
    extend the path of the key is as before, and so [get] at every other
    key of the handle (other than the length of an array) returns what
    it returned before. *)
Theorem set_scalar_keeps_the_other_keys (rev : revision) (H : host) (hp : heap)
    (fuel : nat) (target : Inner) (prop : jsstring) (s : Scalar)
    (st st' : state) (b : bool) :
  CYCLES target = None ->
  is_length target prop = false ->
  wf_path (PREFIX target) -> is_jsstring prop ->
  set rev H hp fuel target prop (Prim s) st = Return b st' ->
  (forall q bq, wf_path q -> encodePath q = Ok bq ->
     ~ (PREFIX target ++ [key prop]) `prefix_of` q ->
     selectOne (rows (DATABASE st')) bq = selectOne (rows (DATABASE st)) bq) /\
  (forall prop', is_jsstring prop' -> key prop' <> key prop ->
     is_length target prop' = false ->
     get rev H (rows (DATABASE st')) target prop'
     = get rev H (rows (DATABASE st)) target prop').
Proof.
  intros Hc Hl HP Hprop Hset.
  destruct (set_scalar_Return _ _ _ _ _ _ _ _ _ _ Hc Hl Hset)
    as (encoded & ev & Henc & Hev & _ & _ & Hdb).
  pose proof (wf_path_key _ _ _ HP Hprop Henc) as Hwf.
  assert (Hframe : forall q bq, wf_path q -> encodePath q = Ok bq ->
            ~ (PREFIX target ++ [key prop]) `prefix_of` q ->
            selectOne (rows (DATABASE st')) bq = selectOne (rows (DATABASE st)) bq).
  { intros q bq Hq Hbq Hnot. rewrite Hdb. simpl.
    by apply (replaced_subtree_frame rev (PREFIX target) (key prop) encoded ev _ q). }
  split; [exact Hframe|].
  intros prop' Hprop' Hne Hl'. unfold get, getOwnPropertyDescriptor. rewrite Hl'.
  destruct (encodePath (PREFIX target ++ [key prop'])) as [enc'|e] eqn:Henc'; [|done].
  simpl. rewrite (Hframe (PREFIX target ++ [key prop']) enc'); [done| |done|].
  - by eapply wf_path_key.
  - intros Hp. apply prefix_app_inv in Hp. destruct Hp as [r Hr].
    injection Hr as Hr _. by apply Hne.
Qed.

(** [table.b = null] over the rows of the array stored at ["a"]. *)
Lemma set_scalar_keeps_the_other_keys_witness :
  (forall q bq, wf_path q -> encodePath q = Ok bq ->
     ~ (PREFIX table ++ [key (js "b")]) `prefix_of` q ->
     selectOne
       (rows_insert [1; 0; 98; 255; 254] [0] example_rows) bq
     = selectOne example_rows bq) /\
  (forall prop', is_jsstring prop' -> key prop' <> key (js "b") ->
     is_length table prop' = false ->
     get proxy_ts node (rows_insert [1; 0; 98; 255; 254] [0] example_rows) table prop'
     = get proxy_ts node example_rows table prop').
Proof.
  apply (set_scalar_keeps_the_other_keys proxy_ts node ∅ 1 table (js "b") VNull
           {| DATABASE := {| rows := example_rows; transaction := None |};
              weaksets := [] |}
           {| DATABASE := {| rows := rows_insert [1; 0; 98; 255; 254] [0] example_rows;
                             transaction := None |};
              weaksets := [] |} true).
  - reflexivity.
  - reflexivity.
  - constructor.
  - repeat constructor; simpl; lia.
  - reflexivity.
Defined.

(** ** Deleting *)

Lemma length_deleteRange rs lower upper :
  (0 < length rs - length (deleteRange rs lower upper))%nat <->
  exists r, In r rs /\ in_range lower upper r.1 = true.
Proof.
  unfold deleteRange. induction rs as [|r rs IH]; simpl.
  - split; [lia|by intros (? & [] & _)].
  - pose proof (filter_length_le (fun r0 : row => negb (in_range lower upper r0.1)) rs).
    destruct (in_range lower upper r.1) eqn:Er; simpl.
    + split; [|lia]. intros _. exists r. auto.
    + rewrite IH. split.
      * intros (r' & ? & ?). exists r'. auto.
      * intros (r' & [<-|?] & Hr'); [congruence|]. by exists r'.
Qed.

(** X13: [delete handle[k]] (for a key other than the length of an
    array, whose encoding does not end in the byte [0xFF]) removes the
    row of the key and every row below it and no other row, returns
    whether a row was removed, and leaves the transaction state as it is;
    afterwards [get] finds no own property at the key.  Assigning
    [undefined] does the same and returns [true]. *)
Theorem delete_removes_the_subtree (rev : revision) (H : host) (target : Inner)
    (prop : jsstring) (encoded : bytes) (st : state) :
  is_length target prop = false ->
  encodePath (PREFIX target ++ [key prop]) = Ok encoded ->
  last_byte encoded <> 255 ->
  exists b st',
    deleteProperty rev target (PString prop) st = Return b st' /\
    (b = true <-> exists ext v, In (encoded ++ ext, v) (rows (DATABASE st))) /\
    (forall ext v, ~ In (encoded ++ ext, v) (rows (DATABASE st'))) /\
    (forall k v, ~ encoded `prefix_of` k ->
       (In (k, v) (rows (DATABASE st')) <-> In (k, v) (rows (DATABASE st)))) /\
    transaction (DATABASE st') = transaction (DATABASE st) /\
    get rev H (rows (DATABASE st')) target prop =
      Ok (match PROTOTYPE target with
          | record => GotUndefined
          | array => GotFromArrayPrototype
          end) /\
    (forall hp fuel, fuel <> 0%nat ->
       set rev H hp fuel target prop Undefined st = Return true st').
Proof.
  intros Hl Henc Hlast.
  pose proof (encoded_child_range rev _ _ _ Henc Hlast) as Hrange.
  set (rs' := deleteRange (rows (DATABASE st)) encoded (increment rev encoded)).
  exists (bool_decide (0 < length (rows (DATABASE st)) - length rs')%nat),
    {| DATABASE := {| rows := rs'; transaction := transaction (DATABASE st) |};
       weaksets := weaksets st |}.
  assert (Hrun : deleteProperty rev target (PString prop) st =
            Return (bool_decide (0 < length (rows (DATABASE st)) - length rs')%nat)
              {| DATABASE := {| rows := rs'; transaction := transaction (DATABASE st) |};
                 weaksets := weaksets st |}).
  { unfold deleteProperty. rewrite Hl, Henc. reflexivity. }
  split; [exact Hrun|]. simpl. split.
  { rewrite bool_decide_eq_true. unfold rs'. rewrite length_deleteRange. split.
    - intros ([k v] & Hin & Hk). simpl in Hk. apply Hrange in Hk as [ext ->]. eauto.
    - intros (ext & v & Hin). exists (encoded ++ ext, v). split; [done|].
      apply Hrange. by exists ext. }
  split.
  { intros ext v Hin. apply deleteRange_In in Hin as [_ Hout]. simpl in Hout.
    assert (in_range encoded (increment rev encoded) (encoded ++ ext) = true)
      by (apply Hrange; by exists ext).
    congruence. }
  split.
  { intros k v Hk. unfold rs'. rewrite deleteRange_In. simpl. split; [by intros [? _]|].
    intros Hin. split; [done|]. apply not_true_is_false. intros Hr. by apply Hk, Hrange. }
  split; [done|]. split.
  { unfold get, getOwnPropertyDescriptor. rewrite Hl, Henc. simpl.
    assert (selectOne rs' encoded = None) as ->; [|by destruct (PROTOTYPE target)].
    apply selectOne_None, has_path_deleteRange, Hrange. exists []. by rewrite app_nil_r. }
  intros hp fuel Hfuel. destruct fuel as [|fuel]; [done|].
  unfold set, set_descriptor. rewrite Hl, defineProperty_S.
  unfold defineProperty_body. cbn [value].
  unfold mbind, M_bind. by rewrite Hrun.
Qed.

(** [delete table.a] over the rows of the array stored at ["a"]. *)
Lemma delete_removes_the_subtree_witness :
  exists b st',
    deleteProperty proxy_ts table (PString (js "a"))
      {| DATABASE := {| rows := example_rows; transaction := None |}; weaksets := [] |}
      = Return b st' /\
    (b = true <-> exists ext v, In ([1; 0; 97; 255; 254] ++ ext, v) example_rows) /\
    (forall ext v, ~ In ([1; 0; 97; 255; 254] ++ ext, v) (rows (DATABASE st'))) /\
    (forall k v, ~ [1; 0; 97; 255; 254] `prefix_of` k ->
       (In (k, v) (rows (DATABASE st')) <-> In (k, v) example_rows)) /\
    transaction (DATABASE st') = None /\
    get proxy_ts node (rows (DATABASE st')) table (js "a") = Ok GotUndefined /\
    (forall hp fuel, fuel <> 0%nat ->
       set proxy_ts node hp fuel table (js "a") Undefined
         {| DATABASE := {| rows := example_rows; transaction := None |}; weaksets := [] |}
       = Return true st').
Proof.
  apply (delete_removes_the_subtree proxy_ts node table (js "a") [1; 0; 97; 255; 254]
           {| DATABASE := {| rows := example_rows; transaction := None |};
              weaksets := [] |}).
  - reflexivity.
  - reflexivity.
  - vm_compute. discriminate.
Defined.

(** ** The length of an array *)

Lemma path_bytes_snoc_num_app P i q :
  path_bytes (P ++ SNum i :: q) = path_bytes P ++ 0 :: setUint32 i ++ path_bytes q.
Proof.
  rewrite path_bytes_app, path_bytes_cons. done.
Qed.

Lemma numeric_subtree_in_range P n m i q :
  0 <= n < 4294967296 -> 0 <= m < 4294967296 -> 0 <= i < 4294967296 ->
  in_range (path_bytes (P ++ [SNum n])) (path_bytes (P ++ [SNum m]))
    (path_bytes (P ++ SNum i :: q))
  = (n <=? i) && (i <? m).
Proof.
  intros Hn Hm Hi. unfold in_range, blob_leb.
  rewrite !path_bytes_snoc_num, path_bytes_snoc_num_app, !blob_ltb_app_l.
  cbn [blob_ltb]. change (0 <? 0) with false. change (0 =? 0) with true. cbn [orb andb].
  rewrite <- (app_nil_r (setUint32 n)), <- (app_nil_r (setUint32 m)).
  rewrite !setUint32_ltb by done. rewrite blob_ltb_nil_r, andb_false_r, orb_false_r.
  rewrite andb_false_r, orb_false_r.
  f_equal. destruct (Z.ltb_spec i n), (Z.leb_spec n i); (done || lia).
Qed.

Lemma is_length_array target :
  PROTOTYPE target = array -> is_length target (js "length") = true.
Proof. intros Harr. unfold is_length. rewrite Harr. reflexivity. Qed.

Lemma set_length_run rev H hp fuel target v x n encL lower upper st :
  PROTOTYPE target = array ->
  CYCLES target = None ->
  transaction (DATABASE st) = None ->
  v <> Undefined ->
  Number_ H v = Ok x -> float_to_Z x = Some n -> 0 <= n < 4294967295 ->
  encodePath (PREFIX target ++ [key (js "length")]) = Ok encL ->
  encodePath (PREFIX target ++ [SNum n]) = Ok lower ->
  encodePath (PREFIX target ++ [SNum 4294967295]) = Ok upper ->
  set rev H hp (S fuel) target (js "length") v st =
  Return true
    {| DATABASE :=
         {| rows := deleteRange
                      (deleteRange (rows (DATABASE st)) encL (increment rev encL))
                      lower upper;
            transaction := None |};
       weaksets := weaksets st |}.
Proof.
  intros Harr Hc Hidle Hv Hx Hn Hrange HencL Hlower Hupper.
  pose proof (is_length_array target Harr) as Hl.
  unfold set, set_descriptor. rewrite Hl, defineProperty_S.
  unfold defineProperty_body. cbn [value]. rewrite HencL.
  unfold define_try, define_length. cbn [value]. rewrite Hl, Hc, Hx.
  assert (isSafeInteger x && (0 <=? n) && (n <? 4294967295) = true) as Hok.
  { unfold isSafeInteger. rewrite Hn.
    repeat (apply andb_true_intro; split); [apply Z.leb_le|apply Z.leb_le|apply Z.ltb_lt]; lia. }
  destruct v; try done;
    cbv [mbind M_bind mret M_ret try_catch_rethrow when lift BEGIN ROLLBACK COMMIT
         delete_run insert_run get_rows set_rows set_database throw]; simpl;
    rewrite Hidle; simpl; rewrite Hn, Hok; simpl; rewrite Hlower, Hupper; done.
Qed.

(** X14: assigning a length [n] (a value whose [Number] is an integer
    with [0 <= n < 2^32 - 1]) to an array handle, outside a transaction,
    returns [true] and truncates: the rows of the elements from [n] on,
    with everything below them, are removed; the rows of the elements
    below [n] are kept; no row is added.  An array holding the elements
    [0 .. m-1] holds the elements [0 .. min(m, n) - 1] afterwards: a
    length above the current one does not extend the array. *)
Theorem set_length_truncates (rev : revision) (H : host) (hp : heap) (fuel : nat)
    (target : Inner) (v : Value) (x : spec_float) (n : Z) (st : state) :
  PROTOTYPE target = array ->
  CYCLES target = None ->
  transaction (DATABASE st) = None ->
  wf_path (PREFIX target) ->
  Z.of_nat (length (path_bytes (PREFIX target))) + 15 <= maxByteLength ->
  v <> Undefined ->
  Number_ H v = Ok x -> float_to_Z x = Some n -> 0 <= n < 4294967295 ->
  fuel <> 0%nat ->
  exists st',
    set rev H hp fuel target (js "length") v st = Return true st' /\
    transaction (DATABASE st') = None /\
    (forall i q val, n <= i < 4294967295 ->
       ~ In (path_bytes (PREFIX target ++ SNum i :: q), val) (rows (DATABASE st'))) /\
    (forall i q val, 0 <= i < n ->
       In (path_bytes (PREFIX target ++ SNum i :: q), val) (rows (DATABASE st)) ->
       In (path_bytes (PREFIX target ++ SNum i :: q), val) (rows (DATABASE st'))) /\
    (forall r, In r (rows (DATABASE st')) -> In r (rows (DATABASE st))) /\
    (forall m, dense_array (rows (DATABASE st)) (PREFIX target) m ->
       dense_array (rows (DATABASE st')) (PREFIX target) (Z.min m n)).
Proof.
  intros Harr Hc Hidle HP Hlen Hv Hx Hn Hrange Hfuel.
  destruct fuel as [|fuel]; [done|].
  set (P := PREFIX target) in *.
  assert (Hkey : key (js "length") = SStr (js "length")) by (by vm_compute).
  assert (HencL : encodePath (P ++ [key (js "length")])
                  = Ok (path_bytes (P ++ [SStr (js "length")]))).
  { rewrite Hkey. apply encodePath_child; [done|repeat constructor; simpl; lia|].
    rewrite path_bytes_app, length_app. unfold maxByteLength in *.
    change (length (path_bytes [SStr (js "length")])) with 15%nat. lia. }
  assert (Hlower : encodePath (P ++ [SNum n]) = Ok (path_bytes (P ++ [SNum n]))).
  { apply encodePath_child; [done|simpl; lia|].
    rewrite length_path_bytes_snoc_num. unfold maxByteLength in *. lia. }
  assert (Hupper : encodePath (P ++ [SNum 4294967295])
                   = Ok (path_bytes (P ++ [SNum 4294967295]))).
  { apply encodePath_child; [done|simpl; lia|].
    rewrite length_path_bytes_snoc_num. unfold maxByteLength in *. lia. }
  pose proof (set_length_run rev H hp fuel target v x n _ _ _ st
                Harr Hc Hidle Hv Hx Hn Hrange HencL Hlower Hupper) as Hrun.
  eexists. split; [exact Hrun|]. cbn [DATABASE rows transaction].
  set (encL := path_bytes (P ++ [SStr (js "length")])) in *.
  assert (Hb : forall i q val, n <= i < 4294967295 ->
            ~ In (path_bytes (P ++ SNum i :: q), val)
                (deleteRange (deleteRange (rows (DATABASE st)) encL (increment rev encL))
                   (path_bytes (P ++ [SNum n])) (path_bytes (P ++ [SNum 4294967295])))).
  { intros i q val Hi Hin. apply deleteRange_In in Hin as [_ Hout]. simpl in Hout.
    rewrite numeric_subtree_in_range in Hout by lia.
    apply andb_false_iff in Hout as [Hout|Hout];
      [apply Z.leb_gt in Hout|apply Z.ltb_ge in Hout]; lia. }
  assert (Hk : forall i q val, 0 <= i < n ->
            In (path_bytes (P ++ SNum i :: q), val) (rows (DATABASE st)) ->
            In (path_bytes (P ++ SNum i :: q), val)
              (deleteRange (deleteRange (rows (DATABASE st)) encL (increment rev encL))
                 (path_bytes (P ++ [SNum n])) (path_bytes (P ++ [SNum 4294967295])))).
  { intros i q val Hi Hin. apply deleteRange_In. simpl. split.
    - apply deleteRange_In. simpl. split; [done|].
      apply not_true_is_false. intros Hr.
      apply (in_range_increment_iff rev encL) in Hr.
      + destruct Hr as [ext Hext]. unfold encL in Hext.
        rewrite path_bytes_snoc_num_app, path_bytes_app, <- app_assoc in Hext.
        apply app_inv_head in Hext. discriminate Hext.
      + unfold encL. rewrite path_bytes_app. by destruct (path_bytes P).
      + unfold encL. rewrite path_bytes_snoc_string. unfold last_byte.
        rewrite last_snoc. simpl. lia.
    - rewrite numeric_subtree_in_range by lia.
      apply andb_false_iff. left. apply Z.leb_gt. lia. }
  assert (Hsub : forall r,
            In r (deleteRange (deleteRange (rows (DATABASE st)) encL (increment rev encL))
                    (path_bytes (P ++ [SNum n])) (path_bytes (P ++ [SNum 4294967295]))) ->
            In r (rows (DATABASE st))).
  { intros r Hin. apply deleteRange_In in Hin as [Hin _].
    by apply deleteRange_In in Hin as [Hin _]. }
  split; [done|]. split; [exact Hb|]. split; [exact Hk|]. split; [exact Hsub|].
  intros m Hdense i Hi. split.
  - intros [val Hin]. assert (i < m) by (apply Hdense; [done|]; exists val; by apply Hsub).
    destruct (Z.lt_ge_cases i n) as [?|Hge]; [lia|].
    exfalso. apply (Hb i [] val); [lia|done].
  - intros Hlt. destruct (proj2 (Hdense i Hi)) as [val Hin]; [lia|].
    exists val. apply (Hk i [] val); [lia|done].
Qed.

(** [a.length = 1] for the array [[1, 2]] stored at ["a"]. *)
Lemma set_length_truncates_witness :
  exists st',
    set proxy_ts node ∅ 1 example_array (js "length") (Prim (VNumber (float_of_Z 1)))
      {| DATABASE := {| rows := example_rows; transaction := None |}; weaksets := [] |}
      = Return true st' /\
    transaction (DATABASE st') = None /\
    (forall i q val, 1 <= i < 4294967295 ->
       ~ In (path_bytes (PREFIX example_array ++ SNum i :: q), val) (rows (DATABASE st'))) /\
    (forall i q val, 0 <= i < 1 ->
       In (path_bytes (PREFIX example_array ++ SNum i :: q), val) example_rows ->
       In (path_bytes (PREFIX example_array ++ SNum i :: q), val) (rows (DATABASE st'))) /\
    (forall r, In r (rows (DATABASE st')) -> In r example_rows) /\
    (forall m, dense_array example_rows (PREFIX example_array) m ->
       dense_array (rows (DATABASE st')) (PREFIX example_array) (Z.min m 1)).
Proof.
  apply (set_length_truncates proxy_ts node ∅ 1 example_array
           (Prim (VNumber (float_of_Z 1))) (float_of_Z 1) 1
           {| DATABASE := {| rows := example_rows; transaction := None |};
              weaksets := [] |}).
  - reflexivity.
  - reflexivity.
  - reflexivity.
  - repeat constructor; simpl; lia.
  - vm_compute. discriminate.
  - discriminate.
  - reflexivity.
  - reflexivity.
  - lia.
  - discriminate.
Defined.



(** ** Descriptors *)

(** X16: [defineProperty] on a key other than the length of an array,
    with a value other than [undefined] and a descriptor that sets
    [enumerable], [configurable] or [writable] to [false], throws
    [TypeError("Invalid property descriptor")], whatever the value, and
    leaves the rows as they were. *)
Theorem defineProperty_rejects_invalid_descriptor (rev : revision) (H : host)
    (hp : heap) (fuel : nat) (target : Inner) (prop : jsstring)
    (desc : PropertyDescriptor) (encoded : bytes) (st : state) :
  CYCLES target = None ->
  transaction (DATABASE st) = None ->
  is_length target prop = false ->
  value desc <> Undefined ->
  invalid_descriptor desc = true ->
  encodePath (PREFIX target ++ [key prop]) = Ok encoded ->
  fuel <> 0%nat ->
  exists st',
    defineProperty rev H hp fuel target (PString prop) desc st
      = Raise (TypeError "Invalid property descriptor") st' /\
    rows (DATABASE st') = rows (DATABASE st) /\
    transaction (DATABASE st') = None.
Proof.
  intros Hc Hidle Hl Hv Hinv Henc Hfuel.
  destruct fuel as [|fuel]; [done|].
  rewrite defineProperty_S. unfold defineProperty_body. rewrite Henc.
  unfold define_try, define_scalar, define_composite, guard_cycles, new_WeakSet.
  rewrite Hl, Hc, Hinv.
  destruct (value desc) eqn:Ev; try done;
    destruct (composite hp _) as [[l' o]|];
    cbv [mbind M_bind mret M_ret try_catch_rethrow when lift BEGIN ROLLBACK COMMIT
         delete_run insert_run get_rows set_rows set_database throw]; simpl;
    rewrite Hidle; simpl; eexists; (split; [reflexivity|done]).
Qed.

(** [Object.defineProperty(table, "k", { value: null, writable: false })] *)
Lemma defineProperty_rejects_invalid_descriptor_witness :
  exists st',
    defineProperty proxy_ts node ∅ 1 table (PString (js "k"))
      {| value := Prim VNull; enumerable := None; configurable := None;
         writable := Some false |}
      {| DATABASE := {| rows := example_rows; transaction := None |}; weaksets := [] |}
      = Raise (TypeError "Invalid property descriptor") st' /\
    rows (DATABASE st') = example_rows /\
    transaction (DATABASE st') = None.
Proof.
  apply (defineProperty_rejects_invalid_descriptor proxy_ts node ∅ 1 table (js "k")
           {| value := Prim VNull; enumerable := None; configurable := None;
              writable := Some false |}
           [1; 0; 107; 255; 254]
           {| DATABASE := {| rows := example_rows; transaction := None |};
              weaksets := [] |}).
  - reflexivity.
  - reflexivity.
  - reflexivity.
  - discriminate.
  - reflexivity.
  - reflexivity.
  - discriminate.
Defined.

(** ** Termination *)

(** X17: an outermost write ([set], [defineProperty] or [delete]) of any
    source graph, cyclic or not, returns or throws: the re-entry through
    [set] is never deeper than the number of objects of the graph, since
    the cycle guard stops at an object it has seen. *)
Theorem write_returns_or_throws (rev : revision) (H : host) (hp : heap) (fuel : nat)
    (target : Inner) (w : write) (st : state) :
  CYCLES target = None -> (size hp < fuel)%nat ->
  (exists b st', run_write rev H hp fuel target w st = Return b st') \/
  (exists e st', run_write rev H hp fuel target w st = Raise e st').
Proof.
  intros Hc Hfuel.
  assert (Hrun : run_write rev H hp fuel target w st <> OutOfFuel).
  { destruct w as [prop v|prop desc|prop]; simpl.
    - by apply defineProperty_terminates.
    - by apply defineProperty_terminates.
    - by apply total_deleteProperty. }
  destruct (run_write rev H hp fuel target w st) as [b st'|e st'|]; [left|right|done]; eauto.
Qed.

(** [table.k = a] for the record [a] that holds itself. *)
Lemma write_returns_or_throws_witness :
  (exists b st',
     run_write proxy_ts node example_heap_cyclic 2 table
       (WSet (js "k") (Ref 1%positive)) empty_state = Return b st') \/
  (exists e st',
     run_write proxy_ts node example_heap_cyclic 2 table
       (WSet (js "k") (Ref 1%positive)) empty_state = Raise e st').
Proof.
  apply write_returns_or_throws.
  - reflexivity.
  - vm_compute. lia.
Defined.

(** ** Composite writes *)

Section Relation.
Variable R : state -> state -> Prop.
Hypothesis R_refl : forall st, R st st.
Hypothesis R_trans : forall st1 st2 st3, R st1 st2 -> R st2 st3 -> R st1 st3.

Lemma rel_mret {A} (a : A) : post (mret a) R.
Proof. intros st. apply R_refl. Qed.

Lemma rel_throw {A} (e : exn) : post (throw e : M A) R.
Proof. intros st. apply R_refl. Qed.

Lemma rel_lift {A} (r : result A) : post (lift r) R.
Proof. destruct r; [apply rel_mret|apply rel_throw]. Qed.

Lemma rel_bind {A B} (m : M A) (k : A -> M B) :
  post m R -> (forall a, post (k a) R) -> post (m ≫= k) R.
Proof.
  intros Hm Hk st. unfold mbind, M_bind. specialize (Hm st).
  destruct (m st) as [a st'|e st'|]; [|done..].
  specialize (Hk a st'). destruct (k a st'); [by eapply R_trans..|done].
Qed.

Lemma rel_for_of {A} (xs : list A) (body : A -> M unit) :
  (forall x, In x xs -> post (body x) R) -> post (for_of xs body) R.
Proof.
  induction xs as [|x xs IH]; intros Hbody; simpl; [apply rel_mret|].
  apply rel_bind; [apply Hbody; by left|]. intros _. apply IH.
  intros y Hy. apply Hbody. by right.
Qed.

Lemma rel_when b (m : M unit) : post m R -> post (when b m) R.
Proof. intros Hm. destruct b; [done|apply rel_mret]. Qed.

Lemma rel_try_catch_rethrow {A} (body : M A) (handler : M unit) :
  post body R -> post handler R -> post (try_catch_rethrow body handler) R.
Proof.
  intros Hb Hh st. unfold try_catch_rethrow. specialize (Hb st).
  destruct (body st) as [a st'|e st'|]; [done| |done].
  specialize (Hh st'). destruct (handler st'); [by eapply R_trans..|done].
Qed.

Lemma rel_weaksets {A} (m : M A) :
  (forall st, match m st with
              | Return _ st' | Raise _ st' => DATABASE st' = DATABASE st
              | OutOfFuel => True
              end) ->
  (forall st st', DATABASE st' = DATABASE st -> R st st') ->
  post m R.
Proof.
  intros Hm HR st. specialize (Hm st). destruct (m st); [by apply HR..|done].
Qed.
End Relation.

Lemma grows_refl st : grows st st.
Proof. by intros q v. Qed.

Lemma grows_trans st1 st2 st3 : grows st1 st2 -> grows st2 st3 -> grows st1 st3.
Proof. intros H1 H2 q v Hq. by apply H2, H1. Qed.

Lemma grows_database st st' : DATABASE st' = DATABASE st -> grows st st'.
Proof. intros Hd q v. by rewrite Hd. Qed.

Lemma grows_insert_run path v : post (insert_run path v) grows.
Proof.
  intros st. unfold insert_run, mbind, M_bind, get_rows.
  destruct (has_path (rows (DATABASE st)) path) eqn:Ehas; [apply grows_refl|].
  intros q w Hq. simpl. rewrite selectOne_rows_insert_ne; [done|].
  intros ->. apply selectOne_None in Ehas. congruence.
Qed.

Lemma grows_guard_cycles c l : post (guard_cycles (Some c) l) grows.
Proof.
  intros st. rewrite guard_cycles_Some.
  case_bool_decide; [apply grows_refl|]. by apply grows_database.
Qed.

Section GrowsBody.
Variable rev : revision.
Variable H : host.
Variable hp : heap.
Variable set_ : Inner -> jsstring -> Value -> M bool.
Variable c : nat.
Hypothesis wf : wf_heap hp.
Hypothesis defined : defined_heap hp.
Hypothesis grows_set_ :
  forall t k v, CYCLES t = Some c -> is_length t k = false -> v <> Undefined ->
    post (set_ t k v) grows.

Lemma grows_define_scalar desc encoded : post (define_scalar H desc encoded) grows.
Proof.
  unfold define_scalar. destruct (invalid_descriptor desc).
  - apply rel_throw, grows_refl.
  - apply rel_bind; [apply grows_trans|apply rel_lift, grows_refl|].
    intros ev. apply grows_insert_run.
Qed.

Lemma grows_define_composite target desc prefix encoded l o :
  CYCLES target = Some c -> hp !! l = Some o ->
  post (define_composite rev set_ target desc prefix encoded l o) grows.
Proof.
  intros Hc Hl. unfold define_composite. rewrite Hc.
  intros st. unfold mbind at 1, M_bind at 1. rewrite guard_cycles_Some.
  case_bool_decide; [apply grows_refl|].
  set (st0 := {| DATABASE := DATABASE st; weaksets := _ |}).
  assert (post (if invalid_descriptor desc
                then throw (TypeError "Invalid property descriptor")
                else _ ← insert_run encoded (marker rev (type o));
                     for_of (entries o)
                       (fun '(k, v) =>
                          _ ← set_ {| PROTOTYPE := type o; PREFIX := prefix;
                                      CYCLES := Some c |} k v; mret tt)) grows) as Hrest.
  { destruct (invalid_descriptor desc); [apply rel_throw, grows_refl|].
    apply rel_bind; [apply grows_trans|apply grows_insert_run|]. intros _.
    apply rel_for_of; [apply grows_refl|apply grows_trans|]. intros [k v] Hin.
    apply rel_bind; [apply grows_trans| |intros _; apply rel_mret, grows_refl].
    apply grows_set_; [done| |].
    - pose proof (wf_heap_is_length hp l o prefix c wf Hl) as Hlen.
      rewrite List.Forall_forall in Hlen. by apply (Hlen (k, v)).
    - pose proof (defined l o Hl) as Hdef.
      rewrite List.Forall_forall in Hdef. by apply (Hdef (k, v)). }
  specialize (Hrest st0).
  destruct (if invalid_descriptor desc then _ else _) as [a st2|e st2|]; [| |done].
  - eapply grows_trans; [|exact Hrest]. by apply grows_database.
  - eapply grows_trans; [|exact Hrest]. by apply grows_database.
Qed.

Lemma grows_defineProperty_body target p desc :
  CYCLES target = Some c -> is_length target p = false -> value desc <> Undefined ->
  post (defineProperty_body rev H hp set_ target (PString p) desc) grows.
Proof.
  intros Hc Hl Hv. unfold defineProperty_body.
  assert (post (encoded ← lift (encodePath (PREFIX target ++ [key p]));
                _ ← try_catch_rethrow
                      (define_try rev H hp set_ target p desc
                         (PREFIX target ++ [key p]) encoded)
                      (when (bool_decide (CYCLES target = None)) ROLLBACK);
                _ ← when (bool_decide (CYCLES target = None)) COMMIT;
                mret true) grows) as Hmain.
  { apply rel_bind; [apply grows_trans|apply rel_lift, grows_refl|]. intros encoded.
    rewrite Hc. rewrite (bool_decide_eq_false_2 (Some c = None)) by done.
    apply rel_bind; [apply grows_trans| |].
    - apply rel_try_catch_rethrow; [apply grows_trans| |apply rel_mret, grows_refl].
      unfold define_try. rewrite Hc, Hl.
      rewrite (bool_decide_eq_false_2 (Some c = None)) by done.
      apply rel_bind; [apply grows_trans|apply rel_mret, grows_refl|]. intros _.
      destruct (composite hp (value desc)) as [[l o]|] eqn:Ecomp.
      + apply composite_Some in Ecomp as [_ Ho]. by apply grows_define_composite.
      + apply grows_define_scalar.
    - intros _. apply rel_bind; [apply grows_trans|apply rel_mret, grows_refl|].
      intros _. apply rel_mret, grows_refl. }
  by destruct (value desc).
Qed.
End GrowsBody.

(** A write nested in the write of a composite with no [undefined]
    entry only adds rows. *)
Lemma grows_defineProperty_nested rev H hp fuel c t k v :
  wf_heap hp -> defined_heap hp ->
  CYCLES t = Some c -> is_length t k = false -> v <> Undefined ->
  post (defineProperty rev H hp fuel t (PString k) (set_descriptor t k v)) grows.
Proof.
  intros wf Hdef. revert t k v. induction fuel as [|fuel IH]; intros t k v Hc Hl Hv.
  { by intros st. }
  rewrite defineProperty_S. apply (grows_defineProperty_body rev H hp _ c wf Hdef).
  - intros t' k' v' Hc' Hl' Hv'. by apply IH.
  - done.
  - done.
  - by rewrite set_descriptor_value.
Qed.

Lemma stored_grows rev H hp rs rs' Q v :
  (forall q w, selectOne rs q = Some w -> selectOne rs' q = Some w) ->
  stored rev H hp rs Q v -> stored rev H hp rs' Q v.
Proof.
  intros Hgrow Hs. induction Hs as [Q s ev enc Henc Hev Hsel|Q l o enc Hl Henc Hsel _ IH].
  - eapply stored_scalar; eauto.
  - eapply stored_composite; eauto.
Qed.

Section StoredBody.
Variable rev : revision.
Variable H : host.
Variable hp : heap.
Variable set_ : Inner -> jsstring -> Value -> M bool.
Variable c : nat.
Hypothesis wf : wf_heap hp.
Hypothesis defined : defined_heap hp.
Hypothesis grows_set_ :
  forall t k v, CYCLES t = Some c -> is_length t k = false -> v <> Undefined ->
    post (set_ t k v) grows.
Hypothesis step_set_ :
  forall t k v, CYCLES t = Some c -> post (set_ t k v) (step c).
Hypothesis stored_set_ :
  forall t k v st b st',
    CYCLES t = Some c -> (c < length (weaksets st))%nat ->
    is_length t k = false -> v <> Undefined ->
    set_ t k v st = Return b st' ->
    stored rev H hp (rows (DATABASE st')) (PREFIX t ++ [key k]) v.

(** The loop over the entries of a composite leaves every entry stored. *)
Lemma for_of_stored o prefix es st u st' :
  Forall (fun e : jsstring * Value =>
            is_length (child o prefix c) e.1 = false /\ e.2 <> Undefined) es ->
  (c < length (weaksets st))%nat ->
  for_of es (loop_body set_ (child o prefix c)) st = Return u st' ->
  grows st st' /\
  forall k v, In (k, v) es -> stored rev H hp (rows (DATABASE st')) (prefix ++ [key k]) v.
Proof.
  intros Hes. revert st. induction Hes as [|[k0 v0] es [Hl0 Hv0] Hes IH]; intros st Hc.
  { intros [= _ <-]. split; [apply grows_refl|by intros k v []]. }
  simpl in Hl0, Hv0. rewrite for_of_cons, loop_body_eq.
  pose proof (grows_set_ (child o prefix c) k0 v0 eq_refl Hl0 Hv0 st) as Hg.
  pose proof (step_set_ (child o prefix c) k0 v0 eq_refl st) as Hstep.
  destruct (set_ (child o prefix c) k0 v0 st) as [b st1|e st1|] eqn:Eset; [|done..].
  intros Hloop.
  assert (c < length (weaksets st1))%nat as Hc1 by (by rewrite (step_length _ _ _ Hstep)).
  destruct (IH st1 Hc1 Hloop) as [Hg1 Hrest].
  split; [by eapply grows_trans|].
  intros k v [[= <- <-]|Hin]; [|by apply Hrest].
  eapply stored_grows; [exact Hg1|].
  by apply (stored_set_ (child o prefix c) k0 v0 st b st1).
Qed.

Lemma entries_defined o prefix l :
  hp !! l = Some o ->
  Forall (fun e : jsstring * Value =>
            is_length (child o prefix c) e.1 = false /\ e.2 <> Undefined) (entries o).
Proof.
  intros Hl. pose proof (wf_heap_is_length hp l o prefix c wf Hl) as Hlen.
  pose proof (defined l o Hl) as Hdef.
  rewrite List.Forall_forall in *. intros e He. split; [by apply Hlen|by apply Hdef].
Qed.

(** A nested write of a scalar that returns has inserted its row. *)
Lemma defineProperty_body_nested_scalar_Return target p desc st b st' :
  CYCLES target = Some c -> is_length target p = false ->
  value desc <> Undefined ->
  composite hp (value desc) = None ->
  defineProperty_body rev H hp set_ target (PString p) desc st = Return b st' ->
  exists encoded s ev,
    value desc = Prim s /\
    encodePath (PREFIX target ++ [key p]) = Ok encoded /\
    encodeValue H s = Ok ev /\
    has_path (rows (DATABASE st)) encoded = false /\
    rows (DATABASE st') = rows_insert encoded ev (rows (DATABASE st)).
Proof.
  intros Hc Hl Hv Hcomp. unfold defineProperty_body.
  destruct (encodePath (PREFIX target ++ [key p])) as [encoded|e] eqn:Henc;
    [|by destruct (value desc)].
  unfold define_try, define_scalar. rewrite Hc, Hl, Hcomp.
  rewrite (bool_decide_eq_false_2 (Some c = None)) by done.
  unfold encodeValue_any.
  destruct (value desc) as [|s| |] eqn:Ev; try done;
    destruct (invalid_descriptor desc);
    cbv [mbind M_bind mret M_ret try_catch_rethrow when lift throw]; simpl; try done.
  destruct (encodeValue H s) as [ev|e] eqn:Hev; simpl; [|done].
  destruct (insert_run encoded ev st) as [[] st1|e st1|] eqn:Ei; [|done..].
  intros [= _ <-]. apply insert_run_Return in Ei as (_ & _ & Hrows & Hno).
  by exists encoded, s, ev.
Qed.

(** A composite write that returns found no row at its path. *)
Lemma define_composite_fresh target desc prefix encoded l o st u st' :
  define_composite rev set_ target desc prefix encoded l o st = Return u st' ->
  has_path (rows (DATABASE st)) encoded = false.
Proof.
  unfold define_composite. unfold mbind at 1, M_bind at 1.
  destruct (guard_cycles (CYCLES target) l st) as [shared st0|e st0|] eqn:Eg; [|done..].
  assert (DATABASE st0 = DATABASE st) as Hdb.
  { destruct (CYCLES target) as [c'|].
    - rewrite guard_cycles_Some in Eg. case_bool_decide; [done|]. by injection Eg as _ <-.
    - simpl in Eg. unfold new_WeakSet in Eg. by injection Eg as _ <-. }
  destruct (invalid_descriptor desc); [done|].
  unfold mbind at 1, M_bind at 1.
  destruct (insert_run encoded (marker rev (type o)) st0) as [[] st1|e st1|] eqn:Ei; [|done..].
  intros _. apply insert_run_Return in Ei as (_ & _ & _ & Hno). by rewrite <- Hdb.
Qed.

Lemma defineProperty_body_nested_stored target p desc st b st' :
  CYCLES target = Some c -> (c < length (weaksets st))%nat ->
  is_length target p = false -> value desc <> Undefined ->
  defineProperty_body rev H hp set_ target (PString p) desc st = Return b st' ->
  stored rev H hp (rows (DATABASE st')) (PREFIX target ++ [key p]) (value desc).
Proof.
  intros Hc Hlen Hl Hv Hrun.
  destruct (composite hp (value desc)) as [[l o]|] eqn:Ecomp.
  - destruct (composite_Some _ _ _ _ Ecomp) as [Hval Ho]. rewrite Hval.
    destruct (defineProperty_body_nested_Return rev H hp set_ c target p desc l o st b st'
                Hc Hl Ecomp Hrun) as (encoded & Henc & Hdef).
    pose proof (define_composite_fresh _ _ _ _ _ _ _ _ _ Hdef) as Hfresh.
    destruct (define_composite_nested_Return rev set_ c target desc _ encoded l o st tt st'
                Hc Hlen Hdef) as (_ & st1 & _ & Hlen1 & _ & Hrows1 & Hloop).
    destruct (for_of_stored o (PREFIX target ++ [key p]) (entries o) st1 tt st')
      as [Hg Hentries]; [by eapply entries_defined|by rewrite Hlen1|done|].
    eapply stored_composite; [done|exact Henc| |exact Hentries].
    apply Hg. rewrite Hrows1. by apply selectOne_rows_insert.
  - destruct (defineProperty_body_nested_scalar_Return _ _ _ _ _ _ Hc Hl Hv Ecomp Hrun)
      as (encoded & s & ev & -> & Henc & Hev & Hno & Hrows).
    eapply stored_scalar; [exact Henc|exact Hev|].
    rewrite Hrows. by apply selectOne_rows_insert.
Qed.
End StoredBody.

Lemma stored_defineProperty_nested rev H hp fuel c t k v st b st' :
  wf_heap hp -> defined_heap hp ->
  CYCLES t = Some c -> (c < length (weaksets st))%nat ->
  is_length t k = false -> v <> Undefined ->
  defineProperty rev H hp fuel t (PString k) (set_descriptor t k v) st = Return b st' ->
  stored rev H hp (rows (DATABASE st')) (PREFIX t ++ [key k]) v.
Proof.
  intros wf Hdef. revert t k v st b st'.
  induction fuel as [|fuel IH]; intros t k v st b st' Hc Hlen Hl Hv Hrun; [done|].
  rewrite defineProperty_S in Hrun.
  set (set_ := fun t k v =>
                 defineProperty rev H hp fuel t (PString k) (set_descriptor t k v)) in *.
  assert (Hg : forall t k v, CYCLES t = Some c -> is_length t k = false ->
            v <> Undefined -> post (set_ t k v) grows).
  { intros t' k' v' Hc' Hl' Hv'. by apply (grows_defineProperty_nested _ _ _ _ c). }
  assert (Hs : forall t k v, CYCLES t = Some c -> post (set_ t k v) (step c)).
  { intros t' k' v' Hc'. by apply post_defineProperty_nested. }
  assert (Hv' : value (set_descriptor t k v) <> Undefined)
    by (by rewrite set_descriptor_value).
  pose proof (defineProperty_body_nested_stored rev H hp set_ c wf Hdef Hg Hs IH
                t k (set_descriptor t k v) st b st' Hc Hlen Hl Hv' Hrun) as Hres.
  by rewrite set_descriptor_value in Hres.
Qed.

Lemma COMMIT_Return st u st' :
  COMMIT st = Return u st' -> rows (DATABASE st') = rows (DATABASE st).
Proof.
  unfold COMMIT. destruct (transaction (DATABASE st)); [|done]. by intros [= _ <-].
Qed.

Lemma stored_set_outermost rev H hp fuel target prop l o st b st' :
  wf_heap hp -> defined_heap hp ->
  CYCLES target = None -> transaction (DATABASE st) = None ->
  is_length target prop = false ->
  hp !! l = Some o ->
  set rev H hp fuel target prop (Ref l) st = Return b st' ->
  stored rev H hp (rows (DATABASE st')) (PREFIX target ++ [key prop]) (Ref l).
Proof.
  intros wf Hdef Hc Hidle Hl Ho Hrun. unfold set in Hrun.
  destruct fuel as [|fuel]; [done|]. rewrite defineProperty_S in Hrun.
  set (set_ := fun t k v =>
                 defineProperty rev H hp fuel t (PString k) (set_descriptor t k v)) in *.
  assert (Hcomp : composite hp (value (set_descriptor target prop (Ref l))) = Some (l, o)).
  { rewrite set_descriptor_value. simpl. by rewrite Ho. }
  destruct (defineProperty_body_outermost_Return rev H hp set_ target prop _ l o st b st'
              Hc Hidle Hl Hcomp Hrun) as (encoded & st1 & Henc & Hdefc & Hcommit).
  pose proof (define_composite_fresh _ _ _ _ _ _ _ _ _ _ _ Hdefc) as Hfresh.
  destruct (define_composite_outermost_Return rev set_ target _ _ encoded l o _ tt st1
              Hc Hdefc) as (st2 & _ & Hlen2 & _ & Hrows2 & Hloop).
  simpl in Hlen2, Hloop.
  set (c := length (weaksets st)) in *.
  assert (Hgs : forall t k v, CYCLES t = Some c -> is_length t k = false ->
            v <> Undefined -> post (set_ t k v) grows).
  { intros t' k' v' Hc' Hl' Hv'. by apply (grows_defineProperty_nested _ _ _ _ c). }
  assert (Hss : forall t k v, CYCLES t = Some c -> post (set_ t k v) (step c)).
  { intros t' k' v' Hc'. by apply post_defineProperty_nested. }
  assert (Hst : forall t k v st b st',
            CYCLES t = Some c -> (c < length (weaksets st))%nat ->
            is_length t k = false -> v <> Undefined ->
            set_ t k v st = Return b st' ->
            stored rev H hp (rows (DATABASE st')) (PREFIX t ++ [key k]) v).
  { intros t' k' v' st0 b0 st0' Hc' Hlen' Hl' Hv' Hrun'.
    by apply (stored_defineProperty_nested rev H hp fuel c t' k' v' st0 b0 st0'). }
  destruct (for_of_stored rev H hp set_ c Hgs Hss Hst o (PREFIX target ++ [key prop])
              (entries o) st2 tt st1) as [Hg Hentries].
  - by apply (entries_defined hp c wf Hdef o _ l).
  - rewrite Hlen2. unfold c. lia.
  - exact Hloop.
  - rewrite (COMMIT_Return _ _ _ Hcommit).
    eapply stored_composite; [exact Ho|exact Henc| |exact Hentries].
    apply Hg. rewrite Hrows2. by apply selectOne_rows_insert.
Qed.

Lemma instanciate_marker rev H ty t prefix :
  instanciate rev H (marker rev ty) t prefix =
  Ok (StoredComplex
        {| PROTOTYPE := ty; PREFIX := prefix;
           CYCLES := match rev with proxy_ts => None | table_ts => CYCLES t end |}).
Proof. by destruct rev, ty. Qed.

Lemma stored_reads_back rev H hp rs Q v :
  wf_heap hp ->
  stored rev H hp rs Q v ->
  forall t k, Q = PREFIX t ++ [key k] -> is_length t k = false ->
    reads_back rev H hp rs t k v.
Proof.
  intros wf Hs.
  induction Hs as [Q s ev enc Henc Hev Hsel|Q l o enc Hl Henc Hsel _ IH];
    intros t k -> Hlen.
  - eapply reads_scalar; [exact Hev|].
    unfold get, getOwnPropertyDescriptor. rewrite Hlen, Henc. simpl. rewrite Hsel.
    rewrite (instanciate_scalar _ _ _ _ _ _ Hev). by destruct (decodeValue H ev).
  - eapply reads_composite with
      (t' := {| PROTOTYPE := type o; PREFIX := PREFIX t ++ [key k];
                CYCLES := match rev with proxy_ts => None | table_ts => CYCLES t end |});
      [exact Hl| |done|done|].
    + unfold get, getOwnPropertyDescriptor. rewrite Hlen, Henc. simpl. rewrite Hsel.
      by rewrite instanciate_marker.
    + intros k' v' Hin. apply (IH k' v' Hin); [done|].
      unfold is_length. simpl.
      destruct (decide (type o = array)) as [Harr|Hrec].
      * pose proof (wf l o Hl Harr) as Hk. rewrite List.Forall_forall in Hk.
        specialize (Hk (k', v') Hin). simpl in Hk.
        rewrite (bool_decide_eq_false_2 (k' = js "length")) by done.
        apply andb_false_r.
      * by rewrite (bool_decide_eq_false_2 (type o = array)).
Qed.

(** X18: after a successful assignment of an array or a plain record
    with no [undefined] entry at any depth, reading the key gives a
    handle of the type of the composite, at the path of the key, and
    through it every entry reads back: a scalar entry as the decoding of
    its encoding, a composite entry as a handle through which its own
    entries read back. *)
Theorem composite_reads_back (rev : revision) (H : host) (hp : heap) (fuel : nat)
    (target : Inner) (prop : jsstring) (l : positive) (o : object)
    (st st' : state) (b : bool) :
  wf_heap hp -> defined_heap hp ->
  CYCLES target = None -> transaction (DATABASE st) = None ->
  is_length target prop = false ->
  hp !! l = Some o ->
  set rev H hp fuel target prop (Ref l) st = Return b st' ->
  reads_back rev H hp (rows (DATABASE st')) target prop (Ref l).
Proof.
  intros wf Hdef Hc Hidle Hl Ho Hrun.
  eapply stored_reads_back; [done| |done|done].
  by eapply stored_set_outermost.
Qed.

Lemma example_heap_nested_wf : wf_heap example_heap_nested.
Proof.
  intros l o Hl Harr. unfold example_heap_nested in Hl.
  destruct (decide (l = 1%positive)) as [->|?]; [by simplify_map_eq|].
  destruct (decide (l = 2%positive)) as [->|?]; [|by simplify_map_eq].
  simplify_map_eq. repeat constructor. simpl. discriminate.
Defined.

Lemma example_heap_nested_defined : defined_heap example_heap_nested.
Proof.
  intros l o Hl. unfold example_heap_nested in Hl.
  destruct (decide (l = 1%positive)) as [->|?];
    [simplify_map_eq; repeat constructor; simpl; discriminate|].
  destruct (decide (l = 2%positive)) as [->|?]; [|by simplify_map_eq].
  simplify_map_eq. repeat constructor. simpl. discriminate.
Defined.

(** [table.k = {a: [true], b: null}] on the empty table. *)
Lemma composite_reads_back_witness :
  reads_back proxy_ts node example_heap_nested example_rows_nested table (js "k")
    (Ref 1%positive).
Proof.
  apply (composite_reads_back proxy_ts node example_heap_nested 3 table (js "k")
           1%positive
           {| type := record;
              entries := [(js "a", Ref 2%positive); (js "b", Prim VNull)] |}
           empty_state
           {| DATABASE := {| rows := example_rows_nested; transaction := None |};
              weaksets := [{[ 1%positive; 2%positive ]}] |} true).
  - exact example_heap_nested_wf.
  - exact example_heap_nested_defined.
  - reflexivity.
  - reflexivity.
  - reflexivity.
  - reflexivity.
  - vm_compute. reflexivity.
Defined.

(** ** Array indices *)

Lemma digits2_pos_iter_xO p k :
  Z.pos (digits2_pos (Pos.iter xO p k)) = Z.pos (digits2_pos p) + Z.pos k.
Proof.
  induction k as [|k IH] using Pos.peano_ind.
  - simpl. lia.
  - rewrite Pos.iter_succ. simpl. rewrite Pos2Z.inj_succ, IH. lia.
Qed.

Lemma iter_xO_pow p k : Z.pos (Pos.iter xO p k) = Z.pos p * 2 ^ Z.pos k.
Proof.
  induction k as [|k IH] using Pos.peano_ind.
  - simpl. lia.
  - rewrite Pos.iter_succ, Pos2Z.inj_xO, IH, Pos2Z.inj_succ, Z.pow_succ_r by lia. lia.
Qed.

Lemma float_of_Z_pos p :
  Z.pos p < 2 ^ 52 ->
  exists k, Z.pos k = 53 - Z.pos (digits2_pos p) /\
    float_of_Z (Z.pos p) = S754_finite false (Pos.iter xO p k) (- Z.pos k).
Proof.
  intros Hp. unfold float_of_Z, binary_normalize, binary_round.
  assert (Hd : Z.pos (digits2_pos p) <= 52).
  { rewrite digits2_pos_size. pose proof (Pos.size_le p) as Hle.
    apply Pos2Z.pos_le_pos in Hle. rewrite Pos2Z.inj_pow in Hle.
    destruct (Z.le_gt_cases (Z.pos (Pos.size p)) 52) as [?|Hgt]; [done|].
    assert (2 ^ 53 <= 2 ^ Z.pos (Pos.size p)) by (apply Z.pow_le_mono_r; lia).
    change (2 ^ 53) with (2 * 2 ^ 52) in H. lia. }
  set (d := digits2_pos p) in *.
  destruct (53 - Z.pos d) as [|k|k] eqn:Ek; try lia.
  exists k. split; [done|].
  unfold fexp, SpecFloat.emin, prec, emax.
  replace (Z.max (Z.pos d + 0 - 53) (3 - 1024 - 53)) with (- Z.pos k) by lia.
  unfold shl_align. replace (- Z.pos k - 0) with (Z.neg k) by lia.
  unfold binary_round_aux, shr_fexp. cbn [shr_record_of_loc Zdigits2].
  rewrite digits2_pos_iter_xO. fold d.
  unfold fexp, SpecFloat.emin.
  replace (Z.max (Z.pos d + Z.pos k + - Z.pos k - 53) (3 - 1024 - 53) - - Z.pos k) with 0 by lia.
  cbn [shr shr_m loc_of_shr_record shr_r shr_s round_nearest_even Zdigits2].
  rewrite digits2_pos_iter_xO. fold d.
  replace (Z.max (Z.pos d + Z.pos k + - Z.pos k - 53) (3 - 1024 - 53) - - Z.pos k) with 0 by lia.
  cbn [shr shr_m].
  destruct (Z.leb_spec (- Z.pos k) (1024 - 53)); [done|lia].
Qed.

Lemma float_to_Z_float_of_Z n :
  0 <= n < 2 ^ 52 -> float_to_Z (float_of_Z n) = Some n.
Proof.
  intros Hn. destruct n as [|p|p]; [done| |lia].
  destruct (float_of_Z_pos p ltac:(lia)) as (k & Hk & ->).
  unfold float_to_Z. replace (0 <=? - Z.pos k) with false by (symmetry; apply Z.leb_gt; lia).
  rewrite Z.opp_involutive, iter_xO_pow.
  rewrite Z.mod_mul by (apply Z.pow_nonzero; lia). simpl.
  rewrite Z.div_mul by (apply Z.pow_nonzero; lia). done.
Qed.

Lemma span_digits_uint d : span_digits (uint_units d) = (uint_units d, []).
Proof. induction d; simpl; [done|by rewrite IHd..]. Qed.

Lemma StringToNumber_integer_toString n :
  0 <= n -> StringToNumber (integer_toString n) = float_of_Z n.
Proof.
  intros Hn. destruct n as [|p|p]; [done| |lia].
  unfold StringToNumber. rewrite trim_id by apply integer_toString_no_white_space.
  cbn [integer_toString].
  pose proof (uint_units_to_uint_nonempty p) as Hne.
  pose proof (digits_value_to_uint p) as Hd.
  pose proof (span_digits_uint (Pos.to_uint p)) as Hspan.
  rewrite parse_nondecimal_uint.
  unfold parse_unsigned_decimal.
  assert (Hbody : forall text : jsstring,
            text = uint_units (Pos.to_uint p) ->
            (let '(neg, body) :=
               match text with
               | 43 :: b => (false, b)
               | 45 :: b => (true, b)
               | _ => (false, text)
               end in
             if bool_decide (body = js "Infinity") then S754_infinity neg
             else
               match (let '(int, r) := span_digits body in
                      match r with
                      | 46 :: r' =>
                          let '(frac, r'') := span_digits r' in
                          match int ++ frac with
                          | [] => None
                          | ds =>
                              e ← parse_exponent r'';
                              m ← digits_value 10 0 ds;
                              Some (m, e - Z.of_nat (length frac))
                          end
                      | _ =>
                          e ← parse_exponent r;
                          m ← parse_digits 10 int;
                          Some (m, e)
                      end) with
               | Some (m, e) => round_decimal neg m e
               | None => S754_nan
               end) = float_of_Z (Z.pos p)).
  { intros text Htext.
    assert (Hsign : match text with
                    | 43 :: b => (false, b)
                    | 45 :: b => (true, b)
                    | _ => (false, text)
                    end = (false, text)).
    { rewrite Htext. by destruct (Pos.to_uint p). }
    rewrite Hsign.
    rewrite (bool_decide_eq_false_2 (text = js "Infinity"))
      by (rewrite Htext; by destruct (Pos.to_uint p)).
    rewrite Htext, Hspan. cbn [parse_exponent mbind option_bind].
    unfold parse_digits.
    destruct (uint_units (Pos.to_uint p)) eqn:E; [done|].
    rewrite Hd. cbn [mbind option_bind]. unfold round_decimal.
    change (Z.pos p =? 0) with false. cbn [Z.leb Z.compare].
    by rewrite Z.mul_1_r. }
  specialize (Hbody _ eq_refl).
  destruct (uint_units (Pos.to_uint p)) eqn:E; [done|]. exact Hbody.
Qed.

Lemma key_integer_toString n :
  0 <= n < 4294967295 -> key (integer_toString n) = SNum n.
Proof.
  intros Hn. apply key_SNum. split; [|done].
  rewrite StringToNumber_integer_toString by lia.
  apply float_to_Z_float_of_Z. change (2 ^ 52) with 4503599627370496. lia.
Qed.

Lemma get_key rev H rs t p q :
  key p = key q -> get rev H rs t p = get rev H rs t q.
Proof.
  intros Hk. unfold get, getOwnPropertyDescriptor.
  by rewrite Hk, (is_length_key t p q Hk).
Qed.

Lemma key_String_key p : key (String_ (key p)) = key p.
Proof.
  destruct (key p) as [n|s] eqn:Ek; simpl.
  - apply key_SNum in Ek as [_ Hn]. by apply key_integer_toString.
  - pose proof (key_SStr _ _ Ek) as ->. exact Ek.
Qed.

(** X21: the decimal numeral of an integer [n] with [0 <= n < 2^32 - 1]
    normalizes to the number segment [n], so normalization is idempotent:
    the name that an enumeration reports for a key ([String] of its
    segment) normalizes to the same segment, and reading or writing under
    that name is reading or writing under the original name. *)
Theorem key_of_reported_name :
  (forall n, 0 <= n < 4294967295 -> key (integer_toString n) = SNum n) /\
  (forall p, key (String_ (key p)) = key p) /\
  (forall rev H rs t p, get rev H rs t (String_ (key p)) = get rev H rs t p) /\
  (forall rev H hp fuel t p v,
     set rev H hp fuel t (String_ (key p)) v = set rev H hp fuel t p v).
Proof.
  split; [exact key_integer_toString|]. split; [exact key_String_key|].
  split.
  - intros. apply get_key, key_String_key.
  - intros. apply set_key, key_String_key.
Qed.

(** The name ["4294967294"], the largest index. *)
Lemma key_of_reported_name_witness :
  key (integer_toString 4294967294) = SNum 4294967294.
Proof.
  apply (proj1 key_of_reported_name). lia.
Defined.

(** ** The shape of the rows *)

Section Paths.
Variable Q : Path -> Prop.
Hypothesis Q_key :
  forall P prop e, Q P -> is_jsstring prop ->
    encodePath (P ++ [key prop]) = Ok e -> Q (P ++ [key prop]).

Lemma keeps_paths_refl st : keeps_paths Q st st.
Proof. by intros ?. Qed.

Lemma keeps_paths_trans st1 st2 st3 :
  keeps_paths Q st1 st2 -> keeps_paths Q st2 st3 -> keeps_paths Q st1 st3.
Proof. intros H1 H2 Hc. by apply H2, H1. Qed.

Lemma keeps_paths_database st st' :
  DATABASE st' = DATABASE st -> keeps_paths Q st st'.
Proof. intros Hd [Hr Hs]. unfold state_at_paths. by rewrite Hd. Qed.

Lemma paths_rows_insert path v rs :
  (exists p, Q p /\ path = path_bytes p) ->
  rows_at_paths Q rs -> rows_at_paths Q (rows_insert path v rs).
Proof.
  intros Hp Hrs. unfold rows_at_paths in *. rewrite List.Forall_forall in *.
  intros r Hin. apply rows_insert_In_inv in Hin as [->|Hin]; [done|by apply Hrs].
Qed.

Lemma paths_rows_deleteRange rs lower upper :
  rows_at_paths Q rs -> rows_at_paths Q (deleteRange rs lower upper).
Proof.
  unfold rows_at_paths. rewrite !List.Forall_forall. intros Hrs r Hin.
  apply deleteRange_In in Hin as [Hin _]. by apply Hrs.
Qed.

Lemma paths_insert_run path v :
  (exists p, Q p /\ path = path_bytes p) ->
  post (insert_run path v) (keeps_paths Q).
Proof.
  intros Hp st. unfold insert_run, mbind, M_bind, get_rows.
  destruct (has_path (rows (DATABASE st)) path); [apply keeps_paths_refl|].
  intros [Hr Hs]. split; [by apply paths_rows_insert|done].
Qed.

Lemma paths_delete_run lower upper : post (delete_run lower upper) (keeps_paths Q).
Proof.
  intros st [Hr Hs]. split; [by apply paths_rows_deleteRange|done].
Qed.

Lemma paths_BEGIN : post BEGIN (keeps_paths Q).
Proof.
  intros st. unfold BEGIN. destruct (transaction (DATABASE st)) eqn:E.
  - apply keeps_paths_refl.
  - intros [Hr Hs]. split; [done|]. simpl. by intros ? [= <-].
Qed.

Lemma paths_ROLLBACK : post ROLLBACK (keeps_paths Q).
Proof.
  intros st. unfold ROLLBACK. destruct (transaction (DATABASE st)) as [snapshot|] eqn:E.
  - intros [Hr Hs]. split; [by apply Hs|done].
  - apply keeps_paths_refl.
Qed.

Lemma paths_COMMIT : post COMMIT (keeps_paths Q).
Proof.
  intros st. unfold COMMIT. destruct (transaction (DATABASE st)) eqn:E.
  - intros [Hr Hs]. by split.
  - apply keeps_paths_refl.
Qed.

Lemma paths_guard_cycles cycles l : post (guard_cycles cycles l) (keeps_paths Q).
Proof.
  intros st. destruct cycles as [c|].
  - rewrite guard_cycles_Some. case_bool_decide; [apply keeps_paths_refl|].
    by apply keeps_paths_database.
  - by apply keeps_paths_database.
Qed.

Lemma paths_deleteProperty rev target prop :
  post (deleteProperty rev target prop) (keeps_paths Q).
Proof.
  destruct prop as [p|]; simpl; [|apply rel_mret, keeps_paths_refl].
  destruct (is_length target p); [apply rel_mret, keeps_paths_refl|].
  apply rel_bind; [apply keeps_paths_trans|apply rel_lift, keeps_paths_refl|].
  intros encoded.
  apply rel_bind; [apply keeps_paths_trans|apply paths_delete_run|].
  intros n. apply rel_mret, keeps_paths_refl.
Qed.

Lemma paths_define_length H target desc :
  post (define_length H target desc) (keeps_paths Q).
Proof.
  unfold define_length.
  apply rel_bind; [apply keeps_paths_trans|apply rel_lift, keeps_paths_refl|].
  intros x. destruct (float_to_Z x) as [n|]; [|apply rel_throw, keeps_paths_refl].
  destruct (isSafeInteger x && (0 <=? n) && (n <? 4294967295));
    [|apply rel_throw, keeps_paths_refl].
  destruct (_ || _); [apply rel_throw, keeps_paths_refl|].
  apply rel_bind; [apply keeps_paths_trans|apply rel_lift, keeps_paths_refl|].
  intros lower.
  apply rel_bind; [apply keeps_paths_trans|apply rel_lift, keeps_paths_refl|].
  intros upper.
  apply rel_bind; [apply keeps_paths_trans|apply paths_delete_run|].
  intros _. apply rel_mret, keeps_paths_refl.
Qed.

Lemma paths_define_scalar H desc encoded :
  (exists p, Q p /\ encoded = path_bytes p) ->
  post (define_scalar H desc encoded) (keeps_paths Q).
Proof.
  intros Hp. unfold define_scalar.
  destruct (invalid_descriptor desc); [apply rel_throw, keeps_paths_refl|].
  apply rel_bind; [apply keeps_paths_trans|apply rel_lift, keeps_paths_refl|].
  intros ev. by apply paths_insert_run.
Qed.

Lemma rel_bind_lift_Ok {A B} (R : state -> state -> Prop) (a : A) (k : A -> M B) :
  post (k a) R -> post (lift (Ok a) ≫= k) R.
Proof. intros Hk st. exact (Hk st). Qed.

Section PathsBody.
Variable rev : revision.
Variable H : host.
Variable hp : heap.
Variable set_ : Inner -> jsstring -> Value -> M bool.
Hypothesis keys : wf_keys hp.
Hypothesis paths_set_ :
  forall t k v, Q (PREFIX t) -> is_jsstring k -> post (set_ t k v) (keeps_paths Q).

Lemma paths_define_composite target desc prefix encoded l o :
  Q prefix -> encoded = path_bytes prefix -> hp !! l = Some o ->
  post (define_composite rev set_ target desc prefix encoded l o) (keeps_paths Q).
Proof.
  intros Hwf Henc Hl. unfold define_composite.
  apply rel_bind; [apply keeps_paths_trans|apply paths_guard_cycles|].
  intros shared.
  destruct (invalid_descriptor desc); [apply rel_throw, keeps_paths_refl|].
  apply rel_bind; [apply keeps_paths_trans| |].
  - apply paths_insert_run. by exists prefix.
  - intros _. apply rel_for_of; [apply keeps_paths_refl|apply keeps_paths_trans|].
    intros [k v] Hin.
    apply rel_bind; [apply keeps_paths_trans| |intros _; apply rel_mret, keeps_paths_refl].
    apply paths_set_; [done|].
    pose proof (keys l o Hl) as Hk. rewrite List.Forall_forall in Hk.
    by apply (Hk (k, v)).
Qed.

Lemma paths_defineProperty_body target prop desc :
  Q (PREFIX target) -> is_jsstring_key prop ->
  post (defineProperty_body rev H hp set_ target prop desc) (keeps_paths Q).
Proof.
  intros HP Hprop. unfold defineProperty_body.
  destruct prop as [p|]; [|apply rel_mret, keeps_paths_refl].
  simpl in Hprop.
  assert (post (encoded ← lift (encodePath (PREFIX target ++ [key p]));
                _ ← try_catch_rethrow
                      (define_try rev H hp set_ target p desc
                         (PREFIX target ++ [key p]) encoded)
                      (when (bool_decide (CYCLES target = None)) ROLLBACK);
                _ ← when (bool_decide (CYCLES target = None)) COMMIT;
                mret true) (keeps_paths Q)) as Hmain.
  { destruct (encodePath (PREFIX target ++ [key p])) as [encoded|e] eqn:Henc;
      [|intros st0; cbv [lift mbind M_bind throw]; apply keeps_paths_refl].
    pose proof (Q_key _ _ _ HP Hprop Henc) as Hwf.
    apply encodePath_Ok in Henc as (_ & Henc & _).
    apply rel_bind_lift_Ok.
    apply rel_bind; [apply keeps_paths_trans| |].
    - apply rel_try_catch_rethrow; [apply keeps_paths_trans| |].
      + unfold define_try.
        apply rel_bind; [apply keeps_paths_trans| |].
        * apply rel_when; [apply keeps_paths_refl|].
          apply rel_bind; [apply keeps_paths_trans|apply paths_BEGIN|]. intros _.
          apply rel_bind; [apply keeps_paths_trans|apply paths_delete_run|].
          intros _. apply rel_mret, keeps_paths_refl.
        * intros _. destruct (is_length target p); [apply paths_define_length|].
          destruct (composite hp (value desc)) as [[l o]|] eqn:Ecomp.
          -- apply composite_Some in Ecomp as [_ Ho].
             by apply paths_define_composite.
          -- apply paths_define_scalar. by exists (PREFIX target ++ [key p]).
      + apply rel_when; [apply keeps_paths_refl|apply paths_ROLLBACK].
    - intros _. apply rel_bind; [apply keeps_paths_trans| |].
      + apply rel_when; [apply keeps_paths_refl|apply paths_COMMIT].
      + intros _. apply rel_mret, keeps_paths_refl. }
  destruct (value desc); try exact Hmain.
  apply rel_bind; [apply keeps_paths_trans|apply paths_deleteProperty|].
  intros _. apply rel_mret, keeps_paths_refl.
Qed.
End PathsBody.

Lemma paths_defineProperty rev H hp fuel target prop desc :
  wf_keys hp -> Q (PREFIX target) -> is_jsstring_key prop ->
  post (defineProperty rev H hp fuel target prop desc) (keeps_paths Q).
Proof.
  intros Hkeys. revert target prop desc.
  induction fuel as [|fuel IH]; intros target prop desc HP Hprop; [by intros st|].
  rewrite defineProperty_S. apply paths_defineProperty_body; try done.
  intros t k v Ht Hk. by apply IH.
Qed.
End Paths.

Lemma normal_path_wf p : normal_path p -> wf_path p.
Proof. intros Hp. eapply Forall_impl; [exact Hp|]. by intros k [? _]. Qed.

Lemma normal_path_key P prop e :
  normal_path P -> is_jsstring prop ->
  encodePath (P ++ [key prop]) = Ok e -> normal_path (P ++ [key prop]).
Proof.
  intros HP Hprop Henc. apply Forall_app. split; [done|].
  apply Forall_cons. split; [|constructor]. split; [|apply key_String_key].
  pose proof (wf_path_key _ _ _ (normal_path_wf _ HP) Hprop Henc) as Hwf.
  apply Forall_app in Hwf as [_ Hwf]. by apply Forall_cons in Hwf as [? _].
Qed.

Lemma final_rows_keeps_paths Q {A} (m : M A) st rs' :
  post m (keeps_paths Q) ->
  rows_at_paths Q (rows (DATABASE st)) -> transaction (DATABASE st) = None ->
  final_rows (m st) = Some rs' -> rows_at_paths Q rs'.
Proof.
  intros Hpost Hrows Hidle Hfinal.
  assert (Hst : state_at_paths Q st).
  { split; [done|]. intros snapshot Hs. congruence. }
  specialize (Hpost st).
  destruct (m st); simpl in Hfinal; [| |done];
    injection Hfinal as <-; by destruct (Hpost Hst).
Qed.

Lemma paths_run_write Q rev H hp fuel target w :
  (forall P prop e, Q P -> is_jsstring prop ->
     encodePath (P ++ [key prop]) = Ok e -> Q (P ++ [key prop])) ->
  wf_keys hp -> Q (PREFIX target) -> is_jsstring_key (write_key w) ->
  post (run_write rev H hp fuel target w) (keeps_paths Q).
Proof.
  intros HQ Hkeys HP Hkey. destruct w as [prop v|prop desc|prop]; simpl in *.
  - by apply paths_defineProperty.
  - by apply paths_defineProperty.
  - apply paths_deleteProperty.
Qed.

(** X19: the table keeps its shape under every write through a handle,
    whether the write returns or throws: if every row is at the encoding
    of a path of unsigned 32-bit numbers and strings of code units below
    [0xFFFE] before, every row is afterwards; and if moreover every
    segment of every row (and of the prefix of the handle) is the key of
    its own name before, it is afterwards. *)
Theorem writes_keep_rows_canonical (rev : revision) (H : host) (hp : heap) (fuel : nat)
    (target : Inner) (w : write) (st : state) (rs' : list row) :
  wf_keys hp -> is_jsstring_key (write_key w) ->
  transaction (DATABASE st) = None ->
  final_rows (run_write rev H hp fuel target w st) = Some rs' ->
  (wf_path (PREFIX target) -> canonical_rows (rows (DATABASE st)) ->
     canonical_rows rs') /\
  (normal_path (PREFIX target) -> normal_rows (rows (DATABASE st)) ->
     normal_rows rs').
Proof.
  intros Hkeys Hkey Hidle Hfinal. split; intros HP Hrows.
  - apply (final_rows_keeps_paths wf_path (run_write rev H hp fuel target w) st);
      try done.
    apply paths_run_write; try done. exact wf_path_key.
  - apply (final_rows_keeps_paths normal_path (run_write rev H hp fuel target w) st);
      try done.
    apply paths_run_write; try done. exact normal_path_key.
Qed.

Lemma example_heap_nested_keys : wf_keys example_heap_nested.
Proof.
  intros l o Hl. unfold example_heap_nested in Hl.
  destruct (decide (l = 1%positive)) as [->|?];
    [simplify_map_eq; repeat constructor; simpl; lia|].
  destruct (decide (l = 2%positive)) as [->|?]; [|by simplify_map_eq].
  simplify_map_eq. repeat constructor; simpl; lia.
Defined.

(** [table.k = {a: [true], b: null}] on the empty table. *)
Lemma writes_keep_rows_canonical_witness :
  canonical_rows example_rows_nested /\ normal_rows example_rows_nested.
Proof.
  pose proof (writes_keep_rows_canonical proxy_ts node example_heap_nested 3 table
                (WSet (js "k") (Ref 1%positive)) empty_state example_rows_nested
                example_heap_nested_keys) as [Hc Hn].
  - repeat constructor; simpl; lia.
  - reflexivity.
  - vm_compute. reflexivity.
  - split; [apply Hc|apply Hn]; constructor.
Defined.

(** ** Enumeration *)

Lemma entries_rows_In_inv rev H inner selected es k s :
  entries_rows rev H inner selected = Ok es ->
  In (k, s) es ->
  exists path v decoded,
    In (path, v) selected /\ decodePath path = Ok decoded /\
    length decoded = (length (PREFIX inner) + 1)%nat /\ last decoded = Some k.
Proof.
  revert es. induction selected as [|[path v] selected IH]; intros es Hes Hin.
  { simpl in Hes. injection Hes as <-. done. }
  simpl in Hes.
  destruct (decodePath path) as [d|e] eqn:Ed; [|done]. simpl in Hes.
  case_bool_decide as Hlen.
  - destruct (last d) as [k'|] eqn:Hlast; [|done].
    destruct (instanciate rev H v inner d) as [s'|e]; [|done]. simpl in Hes.
    destruct (entries_rows rev H inner selected) as [rest|e]; [|done].
    injection Hes as <-. destruct Hin as [[= <- <-]|Hin].
    + exists path, v, d. split; [by left|done].
    + destruct (IH rest eq_refl Hin) as (path' & v' & d' & ? & ?).
      exists path', v', d'. split; [by right|done].
  - destruct (IH es Hes Hin) as (path' & v' & d' & ? & ?).
    exists path', v', d'. split; [by right|done].
Qed.

Lemma root_range_proxy_ts k :
  in_range [] (increment proxy_ts []) (path_bytes [k]) = true.
Proof. by destruct k. Qed.

Lemma handle_range_child rev P k :
  wf_path P -> last_byte (path_bytes P) <> 255 -> (P <> [] \/ rev = proxy_ts) ->
  in_range (path_bytes P) (increment rev (path_bytes P)) (path_bytes (P ++ [k])) = true.
Proof.
  intros HP Hlast Hroot. destruct P as [|seg P].
  - destruct Hroot as [?| ->]; [done|]. apply root_range_proxy_ts.
  - destruct (last_byte_path_bytes (seg :: P)) as [Hne Hx]; [done|].
    apply in_range_increment_iff; [done|lia|].
    exists (path_bytes [k]). apply path_bytes_app.
Qed.

Lemma handle_range_child_inv rev P p :
  wf_path P -> wf_path p -> last_byte (path_bytes P) <> 255 ->
  in_range (path_bytes P) (increment rev (path_bytes P)) (path_bytes p) = true ->
  length p = (length P + 1)%nat ->
  exists k, p = P ++ [k].
Proof.
  intros HP Hp Hlast Hin Hlen. destruct P as [|seg P].
  - destruct p as [|k [|]]; try done. by exists k.
  - destruct (last_byte_path_bytes (seg :: P)) as [Hne Hx]; [done|].
    apply in_range_increment_iff in Hin as [ext Hext]; [|done|lia].
    destruct (path_bytes_prefix _ _ _ HP Hp Hext) as (r & -> & _).
    rewrite length_app in Hlen. destruct r as [|k [|]]; simpl in Hlen; try lia.
    by exists k.
Qed.

Lemma entries_keys_iff rev H rs target es :
  wf_path (PREFIX target) -> canonical_rows rs ->
  last_byte (path_bytes (PREFIX target)) <> 255 ->
  (PREFIX target <> [] \/ rev = proxy_ts) ->
  Database_entries rev H rs target = Ok es ->
  forall k, (exists s, In (k, s) es) <->
            (wf_segment k /\ row_at rs (PREFIX target ++ [k])).
Proof.
  intros HP Hcan Hlast Hroot Hes k. unfold Database_entries in Hes.
  destruct (encodePath (PREFIX target)) as [e|?] eqn:He; [|done]. simpl in Hes.
  apply encodePath_Ok in He as (_ & -> & _). split.
  - intros [s Hin].
    destruct (entries_rows_In_inv _ _ _ _ _ _ _ Hes Hin)
      as (path & v & d & Hsel & Hd & Hlen & Hk).
    apply selectMany_In in Hsel as [Hrs Hrange]. simpl in Hrange.
    unfold canonical_rows, rows_at_paths in Hcan. rewrite List.Forall_forall in Hcan.
    destruct (Hcan _ Hrs) as (p & Hp & Hpath). simpl in Hpath. subst path.
    assert (d = p) as ->.
    { unfold decodePath in Hd.
      rewrite decodePath_loop_path_bytes in Hd by (done || apply length_path_bytes_ge).
      by injection Hd. }
    destruct (handle_range_child_inv rev _ _ HP Hp Hlast Hrange Hlen) as [k' ->].
    rewrite last_snoc in Hk. injection Hk as ->. split.
    + apply Forall_app in Hp as [_ Hp]. by apply Forall_cons in Hp as [? _].
    + by exists v.
  - intros [Hk [v Hin]].
    assert (Hwf : wf_path (PREFIX target ++ [k])).
    { apply Forall_app. split; [done|]. by repeat constructor. }
    destruct (entries_rows_In rev H target _ es (path_bytes (PREFIX target ++ [k])) v
                (PREFIX target ++ [k]) k Hes) as (s & _ & Hs).
    + apply selectMany_In. split; [done|]. simpl. by apply handle_range_child.
    + unfold decodePath. apply decodePath_loop_path_bytes; [done|].
      apply length_path_bytes_ge.
    + by rewrite length_app.
    + apply last_snoc.
    + by exists s.
Qed.

(** X20: over a table whose rows are at encodings of well-formed paths,
    the keys that [Database.entries] yields for a handle (whose encoded
    prefix does not end in the byte [0xFF]; for the root, in [proxy.ts])
    are exactly the last segments of the rows one level below the
    prefix of the handle: every direct child, no deeper descendant, no
    row outside the subtree. *)
Theorem entries_are_the_direct_children (rev : revision) (H : host) (rs : list row)
    (target : Inner) (es : list (segment * Stored)) :
  wf_path (PREFIX target) -> canonical_rows rs ->
  last_byte (path_bytes (PREFIX target)) <> 255 ->
  (PREFIX target <> [] \/ rev = proxy_ts) ->
  Database_entries rev H rs target = Ok es ->
  forall k, (exists s, In (k, s) es) <->
            (wf_segment k /\ row_at rs (PREFIX target ++ [k])).
Proof. apply entries_keys_iff. Qed.

Lemma example_rows_nested_canonical : canonical_rows example_rows_nested.
Proof.
  unfold canonical_rows, rows_at_paths, example_rows_nested. repeat apply Forall_cons_2.
  - exists [SStr (js "k")]. split; [repeat constructor; simpl; lia|done].
  - exists [SStr (js "k"); SStr (js "a")]. split; [repeat constructor; simpl; lia|done].
  - exists [SStr (js "k"); SStr (js "a"); SNum 0].
    split; [repeat constructor; simpl; lia|done].
  - exists [SStr (js "k"); SStr (js "b")]. split; [repeat constructor; simpl; lia|done].
  - constructor.
Defined.

(** The entries of the record stored at ["k"] hold the key ["a"]. *)
Lemma entries_are_the_direct_children_witness :
  (exists s, In (SStr (js "a"), s)
     [(SStr (js "a"),
       StoredComplex {| PROTOTYPE := array; PREFIX := [SStr (js "k"); SStr (js "a")];
                        CYCLES := None |});
      (SStr (js "b"), StoredScalar VNull)]) <->
  (wf_segment (SStr (js "a")) /\
   row_at example_rows_nested ([SStr (js "k")] ++ [SStr (js "a")])).
Proof.
  apply (entries_are_the_direct_children proxy_ts node example_rows_nested
           {| PROTOTYPE := record; PREFIX := [SStr (js "k")]; CYCLES := None |}).
  - repeat constructor; simpl; lia.
  - exact example_rows_nested_canonical.
  - vm_compute. discriminate.
  - left. discriminate.
  - reflexivity.
Defined.

(** ** Appending to an array *)

Lemma array_length_of_dense rev H rs target n :
  PROTOTYPE target = array ->
  wf_path (PREFIX target) -> wf_rows rs ->
  Z.of_nat (length (path_bytes (PREFIX target))) + 5 <= maxByteLength ->
  0 <= n <= 4294967295 ->
  dense_array rs (PREFIX target) n ->
  array_length rev H rs target = Ok (GotValue (StoredScalar (VNumber (float_of_Z n)))).
Proof.
  intros Harr HP Hrs Hlen Hn Hdense. unfold maxByteLength in Hlen.
  unfold array_length, get, getOwnPropertyDescriptor, is_length.
  rewrite Harr, !bool_decide_eq_true_2 by done. cbn [andb].
  rewrite !encodePath_child;
    [|done|simpl; lia|rewrite length_path_bytes_snoc_num; unfold maxByteLength; lia
     |done|simpl; lia|rewrite length_path_bytes_snoc_num; unfold maxByteLength; lia].
  cbn [mbind result_bind].
  destruct (selectLength rs _ _) as [k|] eqn:Hk.
  - destruct (selectLength_greatest_numeric_child rs _ k Hrs HP Hk)
      as (i & Hi & -> & Hrow & Hmax).
    pose proof (proj1 (Hdense i Hi) Hrow) as Hin.
    assert (row_at rs (PREFIX target ++ [SNum (n - 1)])) as Hlast
      by (apply Hdense; lia).
    assert (n - 1 <= i) by (apply Hmax; [lia|done]).
    assert (i = n - 1) as -> by lia.
    assert (wf_path (PREFIX target ++ [SNum (n - 1)])) as Hwf.
    { apply Forall_app. split; [done|]. apply Forall_cons_2; [simpl; lia|constructor]. }
    unfold decodePath.
    rewrite decodePath_loop_path_bytes by (done || apply length_path_bytes_ge).
    cbn [mbind result_bind]. unfold at_last_plus_1. rewrite last_snoc.
    cbn [own_value]. by replace (n - 1 + 1) with n by lia.
  - cbn [own_value].
    pose proof (selectLength_no_numeric_child rs _ HP Hk) as Hnone.
    destruct (decide (0 < n)) as [Hpos|Hz]; [|by replace n with 0 by lia].
    exfalso. apply (Hnone 0); [lia|]. apply Hdense; lia.
Qed.

Lemma rows_insert_In_old path v rs r : In r rs -> In r (rows_insert path v rs).
Proof.
  induction rs as [|r' rs IH]; simpl; [done|].
  destruct (blob_ltb path r'.1); simpl; [by right|].
  intros [<-|Hin]; [by left|right; by apply IH].
Qed.

Lemma numeric_child_inj P i j :
  0 <= i < 4294967296 -> 0 <= j < 4294967296 ->
  path_bytes (P ++ [SNum i]) = path_bytes (P ++ [SNum j]) -> i = j.
Proof.
  intros Hi Hj Heq.
  assert (i <= j) by (apply (numeric_child_leb P i j Hi Hj); rewrite Heq; apply blob_leb_refl).
  assert (j <= i) by (apply (numeric_child_leb P j i Hj Hi); rewrite Heq; apply blob_leb_refl).
  lia.
Qed.

(** X22: assigning a scalar at the index [n] of an array that holds the
    elements [0 .. n-1] (the assignment [push] makes) returns [true] and
    the array holds the elements [0 .. n] afterwards, so its length reads
    [n + 1]; this holds for every [n], also when the encoding of the
    index ends in the byte [0xFF]. *)
Theorem set_at_length_extends_the_array (rev : revision) (H : host) (hp : heap)
    (fuel : nat) (target : Inner) (s : Scalar) (ev : bytes) (n : Z) (st : state) :
  PROTOTYPE target = array ->
  CYCLES target = None ->
  transaction (DATABASE st) = None ->
  wf_path (PREFIX target) -> wf_rows (rows (DATABASE st)) ->
  Z.of_nat (length (path_bytes (PREFIX target))) + 5 <= maxByteLength ->
  0 <= n < 4294967295 ->
  dense_array (rows (DATABASE st)) (PREFIX target) n ->
  encodeValue H s = Ok ev ->
  fuel <> 0%nat ->
  exists st',
    set rev H hp fuel target (integer_toString n) (Prim s) st = Return true st' /\
    dense_array (rows (DATABASE st')) (PREFIX target) (n + 1) /\
    array_length rev H (rows (DATABASE st')) target
      = Ok (GotValue (StoredScalar (VNumber (float_of_Z (n + 1))))).
Proof.
  intros Harr Hc Hidle HP Hrs Hlen Hn Hdense Hev Hfuel.
  destruct fuel as [|fuel]; [done|].
  set (P := PREFIX target) in *.
  pose proof (key_integer_toString n Hn) as Hkey.
  assert (Hl : is_length target (integer_toString n) = false).
  { unfold is_length. rewrite (bool_decide_eq_false_2 (integer_toString n = js "length")).
    - apply andb_false_r.
    - by eapply key_not_length. }
  assert (Hwf : wf_path (P ++ [SNum n])).
  { apply Forall_app. split; [done|]. apply Forall_cons_2; [simpl; lia|constructor]. }
  assert (Henc : encodePath (PREFIX target ++ [key (integer_toString n)])
                 = Ok (path_bytes (P ++ [SNum n]))).
  { rewrite Hkey. apply encodePath_child; [done|simpl; lia|].
    rewrite length_path_bytes_snoc_num. unfold maxByteLength in *. lia. }
  set (enc := path_bytes (P ++ [SNum n])) in *.
  assert (Hno : has_path (rows (DATABASE st)) enc = false).
  { destruct (has_path (rows (DATABASE st)) enc) eqn:E; [|done].
    apply has_path_In in E. apply (Hdense n Hn) in E. lia. }
  assert (Hno' : has_path (deleteRange (rows (DATABASE st)) enc (increment rev enc)) enc
                 = false).
  { destruct (has_path (deleteRange _ _ _) enc) eqn:E; [|done].
    apply has_path_In in E as [v Hv]. apply deleteRange_In in Hv as [Hv _].
    assert (has_path (rows (DATABASE st)) enc = true) by (apply has_path_In; eauto).
    congruence. }
  pose proof (set_scalar_run rev H hp fuel target (integer_toString n) s enc ev st
                Hc Hidle Hl Henc Hno' Hev) as Hrun.
  eexists. split; [exact Hrun|]. cbn [DATABASE rows].
  set (rs' := rows_insert enc ev (deleteRange (rows (DATABASE st)) enc (increment rev enc))).
  assert (Hdense' : dense_array rs' P (n + 1)).
  { intros i Hi. split.
    - intros [v Hin]. apply rows_insert_In_inv in Hin as [Heq|Hin].
      + injection Heq as Heq _. apply numeric_child_inj in Heq; lia.
      + apply deleteRange_In in Hin as [Hin _].
        assert (i < n) by (apply (Hdense i Hi); by exists v). lia.
    - intros Hlt. destruct (decide (i = n)) as [->|Hne].
      + exists ev. apply rows_insert_In.
      + destruct (proj2 (Hdense i Hi)) as [v Hin]; [lia|].
        exists v. apply rows_insert_In_old, deleteRange_In. split; [done|]. simpl.
        unfold in_range. apply andb_false_iff. left.
        apply not_true_is_false. intros Hle.
        apply (numeric_child_leb P n i) in Hle; lia. }
  split; [exact Hdense'|].
  apply array_length_of_dense; try done; [|lia].
  unfold wf_rows, rs'. rewrite List.Forall_forall. intros r Hin.
  apply rows_insert_In_inv in Hin as [->|Hin].
  - simpl. by apply is_bytes_path.
  - apply deleteRange_In in Hin as [Hin _].
    unfold wf_rows in Hrs. rewrite List.Forall_forall in Hrs. by apply Hrs.
Qed.

(** [a[2] = null] for the array [[1, 2]] stored at ["a"]. *)
Lemma set_at_length_extends_the_array_witness :
  exists st',
    set proxy_ts node ∅ 1 example_array (integer_toString 2) (Prim VNull)
      {| DATABASE := {| rows := example_rows; transaction := None |}; weaksets := [] |}
      = Return true st' /\
    dense_array (rows (DATABASE st')) (PREFIX example_array) (2 + 1) /\
    array_length proxy_ts node (rows (DATABASE st')) example_array
      = Ok (GotValue (StoredScalar (VNumber (float_of_Z (2 + 1))))).
Proof.
  apply (set_at_length_extends_the_array proxy_ts node ∅ 1 example_array VNull [0] 2
           {| DATABASE := {| rows := example_rows; transaction := None |};
              weaksets := [] |}).
  - reflexivity.
  - reflexivity.
  - reflexivity.
  - repeat constructor; simpl; lia.
  - repeat constructor; unfold is_byte; simpl; lia.
  - vm_compute. discriminate.
  - lia.
  - exact example_rows_dense.
  - reflexivity.
  - discriminate.
Defined.

(** ** The rows a composite write adds *)

Section NewRowsBody.
Variable rev : revision.
Variable H : host.
Variable hp : heap.
Variable set_ : Inner -> jsstring -> Value -> M bool.
Variable c : nat.
Hypothesis wf : wf_heap hp.
Hypothesis defined : defined_heap hp.
Hypothesis step_set_ :
  forall t k v, CYCLES t = Some c -> post (set_ t k v) (step c).
Hypothesis new_set_ :
  forall t k v st b st',
    CYCLES t = Some c -> (c < length (weaksets st))%nat ->
    is_length t k = false -> v <> Undefined ->
    set_ t k v st = Return b st' ->
    forall r, In r (rows (DATABASE st')) ->
      In r (rows (DATABASE st)) \/ path_bytes (PREFIX t ++ [key k]) `prefix_of` r.1.

Lemma for_of_new_rows o prefix es st u st' :
  Forall (fun e : jsstring * Value =>
            is_length (child o prefix c) e.1 = false /\ e.2 <> Undefined) es ->
  (c < length (weaksets st))%nat ->
  for_of es (loop_body set_ (child o prefix c)) st = Return u st' ->
  forall r, In r (rows (DATABASE st')) ->
    In r (rows (DATABASE st)) \/
    exists k v, In (k, v) es /\ path_bytes (prefix ++ [key k]) `prefix_of` r.1.
Proof.
  intros Hes. revert st. induction Hes as [|[k0 v0] es [Hl0 Hv0] Hes IH]; intros st Hc.
  { intros [= _ <-] r Hr. by left. }
  simpl in Hl0, Hv0. rewrite for_of_cons, loop_body_eq.
  pose proof (step_set_ (child o prefix c) k0 v0 eq_refl st) as Hstep.
  destruct (set_ (child o prefix c) k0 v0 st) as [b st1|e st1|] eqn:Eset; [|done..].
  intros Hloop r Hr.
  assert (c < length (weaksets st1))%nat as Hc1 by (by rewrite (step_length _ _ _ Hstep)).
  destruct (IH st1 Hc1 Hloop r Hr) as [Hr1|(k & v & Hin & Hp)].
  - destruct (new_set_ (child o prefix c) k0 v0 st b st1 eq_refl Hc Hl0 Hv0 Eset r Hr1)
      as [?|Hp]; [by left|].
    right. exists k0, v0. split; [by left|done].
  - right. exists k, v. split; [by right|done].
Qed.

Lemma defineProperty_body_nested_new_rows target p desc st b st' :
  CYCLES target = Some c -> (c < length (weaksets st))%nat ->
  is_length target p = false -> value desc <> Undefined ->
  defineProperty_body rev H hp set_ target (PString p) desc st = Return b st' ->
  forall r, In r (rows (DATABASE st')) ->
    In r (rows (DATABASE st)) \/ path_bytes (PREFIX target ++ [key p]) `prefix_of` r.1.
Proof.
  intros Hc Hlen Hl Hv Hrun r Hr.
  destruct (composite hp (value desc)) as [[l o]|] eqn:Ecomp.
  - destruct (composite_Some _ _ _ _ Ecomp) as [Hval Ho].
    destruct (defineProperty_body_nested_Return rev H hp set_ c target p desc l o st b st'
                Hc Hl Ecomp Hrun) as (encoded & Henc & Hdef).
    apply encodePath_Ok in Henc as (_ & -> & _).
    destruct (define_composite_nested_Return rev set_ c target desc _ _ l o st tt st'
                Hc Hlen Hdef) as (_ & st1 & _ & Hlen1 & _ & Hrows1 & Hloop).
    destruct (for_of_new_rows o (PREFIX target ++ [key p]) (entries o) st1 tt st'
                (entries_defined hp c wf defined o _ l Ho) ltac:(by rewrite Hlen1)
                Hloop r Hr) as [Hr1|(k & v & _ & Hp)].
    + rewrite Hrows1 in Hr1. apply rows_insert_In_inv in Hr1 as [->|?]; [|by left].
      right. simpl. exists []. by rewrite app_nil_r.
    + right. destruct Hp as [ext Hext]. rewrite path_bytes_app in Hext.
      exists (path_bytes [key k] ++ ext). by rewrite app_assoc.
  - destruct (defineProperty_body_nested_scalar_Return rev H hp set_ c target p desc st b st'
                Hc Hl Hv Ecomp Hrun) as (encoded & s & ev & _ & Henc & _ & _ & Hrows).
    apply encodePath_Ok in Henc as (_ & -> & _).
    rewrite Hrows in Hr. apply rows_insert_In_inv in Hr as [->|?]; [|by left].
    right. simpl. exists []. by rewrite app_nil_r.
Qed.
End NewRowsBody.

Lemma new_rows_defineProperty_nested rev H hp fuel c t k v st b st' :
  wf_heap hp -> defined_heap hp ->
  CYCLES t = Some c -> (c < length (weaksets st))%nat ->
  is_length t k = false -> v <> Undefined ->
  defineProperty rev H hp fuel t (PString k) (set_descriptor t k v) st = Return b st' ->
  forall r, In r (rows (DATABASE st')) ->
    In r (rows (DATABASE st)) \/ path_bytes (PREFIX t ++ [key k]) `prefix_of` r.1.
Proof.
  intros wf Hdef. revert t k v st b st'.
  induction fuel as [|fuel IH]; intros t k v st b st' Hc Hlen Hl Hv Hrun; [done|].
  rewrite defineProperty_S in Hrun.
  set (set_ := fun t k v =>
                 defineProperty rev H hp fuel t (PString k) (set_descriptor t k v)) in *.
  assert (Hs : forall t k v, CYCLES t = Some c -> post (set_ t k v) (step c)).
  { intros t' k' v' Hc'. by apply post_defineProperty_nested. }
  assert (Hv' : value (set_descriptor t k v) <> Undefined)
    by (by rewrite set_descriptor_value).
  exact (defineProperty_body_nested_new_rows rev H hp set_ c wf Hdef Hs IH
           t k (set_descriptor t k v) st b st' Hc Hlen Hl Hv' Hrun).
Qed.

Lemma new_rows_set_outermost rev H hp fuel target prop l o st b st' :
  wf_heap hp -> defined_heap hp ->
  CYCLES target = None -> transaction (DATABASE st) = None ->
  is_length target prop = false ->
  hp !! l = Some o ->
  set rev H hp fuel target prop (Ref l) st = Return b st' ->
  forall r, In r (rows (DATABASE st')) ->
    In r (deleteRange (rows (DATABASE st))
            (path_bytes (PREFIX target ++ [key prop]))
            (increment rev (path_bytes (PREFIX target ++ [key prop])))) \/
    r = (path_bytes (PREFIX target ++ [key prop]), marker rev (type o)) \/
    exists k v, In (k, v) (entries o) /\
      path_bytes ((PREFIX target ++ [key prop]) ++ [key k]) `prefix_of` r.1.
Proof.
  intros wf Hdef Hc Hidle Hl Ho Hrun r Hr. unfold set in Hrun.
  destruct fuel as [|fuel]; [done|]. rewrite defineProperty_S in Hrun.
  set (set_ := fun t k v =>
                 defineProperty rev H hp fuel t (PString k) (set_descriptor t k v)) in *.
  assert (Hcomp : composite hp (value (set_descriptor target prop (Ref l))) = Some (l, o)).
  { rewrite set_descriptor_value. simpl. by rewrite Ho. }
  destruct (defineProperty_body_outermost_Return rev H hp set_ target prop _ l o st b st'
              Hc Hidle Hl Hcomp Hrun) as (encoded & st1 & Henc & Hdefc & Hcommit).
  apply encodePath_Ok in Henc as (_ & -> & _).
  destruct (define_composite_outermost_Return rev set_ target _ _ _ l o _ tt st1
              Hc Hdefc) as (st2 & _ & Hlen2 & _ & Hrows2 & Hloop).
  simpl in Hlen2, Hloop, Hrows2.
  set (c := length (weaksets st)) in *.
  assert (Hss : forall t k v, CYCLES t = Some c -> post (set_ t k v) (step c)).
  { intros t' k' v' Hc'. by apply post_defineProperty_nested. }
  assert (Hnew : forall t k v st b st',
            CYCLES t = Some c -> (c < length (weaksets st))%nat ->
            is_length t k = false -> v <> Undefined ->
            set_ t k v st = Return b st' ->
            forall r, In r (rows (DATABASE st')) ->
              In r (rows (DATABASE st)) \/
              path_bytes (PREFIX t ++ [key k]) `prefix_of` r.1).
  { intros t' k' v' st0 b0 st0' Hc' Hlen' Hl' Hv' Hrun'.
    by apply (new_rows_defineProperty_nested rev H hp fuel c t' k' v' st0 b0 st0'). }
  rewrite (COMMIT_Return _ _ _ Hcommit) in Hr.
  destruct (for_of_new_rows set_ c Hss Hnew o (PREFIX target ++ [key prop])
              (entries o) st2 tt st1
              (entries_defined hp c wf Hdef o _ l Ho)
              ltac:(rewrite Hlen2; unfold c; lia) Hloop r Hr) as [Hr2|Hentry].
  - rewrite Hrows2 in Hr2. apply rows_insert_In_inv in Hr2 as [->|?]; auto.
  - auto.
Qed.



(** ** The [ownKeys] trap *)

Lemma keys_rows_In_inv prefix selected ks name :
  keys_rows prefix selected = Ok ks ->
  In name ks ->
  exists path v decoded k,
    In (path, v) selected /\ decodePath path = Ok decoded /\
    length decoded = (length prefix + 1)%nat /\ last decoded = Some k /\
    name = String_ k.
Proof.
  revert ks. induction selected as [|[path v] selected IH]; intros ks Hks Hin.
  { simpl in Hks. injection Hks as <-. done. }
  simpl in Hks.
  destruct (decodePath path) as [d|e] eqn:Ed; [|done]. simpl in Hks.
  destruct (keys_rows prefix selected) as [rest|e]; [|done]. simpl in Hks.
  assert (Hrest : In name rest ->
            exists path0 v0 decoded k,
              In (path0, v0) ((path, v) :: selected) /\ decodePath path0 = Ok decoded /\
              length decoded = (length prefix + 1)%nat /\ last decoded = Some k /\
              name = String_ k).
  { intros Hr. destruct (IH rest eq_refl Hr) as (path' & v' & d' & k & ? & ?).
    exists path', v', d', k. split; [by right|done]. }
  case_bool_decide as Hlen; [destruct (last d) as [k|] eqn:Hlast|];
    injection Hks as <-; [|by apply Hrest..].
  destruct Hin as [<-|Hin]; [|by apply Hrest].
  exists path, v, d, k. split; [by left|done].
Qed.

Lemma ownKeys_In_iff rev H rs target ks name :
  wf_path (PREFIX target) -> canonical_rows rs ->
  last_byte (path_bytes (PREFIX target)) <> 255 ->
  (PREFIX target <> [] \/ rev = proxy_ts) ->
  ownKeys rev H rs target = Ok ks ->
  In name ks <->
  (rev = proxy_ts /\ PROTOTYPE target = array /\ name = js "length") \/
  (exists k, name = String_ k /\ wf_segment k /\ row_at rs (PREFIX target ++ [k])).
Proof.
  intros HP Hcan Hlast Hroot Hks. destruct rev.
  - unfold ownKeys in Hks.
    destruct (encodePath (PREFIX target)) as [e|?] eqn:He; [|done]. simpl in Hks.
    apply encodePath_Ok in He as (_ & -> & _). split.
    + intros Hin. right.
      destruct (keys_rows_In_inv _ _ _ _ Hks Hin)
        as (path & v & d & k & Hsel & Hd & Hlen & Hk & ->).
      apply selectMany_In in Hsel as [Hrs Hrange]. simpl in Hrange.
      unfold canonical_rows, rows_at_paths in Hcan. rewrite List.Forall_forall in Hcan.
      destruct (Hcan _ Hrs) as (p & Hp & Hpath). simpl in Hpath. subst path.
      assert (d = p) as ->.
      { unfold decodePath in Hd.
        rewrite decodePath_loop_path_bytes in Hd by (done || apply length_path_bytes_ge).
        by injection Hd. }
      destruct (handle_range_child_inv table_ts _ _ HP Hp Hlast Hrange Hlen) as [k' ->].
      rewrite last_snoc in Hk. injection Hk as ->. exists k. split; [done|]. split.
      * apply Forall_app in Hp as [_ Hp]. by apply Forall_cons in Hp as [? _].
      * by exists v.
    + intros [(? & _)|(k & -> & Hk & [v Hin])]; [done|].
      assert (Hwf : wf_path (PREFIX target ++ [k])).
      { apply Forall_app. split; [done|]. by repeat constructor. }
      apply (keys_rows_In _ _ _ (path_bytes (PREFIX target ++ [k])) v
               (PREFIX target ++ [k]) k Hks).
      * apply selectMany_In. split; [done|]. simpl.
        by apply (handle_range_child table_ts).
      * unfold decodePath. apply decodePath_loop_path_bytes; [done|].
        apply length_path_bytes_ge.
      * by rewrite length_app.
      * apply last_snoc.
  - unfold ownKeys in Hks.
    destruct (Database_entries proxy_ts H rs target) as [es|?] eqn:Hes; [|done].
    simpl in Hks. injection Hks as <-.
    pose proof (entries_keys_iff proxy_ts H rs target es HP Hcan Hlast Hroot Hes) as Hiff.
    rewrite in_app_iff, in_map_iff. split.
    + intros [Hlen|([k s] & <- & Hin)].
      * left. destruct (PROTOTYPE target); [done|].
        destruct Hlen as [<-|[]]. done.
      * right. exists k. split; [done|]. apply Hiff. by exists s.
    + intros [(_ & -> & ->)|(k & -> & Hk)]; [left; by left|].
      right. apply Hiff in Hk as [s Hin]. by exists (k, s).
Qed.

(** X24: over a table whose rows are at encodings of well-formed paths,
    the names the [ownKeys] trap returns for a handle (whose encoded
    prefix does not end in the byte [0xFF]; for the root, in [proxy.ts])
    are ["length"], for an array handle in [proxy.ts], and [String] of
    the last segment of every row one level below the prefix of the
    handle, and no other name. *)
Theorem ownKeys_are_the_direct_children (rev : revision) (H : host) (rs : list row)
    (target : Inner) (ks : list jsstring) :
  wf_path (PREFIX target) -> canonical_rows rs ->
  last_byte (path_bytes (PREFIX target)) <> 255 ->
  (PREFIX target <> [] \/ rev = proxy_ts) ->
  ownKeys rev H rs target = Ok ks ->
  forall name,
    In name ks <->
    (rev = proxy_ts /\ PROTOTYPE target = array /\ name = js "length") \/
    (exists k, name = String_ k /\ wf_segment k /\ row_at rs (PREFIX target ++ [k])).
Proof. intros HP Hcan Hlast Hroot Hks name. by apply (ownKeys_In_iff rev H). Qed.

(** The names of the array stored at ["a"]. *)
Lemma ownKeys_are_the_direct_children_witness :
  In (js "1") [js "length"; js "0"; js "1"] <->
  (proxy_ts = proxy_ts /\ PROTOTYPE example_array = array /\ js "1" = js "length") \/
  (exists k, js "1" = String_ k /\ wf_segment k /\
     row_at example_rows (PREFIX example_array ++ [k])).
Proof.
  apply (ownKeys_are_the_direct_children proxy_ts node example_rows example_array).
  - repeat constructor; simpl; lia.
  - unfold canonical_rows, rows_at_paths, example_rows. repeat apply Forall_cons_2.
    + exists [SStr (js "a")]. split; [repeat constructor; simpl; lia|done].
    + exists [SStr (js "a"); SNum 0]. split; [repeat constructor; simpl; lia|done].
    + exists [SStr (js "a"); SNum 1]. split; [repeat constructor; simpl; lia|done].
    + constructor.
  - vm_compute. discriminate.
  - left. discriminate.
  - reflexivity.
Defined.

(** ** Enumerated keys and own properties *)

Lemma path_bytes_wf_inj p q :
  wf_path p -> wf_path q -> path_bytes p = path_bytes q -> p = q.
Proof.
  intros Hp Hq E.
  pose proof (decodePath_loop_path_bytes _ p Hp (length_path_bytes_ge p)) as H1.
  pose proof (decodePath_loop_path_bytes _ q Hq (length_path_bytes_ge q)) as H2.
  rewrite E in H1. congruence.
Qed.

Lemma normal_rows_canonical rs : normal_rows rs -> canonical_rows rs.
Proof.
  intros Hn. eapply Forall_impl; [exact Hn|].
  intros r (p & Hp & E). exists p. split; [by apply normal_path_wf|done].
Qed.

Lemma getOwnPropertyDescriptor_length rev H rs target prop :
  is_length target prop = true ->
  getOwnPropertyDescriptor rev H rs target prop <> Ok None.
Proof.
  intros Hl. unfold getOwnPropertyDescriptor. rewrite Hl.
  destruct (encodePath (PREFIX target ++ [SNum 0])); [|done]. simpl.
  destruct (encodePath (PREFIX target ++ [SNum 4294967295])); [|done]. simpl.
  destruct (selectLength _ _ _); [|done].
  by destruct (decodePath _).
Qed.

Lemma getOwnPropertyDescriptor_row rev H rs target prop :
  row_at rs (PREFIX target ++ [key prop]) ->
  getOwnPropertyDescriptor rev H rs target prop <> Ok None.
Proof.
  intros [v Hin].
  destruct (is_length target prop) eqn:Hl; [by apply getOwnPropertyDescriptor_length|].
  unfold getOwnPropertyDescriptor. rewrite Hl. cbv zeta.
  destruct (encodePath (PREFIX target ++ [key prop])) as [enc|] eqn:Henc; [|done].
  simpl. apply encodePath_Ok in Henc as (_ & -> & _).
  destruct (selectOne rs _) as [v'|] eqn:Hsel.
  - by destruct (instanciate _ _ _ _ _).
  - apply selectOne_None in Hsel.
    assert (has_path rs (path_bytes (PREFIX target ++ [key prop])) = true) as Ht
      by (apply has_path_In; eauto).
    congruence.
Qed.

Lemma has_of_descriptor rev H rs target prop :
  getOwnPropertyDescriptor rev H rs target prop <> Ok None ->
  has rev H rs target prop <> Ok false.
Proof.
  unfold has. by destruct (getOwnPropertyDescriptor rev H rs target prop) as [[d|]|e].
Qed.


